(** * SHA-256 (sha256.cpp): a shallow embedding and its verification

    The development follows the source file top to bottom: the machine
    integers of the C++ abstract machine, the constant table [K], the
    global scratch state ([W], [a] .. [h], [T1], [T2]), the padder, the
    block parser, the eight word functions, the compressor [getHash] and
    the printer.  Unsigned arithmetic wraps; signed overflow, an
    out-of-range shift and an out-of-bounds index are undefined behaviour
    and are reported as such. *)

From Stdlib Require Import ZArith Lia Bool Ascii String.
From Stdlib Require Import Strings.Byte.
From stdpp Require Import base numbers list.

Local Open Scope Z_scope.

(** ** Outcomes of running a piece of the program

    [Ok] is a normal return, [UB] undefined behaviour of the given kind,
    [Exhausted] a loop cut off by the bound on its iterations (see
    [while_]). *)

Inductive undefined : Set :=
| signed_overflow
| out_of_bounds
| shift_out_of_range.

Inductive result (A : Type) : Type :=
| Ok (a : A)
| UB (why : undefined)
| Exhausted.

Arguments Ok {A} a.
Arguments UB {A} why.
Arguments Exhausted {A}.

Definition bind {A B} (m : result A) (f : A -> result B) : result B :=
  match m with
  | Ok a => f a
  | UB why => UB why
  | Exhausted => Exhausted
  end.

Declare Scope result_scope.
Delimit Scope result_scope with result.
Notation "'let*' x := m 'in' f" := (bind m (fun x => f))
  (at level 10, x name, m at level 100, f at level 200) : result_scope.
Notation "'let*' ' p := m 'in' f" := (bind m (fun x => match x with p => f end))
  (at level 10, p pattern, m at level 100, f at level 200) : result_scope.
Local Open Scope result_scope.

(** ** Machine integers *)

Module Machine.

Definition INT_MIN : Z := - 2 ^ 31.
Definition INT_MAX : Z := 2 ^ 31 - 1.
Definition LLONG_MIN : Z := - 2 ^ 63.
Definition LLONG_MAX : Z := 2 ^ 63 - 1.

(** The value of an [int] expression: undefined when it does not fit. *)
Definition int_of (z : Z) : result Z :=
  if (INT_MIN <=? z) && (z <=? INT_MAX) then Ok z else UB signed_overflow.

(** The value of a [long long] expression. *)
Definition llong_of (z : Z) : result Z :=
  if (LLONG_MIN <=? z) && (z <=? LLONG_MAX) then Ok z else UB signed_overflow.

(** Conversions to unsigned types reduce modulo 2^w. *)
Definition to_uchar (z : Z) : Z := z mod 2 ^ 8.
Definition to_uint (z : Z) : Z := z mod 2 ^ 32.
Definition to_size_t (z : Z) : Z := z mod 2 ^ 64.

(** Conversions of an unsigned value to a signed type keep the
    two's complement bit pattern. *)
Definition to_int (z : Z) : Z := (z + 2 ^ 31) mod 2 ^ 32 - 2 ^ 31.
Definition to_llong (z : Z) : Z := (z + 2 ^ 63) mod 2 ^ 64 - 2 ^ 63.

(** A shift of a 32-bit operand is defined for amounts 0..31 only. *)
Definition shift_ok (n : Z) : bool := (0 <=? n) && (n <? 32).

Definition shr_uint (x n : Z) : result Z :=
  if shift_ok n then Ok (Z.shiftr x n) else UB shift_out_of_range.

Definition shl_uint (x n : Z) : result Z :=
  if shift_ok n then Ok (to_uint (Z.shiftl x n)) else UB shift_out_of_range.

Definition add_uint (x y : Z) : Z := to_uint (x + y).
Definition sub_uint (x y : Z) : Z := to_uint (x - y).
Definition not_uint (x : Z) : Z := to_uint (Z.lnot x).

End Machine.

Import Machine.

Definition byte_val (b : byte) : Z := Z.of_N (Byte.to_N b).

Definition byte_of (z : Z) : byte :=
  match Byte.of_N (Z.to_N (to_uchar z)) with
  | Some b => b
  | None => x00
  end.

(** ** std::vector and built-in arrays *)

Section Vectors.
Context {A : Type}.

Definition size (v : list A) : Z := Z.of_nat (length v).

(** [v[i]] as an rvalue; the index is converted to [size_t]. *)
Definition at_ (v : list A) (i : Z) : result A :=
  match v !! Z.to_nat (to_size_t i) with
  | Some x => Ok x
  | None => UB out_of_bounds
  end.

(** [v[i] = x]. *)
Definition set_ (v : list A) (i : Z) (x : A) : result (list A) :=
  if to_size_t i <? size v
  then Ok (<[Z.to_nat (to_size_t i) := x]> v)
  else UB out_of_bounds.

Definition push_back (v : list A) (x : A) : list A := v ++ [x].
End Vectors.

(** ** Loops *)

Section Loops.
Context {S : Type}.

Inductive flow : Type :=
| Continue (s : S)
| Break (s : S).

Variable cond : S -> result bool.
Variable body : S -> result S.

(** One evaluation of the loop condition, followed by the body when the
    condition holds. *)
Definition loop_step (s : S) : result flow :=
  let* c := cond s in
  if (c : bool) then (let* s' := body s in Ok (Continue s')) else Ok (Break s).

(** At most [2 ^ d] iterations. *)
Fixpoint iter_pow2 (d : nat) (s : S) : result flow :=
  match d with
  | O => loop_step s
  | Datatypes.S d' =>
      let* r := iter_pow2 d' s in
      match r with
      | Continue s' => iter_pow2 d' s'
      | Break s' => Ok (Break s')
      end
  end.

(** [while (cond) body].  Every loop of the program either leaves or
    overflows one of its counters in fewer than 2^64 iterations. *)
Definition while_ (s : S) : result S :=
  let* r := iter_pow2 64 s in
  match r with
  | Break s' => Ok s'
  | Continue _ => Exhausted
  end.

(** At most [n] iterations, one at a time; used to reason about
    [iter_pow2]. *)
Fixpoint iter_n (n : nat) (s : S) : result flow :=
  match n with
  | O => Ok (Continue s)
  | Datatypes.S n' =>
      let* r := loop_step s in
      match r with
      | Continue s' => iter_n n' s'
      | Break s' => Ok (Break s')
      end
  end.
End Loops.

Arguments Continue {S} s.
Arguments Break {S} s.

(** An outcome that no further iteration can change. *)
Definition settled {S : Type} (r : result (@flow S)) : Prop :=
  match r with
  | Ok (Continue _) => False
  | _ => True
  end.

(** [for (int i = lo; i < hi; ++i) body], for bounds that are [int]
    values: the counter never passes [hi]. *)
Fixpoint for_each {S : Type} (body : Z -> S -> result S) (l : list Z) (s : S)
  : result S :=
  match l with
  | [] => Ok s
  | i :: l' => let* s' := body i s in for_each body l' s'
  end.

Definition for_ {S : Type} (lo hi : Z) (body : Z -> S -> result S) (s : S)
  : result S :=
  for_each body (seqZ lo (hi - lo)) s.

(** ** Constants (source lines 16-23) *)

(** The table is laid out as in the source, eight constants to a row. *)
Definition K : list Z := Eval cbv in
  ([ 0x428a2f98; 0x71374491; 0xb5c0fbcf; 0xe9b5dba5; 0x3956c25b; 0x59f111f1; 0x923f82a4; 0xab1c5ed5 ] ++
   [ 0xd807aa98; 0x12835b01; 0x243185be; 0x550c7dc3; 0x72be5d74; 0x80deb1fe; 0x9bdc06a7; 0xc19bf174 ] ++
   [ 0xe49b69c1; 0xefbe4786; 0x0fc19dc6; 0x240ca1cc; 0x2de92c6f; 0x4a7484aa; 0x5cb0a9dc; 0x76f988da ] ++
   [ 0x983e5152; 0xa831c66d; 0xb00327c8; 0xbf597fc7; 0xc6e00bf3; 0xd5a79147; 0x06ca6351; 0x14292967 ] ++
   [ 0x27b70a85; 0x2e1b2138; 0x4d2c6dfc; 0x53380d13; 0x650a7354; 0x766a0abb; 0x81c2c92e; 0x92722c85 ] ++
   [ 0xa2bfe8a1; 0xa81a664b; 0xc24b8b70; 0xc76c51a3; 0xd192e819; 0xd6990624; 0xf40e3585; 0x106aa070 ] ++
   [ 0x19a4c116; 0x1e376c08; 0x2748774c; 0x34b0bcb5; 0x391c0cb3; 0x4ed8aa4a; 0x5b9cca4f; 0x682e6ff3 ] ++
   [ 0x748f82ee; 0x78a5636f; 0x84c87814; 0x8cc70208; 0x90befffa; 0xa4506ceb; 0xbef9a3f7; 0xc67178f2 ]).

(** ** Global scratch state (source lines 26-29) *)

Module Globals.
Record t : Type := mk {
  W : list Z;
  a : Z; b : Z; c : Z; d : Z; e : Z; f : Z; g : Z; h : Z;
  T1 : Z; T2 : Z
}.

(** Objects of static storage duration start zeroed. *)
Definition initial : t :=
  mk (replicate 64 0) 0 0 0 0 0 0 0 0 0 0.

(** [W] is an array of 64 words. *)
Definition wf (gl : t) : Prop := length (W gl) = 64%nat.

Definition set_W (gl : t) (w : list Z) : t :=
  mk w (a gl) (b gl) (c gl) (d gl) (e gl) (f gl) (g gl) (h gl) (T1 gl) (T2 gl).
Definition set_a (gl : t) (v : Z) : t :=
  mk (W gl) v (b gl) (c gl) (d gl) (e gl) (f gl) (g gl) (h gl) (T1 gl) (T2 gl).
Definition set_b (gl : t) (v : Z) : t :=
  mk (W gl) (a gl) v (c gl) (d gl) (e gl) (f gl) (g gl) (h gl) (T1 gl) (T2 gl).
Definition set_c (gl : t) (v : Z) : t :=
  mk (W gl) (a gl) (b gl) v (d gl) (e gl) (f gl) (g gl) (h gl) (T1 gl) (T2 gl).
Definition set_d (gl : t) (v : Z) : t :=
  mk (W gl) (a gl) (b gl) (c gl) v (e gl) (f gl) (g gl) (h gl) (T1 gl) (T2 gl).
Definition set_e (gl : t) (v : Z) : t :=
  mk (W gl) (a gl) (b gl) (c gl) (d gl) v (f gl) (g gl) (h gl) (T1 gl) (T2 gl).
Definition set_f (gl : t) (v : Z) : t :=
  mk (W gl) (a gl) (b gl) (c gl) (d gl) (e gl) v (g gl) (h gl) (T1 gl) (T2 gl).
Definition set_g (gl : t) (v : Z) : t :=
  mk (W gl) (a gl) (b gl) (c gl) (d gl) (e gl) (f gl) v (h gl) (T1 gl) (T2 gl).
Definition set_h (gl : t) (v : Z) : t :=
  mk (W gl) (a gl) (b gl) (c gl) (d gl) (e gl) (f gl) (g gl) v (T1 gl) (T2 gl).
Definition set_T1 (gl : t) (v : Z) : t :=
  mk (W gl) (a gl) (b gl) (c gl) (d gl) (e gl) (f gl) (g gl) (h gl) v (T2 gl).
Definition set_T2 (gl : t) (v : Z) : t :=
  mk (W gl) (a gl) (b gl) (c gl) (d gl) (e gl) (f gl) (g gl) (h gl) (T1 gl) v.
End Globals.

(** ** Padder (source lines 53-79) *)

(** [getPadding]: the loop state is the counter [k]. *)
Definition getPadding_cond (length k : Z) : result bool :=
  let* s := llong_of (length + 1) in
  let* s := llong_of (s + k) in
  Ok (negb (Z.rem s 512 =? 448)).

Definition getPadding_body (k : Z) : result Z := int_of (k + 1).

Definition getPadding (length : Z) : result Z :=
  while_ (getPadding_cond length) getPadding_body 0.

Definition paddingMessage (M : list byte) : result (list byte) :=
  let* k := getPadding (to_llong (to_size_t (size M * 8))) in
  let l := to_llong (to_size_t (size M * 8)) in
  let M := push_back M (byte_of 0x80) in
  let* k := int_of (k - 7) in
  let* M := for_ 0 (Z.quot k 8) (fun _ M => Ok (push_back M (byte_of 0))) M in
  let* M := for_ 1 9 (fun i M => Ok (push_back M (byte_of (Z.shiftr l (64 - i * 8))))) M in
  Ok M.

(** ** Block parser (source lines 82-103) *)

(** The innermost loop, [for (int k = 0; k < 4; ++k, ++i)]: the loop
    state is [(word, i)]. *)
Definition parse_word_body (bytes : list byte) (k : Z) (s : Z * Z)
  : result (Z * Z) :=
  let '(word, i) := s in
  let* word := shl_uint word 8 in
  let* byte := at_ bytes i in
  let word := Z.lor word (byte_val byte) in
  let* i := int_of (i + 1) in
  Ok (word, i).

Definition parse_word (bytes : list byte) (i : Z) : result (Z * Z) :=
  for_ 0 4 (parse_word_body bytes) (0, i).

(** The loop over [j]: the loop state is [(block, i)]. *)
Definition parse_block_body (bytes : list byte) (j : Z) (s : list Z * Z)
  : result (list Z * Z) :=
  let '(block, i) := s in
  let* '(word, i) := parse_word bytes i in
  let* block := set_ block j word in
  Ok (block, i).

Definition parse_block (bytes : list byte) (i : Z) : result (list Z * Z) :=
  for_ 0 16 (parse_block_body bytes) (replicate 16 0, i).

(** The outer loop, [for (int i = 0; n < bytes.size() / 64; ++n)]: the
    loop state is [(n, i, M)]. *)
Definition parsingMessage_cond (bytes : list byte) (s : Z * Z * list (list Z))
  : result bool :=
  let '(n, _, _) := s in Ok (n <? size bytes `div` 64).

Definition parsingMessage_body (bytes : list byte) (s : Z * Z * list (list Z))
  : result (Z * Z * list (list Z)) :=
  let '(n, i, M) := s in
  let* '(block, i) := parse_block bytes i in
  Ok (to_uint (n + 1), i, push_back M block).

Definition parsingMessage (bytes : list byte) : result (list (list Z)) :=
  let* '(_, _, M) :=
    while_ (parsingMessage_cond bytes) (parsingMessage_body bytes) (0, 0, []) in
  Ok M.

(** ** The eight word functions (source lines 110-166) *)

Definition SHR (n x : Z) : result Z := shr_uint x n.

Definition ROTR (n x : Z) : result Z :=
  let* lo := shr_uint x n in
  let* hi := shl_uint x (sub_uint 32 n) in
  Ok (Z.lor lo hi).

(** In the source the parameter list of [Ch] is cut in two by a stray
    copy of lines of [parsingMessage] (source lines 123-132); the three
    parameters are read off the body and the call [Ch(e, f, g)]. *)
Definition Ch (x y z : Z) : Z :=
  Z.lxor (Z.land x y) (Z.land (not_uint x) z).

Definition Maj (x y z : Z) : Z :=
  Z.lxor (Z.lxor (Z.land x y) (Z.land x z)) (Z.land y z).

(** The four sigma functions are the only callers of [ROTR] and [SHR];
    they are written over the two primitives so that what they ask of
    them can be stated. *)
Section Sigma.
Variable rotr shr : Z -> Z -> result Z.

Definition capitalSigma_0_with (x : Z) : result Z :=
  let* r1 := rotr 2 x in
  let* r2 := rotr 13 x in
  let* r3 := rotr 22 x in
  Ok (Z.lxor (Z.lxor r1 r2) r3).

Definition capitalSigma_1_with (x : Z) : result Z :=
  let* r1 := rotr 6 x in
  let* r2 := rotr 11 x in
  let* r3 := rotr 25 x in
  Ok (Z.lxor (Z.lxor r1 r2) r3).

Definition lowercaseSigma0_with (x : Z) : result Z :=
  let* r1 := rotr 7 x in
  let* r2 := rotr 18 x in
  let* r3 := shr 3 x in
  Ok (Z.lxor (Z.lxor r1 r2) r3).

Definition lowercaseSigma1_with (x : Z) : result Z :=
  let* r1 := rotr 17 x in
  let* r2 := rotr 19 x in
  let* r3 := shr 10 x in
  Ok (Z.lxor (Z.lxor r1 r2) r3).
End Sigma.

Definition capitalSigma_0 : Z -> result Z := capitalSigma_0_with ROTR.
Definition capitalSigma_1 : Z -> result Z := capitalSigma_1_with ROTR.
Definition lowercaseSigma0 : Z -> result Z := lowercaseSigma0_with ROTR SHR.
Definition lowercaseSigma1 : Z -> result Z := lowercaseSigma1_with ROTR SHR.

(** ** Compressor (source lines 169-233) *)

Definition H0 : list Z :=
  [ 0x6a09e667; 0xbb67ae85; 0x3c6ef372; 0xa54ff53a;
    0x510e527f; 0x9b05688c; 0x1f83d9ab; 0x5be0cd19 ].

(** [v[i][j]] *)
Definition at2 {A : Type} (v : list (list A)) (i j : Z) : result A :=
  let* row := at_ v i in at_ row j.

(** [W[t] = x] *)
Definition assign_W (gl : Globals.t) (t x : Z) : result Globals.t :=
  let* w := set_ (Globals.W gl) t x in Ok (Globals.set_W gl w).

(** The two loops that fill the message schedule for block [i]. *)
Definition schedule_copy_body (M : list (list Z)) (i t : Z) (gl : Globals.t)
  : result Globals.t :=
  let* m := at2 M (i - 1) t in assign_W gl t m.

Definition schedule_expand_body (t : Z) (gl : Globals.t) : result Globals.t :=
  let* w2 := at_ (Globals.W gl) (t - 2) in
  let* s1 := lowercaseSigma1 w2 in
  let* w7 := at_ (Globals.W gl) (t - 7) in
  let* w15 := at_ (Globals.W gl) (t - 15) in
  let* s0 := lowercaseSigma0 w15 in
  let* w16 := at_ (Globals.W gl) (t - 16) in
  assign_W gl t (add_uint (add_uint (add_uint s1 w7) s0) w16).

Definition schedule (M : list (list Z)) (i : Z) (gl : Globals.t)
  : result Globals.t :=
  let* gl := for_ 0 16 (schedule_copy_body M i) gl in
  for_ 16 64 schedule_expand_body gl.

(** The eight assignments [a = Hash[i - 1][0]; ... h = Hash[i - 1][7];]. *)
Definition load_registers (Hash : list (list Z)) (i : Z) (gl : Globals.t)
  : result Globals.t :=
  let* v := at2 Hash (i - 1) 0 in let gl := Globals.set_a gl v in
  let* v := at2 Hash (i - 1) 1 in let gl := Globals.set_b gl v in
  let* v := at2 Hash (i - 1) 2 in let gl := Globals.set_c gl v in
  let* v := at2 Hash (i - 1) 3 in let gl := Globals.set_d gl v in
  let* v := at2 Hash (i - 1) 4 in let gl := Globals.set_e gl v in
  let* v := at2 Hash (i - 1) 5 in let gl := Globals.set_f gl v in
  let* v := at2 Hash (i - 1) 6 in let gl := Globals.set_g gl v in
  let* v := at2 Hash (i - 1) 7 in let gl := Globals.set_h gl v in
  Ok gl.

(** The body of the loop over [t = 0 .. 63]. *)
Definition round (t : Z) (gl : Globals.t) : result Globals.t :=
  let* s1 := capitalSigma_1 (Globals.e gl) in
  let* k := at_ K t in
  let* w := at_ (Globals.W gl) t in
  let gl :=
    Globals.set_T1 gl
      (add_uint
         (add_uint
            (add_uint (add_uint (Globals.h gl) s1)
               (Ch (Globals.e gl) (Globals.f gl) (Globals.g gl)))
            k)
         w) in
  let* s0 := capitalSigma_0 (Globals.a gl) in
  let gl :=
    Globals.set_T2 gl
      (add_uint s0 (Maj (Globals.a gl) (Globals.b gl) (Globals.c gl))) in
  let gl := Globals.set_h gl (Globals.g gl) in
  let gl := Globals.set_g gl (Globals.f gl) in
  let gl := Globals.set_f gl (Globals.e gl) in
  let gl := Globals.set_e gl (add_uint (Globals.d gl) (Globals.T1 gl)) in
  let gl := Globals.set_d gl (Globals.c gl) in
  let gl := Globals.set_c gl (Globals.b gl) in
  let gl := Globals.set_b gl (Globals.a gl) in
  let gl := Globals.set_a gl (add_uint (Globals.T1 gl) (Globals.T2 gl)) in
  Ok gl.

(** The eight assignments [currentBlock[0] = a + Hash[i - 1][0]; ...]. *)
Definition intermediate (Hash : list (list Z)) (i : Z) (gl : Globals.t)
    (currentBlock : list Z) : result (list Z) :=
  let* v := at2 Hash (i - 1) 0 in
  let* currentBlock := set_ currentBlock 0 (add_uint (Globals.a gl) v) in
  let* v := at2 Hash (i - 1) 1 in
  let* currentBlock := set_ currentBlock 1 (add_uint (Globals.b gl) v) in
  let* v := at2 Hash (i - 1) 2 in
  let* currentBlock := set_ currentBlock 2 (add_uint (Globals.c gl) v) in
  let* v := at2 Hash (i - 1) 3 in
  let* currentBlock := set_ currentBlock 3 (add_uint (Globals.d gl) v) in
  let* v := at2 Hash (i - 1) 4 in
  let* currentBlock := set_ currentBlock 4 (add_uint (Globals.e gl) v) in
  let* v := at2 Hash (i - 1) 5 in
  let* currentBlock := set_ currentBlock 5 (add_uint (Globals.f gl) v) in
  let* v := at2 Hash (i - 1) 6 in
  let* currentBlock := set_ currentBlock 6 (add_uint (Globals.g gl) v) in
  let* v := at2 Hash (i - 1) 7 in
  let* currentBlock := set_ currentBlock 7 (add_uint (Globals.h gl) v) in
  Ok currentBlock.

(** The body of the loop over the blocks; the loop state is
    [(i, globals, Hash, currentBlock)]. *)
Definition getHash_body (M : list (list Z))
    (s : Z * Globals.t * list (list Z) * list Z)
  : result (Z * Globals.t * list (list Z) * list Z) :=
  let '(i, gl, Hash, currentBlock) := s in
  let* gl := schedule M i gl in
  let* gl := load_registers Hash i gl in
  let* gl := for_ 0 64 round gl in
  let* currentBlock := intermediate Hash i gl currentBlock in
  let Hash := push_back Hash currentBlock in
  let* i := int_of (i + 1) in
  Ok (i, gl, Hash, currentBlock).

Definition getHash_cond (N : Z) (s : Z * Globals.t * list (list Z) * list Z)
  : result bool :=
  let '(i, _, _, _) := s in Ok (i <=? N).

Definition getHash (gl : Globals.t) (M : list (list Z))
  : result (Globals.t * list (list Z)) :=
  let Hash := push_back [] H0 in
  let currentBlock := replicate 8 0 in
  let N := to_int (size M) in
  let* '(_, gl, Hash, _) :=
    while_ (getHash_cond N) (getHash_body M) (1, gl, Hash, currentBlock) in
  Ok (gl, Hash).

(** ** Printer (source lines 45-50) *)

Definition hex_digit (d : Z) : ascii :=
  nth (Z.to_nat d) (list_ascii_of_string "0123456789abcdef") "0"%char.

(** The digits of [w] in base 16, most significant first, without leading
    zeros; an [unsigned int] has at most [n = 8] of them. *)
Fixpoint hex_digits (n : nat) (w : Z) : list ascii :=
  match n with
  | O => []
  | Datatypes.S n' =>
      if w <? 16 then [hex_digit w]
      else hex_digits n' (w `div` 16) ++ [hex_digit (w `mod` 16)]
  end.

(** [std::cout << std::hex << std::setw(width) << std::setfill(fill) << w] *)
Definition put_hex (width : nat) (fill : ascii) (w : Z) : list ascii :=
  let ds := hex_digits 8 w in
  replicate (width - length ds) fill ++ ds.

Definition newline : ascii := ascii_of_nat 10.

Definition printHash_body (H : list (list Z)) (N i : Z) (out : list ascii)
  : result (list ascii) :=
  let* w := at2 H N i in Ok (out ++ put_hex 8 "0"%char w).

Definition printHash (H : list (list Z)) (N : Z) : result (list ascii) :=
  let* out := for_ 0 8 (printHash_body H N) [] in
  Ok (out ++ [newline]).

(** ** One iteration of the loop of [main] (source lines 236-253)

    [readInput], which turns a line of hexadecimal digits into the
    message, is input handling and comes with [main] further down: here
    an iteration starts from the decoded message and ends with the line
    that is printed. *)

Definition main_step (gl : Globals.t) (message : list byte)
  : result (Globals.t * list ascii) :=
  let* message := paddingMessage message in
  let* parsed_message := parsingMessage message in
  let* '(gl, Hash) := getHash gl parsed_message in
  let* out := printHash Hash (to_int (size parsed_message)) in
  Ok (gl, out).

(** The digest: the element of the chain that [main] has printed. *)
Definition digest (gl : Globals.t) (message : list byte) : result (list Z) :=
  let* message := paddingMessage message in
  let* parsed_message := parsingMessage message in
  let* '(_, Hash) := getHash gl parsed_message in
  at_ Hash (to_int (size parsed_message)).

(** * Specification-side definitions *)

(** ** Words and running states *)

(** An unsigned 32-bit word. *)
Definition word (x : Z) : Prop := 0 <= x < 2 ^ 32.

(** A running state: eight unsigned 32-bit words. *)
Definition hash_value (H : list Z) : Prop := length H = 8%nat /\ Forall word H.

(** ** The word functions and the compressor (section 4.3) *)

(** The word functions of section 4.3 of the specification, read over the
    integers: [x >> n] is the quotient by [2 ^ n], [x << n] the product by
    [2 ^ n] reduced to 32 bits, [~x] the complement to [2 ^ 32 - 1]. *)
Module Spec.
Definition shr (x n : Z) : Z := x `div` 2 ^ n.
Definition shl (x n : Z) : Z := (x * 2 ^ n) `mod` 2 ^ 32.
Definition compl (x : Z) : Z := 2 ^ 32 - 1 - x.

Definition ROTR (n x : Z) : Z := Z.lor (shr x n) (shl x (32 - n)).
Definition SHR (n x : Z) : Z := shr x n.
Definition Ch (x y z : Z) : Z := Z.lxor (Z.land x y) (Z.land (compl x) z).
Definition Maj (x y z : Z) : Z :=
  Z.lxor (Z.lxor (Z.land x y) (Z.land x z)) (Z.land y z).
Definition Sigma0 (x : Z) : Z :=
  Z.lxor (Z.lxor (ROTR 2 x) (ROTR 13 x)) (ROTR 22 x).
Definition Sigma1 (x : Z) : Z :=
  Z.lxor (Z.lxor (ROTR 6 x) (ROTR 11 x)) (ROTR 25 x).
Definition sigma0 (x : Z) : Z :=
  Z.lxor (Z.lxor (ROTR 7 x) (ROTR 18 x)) (SHR 3 x).
Definition sigma1 (x : Z) : Z :=
  Z.lxor (Z.lxor (ROTR 17 x) (ROTR 19 x)) (SHR 10 x).

(** The compressor of section 4.3.  Step 1, schedule expansion: the
    word that follows the words [w] already known, with [t] their
    number. *)
Definition W_next (w : list Z) : Z :=
  let t := length w in
  (sigma1 (w !!! (t - 2)%nat) + w !!! (t - 7)%nat +
   sigma0 (w !!! (t - 15)%nat) + w !!! (t - 16)%nat) `mod` 2 ^ 32.

Fixpoint W_extend (n : nat) (w : list Z) : list Z :=
  match n with
  | O => w
  | Datatypes.S n' => let w' := W_extend n' w in w' ++ [W_next w']
  end.

Definition schedule (block : list Z) : list Z := W_extend 48 block.

(** Step 3, one round on the registers [a .. h], with the round
    constant and the schedule word of the round. *)
Definition round (r : list Z) (kw : Z * Z) : list Z :=
  match r with
  | [a; b; c; d; e; f; g; h] =>
      let T1 := (h + Sigma1 e + Ch e f g + fst kw + snd kw) `mod` 2 ^ 32 in
      let T2 := (Sigma0 a + Maj a b c) `mod` 2 ^ 32 in
      [ (T1 + T2) `mod` 2 ^ 32; a; b; c; (d + T1) `mod` 2 ^ 32; e; f; g ]
  | _ => r
  end.

(** Steps 2 and 3: the registers start from the running state. *)
Definition rounds (W : list Z) (H : list Z) : list Z :=
  fold_left round (zip K W) H.

(** Step 4, state fold. *)
Definition compress (H block : list Z) : list Z :=
  zip_with (fun x y => (x + y) `mod` 2 ^ 32) H (rounds (schedule block) H).

(** The running states, from the initial one on, block after block. *)
Fixpoint chain (H : list Z) (M : list (list Z)) : list (list Z) :=
  H :: match M with
       | [] => []
       | block :: M' => chain (compress H block) M'
       end.
End Spec.

(** The working registers, in the order [a .. h]. *)
Definition registers (gl : Globals.t) : list Z :=
  [ Globals.a gl; Globals.b gl; Globals.c gl; Globals.d gl;
    Globals.e gl; Globals.f gl; Globals.g gl; Globals.h gl ].

(** The registers before round 0, 1, .., 63 and after round 63. *)
Definition round_trace (W H : list Z) : list (list Z) :=
  (fun t => fold_left Spec.round (take t (zip K W)) H) <$> seq 0 65.

(** The last running state of the specification for the blocks [M]. *)
Definition final_state (M : list (list Z)) : list Z :=
  default H0 (last (Spec.chain H0 M)).

(** The first arguments of the calls of [ROTR] in the source. *)
Definition rotation_amounts : list Z := [2; 6; 7; 11; 13; 17; 18; 19; 22; 25].

(** ** The constants of FIPS 180-4, sections 4.2.2 and 5.3.3 (section 6) *)

Definition prime_number (p : Z) : Prop :=
  2 <= p /\ forall d, 2 <= d < p -> p `mod` d <> 0.

Definition is_prime (p : Z) : bool :=
  (2 <=? p) && forallb (fun d => negb (p `mod` d =? 0)) (seqZ 2 (p - 2)).

(** The primes up to [n], in increasing order. *)
Definition primes_upto (n : Z) : list Z := List.filter is_prime (seqZ 2 (n - 1)).

(** [k] is the first 32 bits of the fractional part of the [e]-th root of
    [p]: with [r] the integer part of [2 ^ 32] times that root, [k] is
    [r] without the integer part of the root. *)
Definition frac_root_bits (e p k : Z) : Prop :=
  exists r, 0 <= r /\ r ^ e <= p * 2 ^ (32 * e) < (r + 1) ^ e /\ k = r `mod` 2 ^ 32.

(** The integer part of the [e]-th root of a small number. *)
Definition small_root (e p : Z) : Z :=
  Z.of_nat (length (List.filter (fun j => j ^ e <=? p) (seqZ 1 31))).

Definition check_root_bits (e p k : Z) : bool :=
  let r := small_root e p * 2 ^ 32 + k in
  (0 <=? k) && (k <? 2 ^ 32) && (0 <=? small_root e p) &&
  (r ^ e <=? p * 2 ^ (32 * e)) && (p * 2 ^ (32 * e) <? (r + 1) ^ e).

(** ** The padding (section 4.1) *)

(** The number that a byte string writes in base 256, most significant
    byte first. *)
Definition be_value (bs : list byte) : Z :=
  fold_left (fun acc b => acc * 256 + byte_val b) bs 0.

(** The number of zero bits that follow the 1 bit in the padding of a
    message of [L] bits (FIPS 180-4, section 5.1.1). *)
Definition zero_bits (L : Z) : Z := (447 - L) `mod` 512.

(** ** The blocks (section 4.2) *)

Definition byte_at (bytes : list byte) (p : nat) : Z :=
  byte_val (default x00 (bytes !! p)).

(** Four bytes as one word, most significant byte first. *)
Definition word_at (bytes : list byte) (p : nat) : Z :=
  byte_at bytes p * 2 ^ 24 + byte_at bytes (p + 1) * 2 ^ 16 +
  byte_at bytes (p + 2) * 2 ^ 8 + byte_at bytes (p + 3).

Definition block_at (bytes : list byte) (n : nat) : list Z :=
  (fun j => word_at bytes (64 * n + 4 * j)) <$> seq 0 16.

Definition blocks_of (bytes : list byte) : list (list Z) :=
  block_at bytes <$> seq 0 (length bytes / 64).

(** ** The digest as the specification presents it (section 6) *)

(** A word as four bytes, most significant first. *)
Definition be_bytes32 (w : Z) : list byte :=
  [ byte_of (Z.shiftr w 24); byte_of (Z.shiftr w 16);
    byte_of (Z.shiftr w 8); byte_of w ].

Definition digest_bytes (d : list Z) : list byte := d ≫= be_bytes32.

(** Reading a string of lower-case hexadecimal digits. *)
Fixpoint index_of (c : ascii) (l : list ascii) : nat :=
  match l with
  | [] => O
  | x :: l' => if Ascii.eqb x c then O else Datatypes.S (index_of c l')
  end.

Definition hex_val (c : ascii) : Z :=
  Z.of_nat (index_of c (list_ascii_of_string "0123456789abcdef")).

Definition hex_value (cs : list ascii) : Z :=
  fold_left (fun acc c => acc * 16 + hex_val c) cs 0.

Definition is_hex_digit (c : ascii) : bool :=
  existsb (Ascii.eqb c) (list_ascii_of_string "0123456789abcdef").

(** The output of [printHash] for a digest [d]. *)
Definition rendering (d : list Z) : list ascii :=
  (d ≫= put_hex 8 "0"%char) ++ [newline].

(** The part of an outcome that an observer of one of its components
    sees. *)
Definition outcome_of {A B : Type} (f : A -> B) (r : result A) : result B :=
  match r with
  | Ok a => Ok (f a)
  | UB why => UB why
  | Exhausted => Exhausted
  end.

(** * Input handling and the loop of [main] *)

(** ** Exceptions of the standard library *)

Inductive exception : Set :=
| invalid_argument
| out_of_range.

(** A call returns ([inr]) or throws ([inl]); the code around it has the
    outcomes of [result] besides. *)
Definition returns {A : Type} (a : A) : result (exception + A) := Ok (inr a).
Definition throw {A : Type} (e : exception) : result (exception + A) := Ok (inl e).

(** Sequencing: an exception that nothing catches leaves the rest out. *)
Definition try_bind {A B : Type} (m : result (exception + A))
    (f : A -> result (exception + B)) : result (exception + B) :=
  let* r := m in
  match r with
  | inl e => throw e
  | inr a => f a
  end.

Notation "'try*' x := m 'in' f" := (try_bind m (fun x => f))
  (at level 10, x name, m at level 100, f at level 200) : result_scope.
Notation "'try*' ' p := m 'in' f" := (try_bind m (fun x => match x with p => f end))
  (at level 10, p pattern, m at level 100, f at level 200) : result_scope.

(** A loop over the elements of [l] whose body can throw. *)
Fixpoint try_for_each {A S : Type} (body : A -> S -> result (exception + S))
    (l : list A) (s : S) : result (exception + S) :=
  match l with
  | [] => returns s
  | i :: l' => try* s' := body i s in try_for_each body l' s'
  end.

(** [for (int i = lo; i < hi; ++i) body] with a body that can throw. *)
Definition try_for {S : Type} (lo hi : Z) (body : Z -> S -> result (exception + S))
    (s : S) : result (exception + S) :=
  try_for_each body (seqZ lo (hi - lo)) s.

(** ** Characters and [std::stoi]

    The program never sets a locale: the character classes are those of
    the C locale. *)

Definition char_code (c : ascii) : Z := Z.of_N (N_of_ascii c).

(** [isspace]: the space and the controls HT, LF, VT, FF and CR. *)
Definition isspace (c : ascii) : bool :=
  (char_code c =? 32) || ((9 <=? char_code c) && (char_code c <=? 13)).

(** The value of [c] as a digit of base 16, if it is one. *)
Definition xdigit (c : ascii) : option Z :=
  let n := char_code c in
  if (48 <=? n) && (n <=? 57) then Some (n - 48)
  else if (97 <=? n) && (n <=? 102) then Some (n - 97 + 10)
  else if (65 <=? n) && (n <=? 70) then Some (n - 65 + 10)
  else None.

Fixpoint skip_space (s : list ascii) : list ascii :=
  match s with
  | c :: s' => if isspace c then skip_space s' else s
  | [] => []
  end.

(** The longest run of digits at the head of [s]; [acc] is the value of
    the digits read so far, [None] before the first one. *)
Fixpoint xdigits (s : list ascii) (acc : option Z) : option Z :=
  match s with
  | c :: s' =>
      match xdigit c with
      | Some d => xdigits s' (Some (default 0 acc * 16 + d))
      | None => acc
      end
  | [] => acc
  end.

(** [std::stoi(str, nullptr, 16)], which is [strtol] with a check of the
    range of [int]: white space, a sign and the prefix 0x or 0X may
    precede the digits; the prefix counts only when a digit follows it;
    what follows the digits is ignored.  Without a digit the call throws
    [std::invalid_argument], with a value that is no [int]
    [std::out_of_range]. *)
Definition stoi (str : list ascii) : exception + Z :=
  let s := skip_space str in
  let '(negative, s) :=
    match s with
    | c :: s' =>
        if Ascii.eqb c "-" then (true, s')
        else if Ascii.eqb c "+" then (false, s')
        else (false, s)
    | [] => (false, s)
    end in
  let s :=
    match s with
    | z :: x :: d :: _ =>
        if Ascii.eqb z "0" && (Ascii.eqb x "x" || Ascii.eqb x "X")
           && bool_decide (is_Some (xdigit d))
        then drop 2 s else s
    | _ => s
    end in
  match xdigits s None with
  | None => inl invalid_argument
  | Some v =>
      let v := if (negative : bool) then - v else v in
      if (INT_MIN <=? v) && (v <=? INT_MAX) then inr v else inl out_of_range
  end.

(** [s.substr(pos, n)]: throws [std::out_of_range] when [pos] is past the
    end, and is cut at the end of [s] otherwise. *)
Definition substr (s : list ascii) (pos n : Z) : exception + list ascii :=
  if size s <? to_size_t pos then inl out_of_range
  else inr (take (Z.to_nat (to_size_t n)) (drop (Z.to_nat (to_size_t pos)) s)).

(** ** [readInput] (source lines 33-42)

    The loop state is [(pos, inputVector)]; [i] is the counter of the
    loop. *)

Definition readInput_body (input : list ascii) (i : Z) (s : Z * list byte)
  : result (exception + Z * list byte) :=
  let '(pos, inputVector) := s in
  try* pair := Ok (substr input pos 2) in
  try* value := Ok (stoi pair) in
  let hexpair := byte_of value in
  let inputVector := push_back inputVector hexpair in
  let* pos := int_of (pos + 2) in
  returns (pos, inputVector).

Definition readInput (input : list ascii) : result (exception + list byte) :=
  let inputVector := [] in
  let size := to_int (size input) in
  try* '(_, inputVector) :=
    try_for 0 (Z.quot size 2) (readInput_body input) (0, inputVector) in
  returns inputVector.

(** ** [main] (source lines 236-253) *)

(** The lines that the calls [std::getline(std::cin, input)] deliver one
    after the other: a call takes the characters up to the next newline,
    which it drops, or up to the end of the input, and it fails when no
    character is left.  [input] holds the characters of the line being
    read. *)
Fixpoint getlines (input cin : list ascii) : list (list ascii) :=
  match cin with
  | [] => match input with [] => [] | _ :: _ => [input] end
  | c :: cin' =>
      if Ascii.eqb c newline then input :: getlines [] cin'
      else getlines (input ++ [c]) cin'
  end.

(** The body of the loop.  The loop state is the globals and what has
    been written to [std::cout]; the exception is the one that
    [readInput] has thrown, if any. *)
Definition main_body (input : list ascii) (s : Globals.t * list ascii)
  : result (Globals.t * list ascii * option exception) :=
  let '(gl, cout) := s in
  let* r := readInput input in
  match r with
  | inl e => Ok (gl, cout, Some e)
  | inr message =>
      let* '(gl, out) := main_step gl message in
      Ok (gl, cout ++ out, None)
  end.

(** The loop over the lines.  Nothing catches an exception: it ends the
    program, after what has been written before. *)
Fixpoint main_loop (lines : list (list ascii)) (s : Globals.t * list ascii)
  : result (Globals.t * list ascii * option exception) :=
  match lines with
  | [] => Ok (s, None)
  | input :: lines' =>
      let* '(s', e) := main_body input s in
      match e with
      | Some e => Ok (s', Some e)
      | None => main_loop lines' s'
      end
  end.

(** The program on the characters [cin] of standard input. *)
Definition main (gl : Globals.t) (cin : list ascii)
  : result (Globals.t * list ascii * option exception) :=
  main_loop (getlines [] cin) (gl, []).

(** ** Reference notions for the input *)

(** A character as a hexadecimal digit of either case. *)
Definition hex_digit_value (c : ascii) : option Z :=
  if is_hex_digit c then Some (hex_val c)
  else if existsb (Ascii.eqb c) (list_ascii_of_string "ABCDEF")
  then Some (10 + Z.of_nat (index_of c (list_ascii_of_string "ABCDEF")))
  else None.

(** White space: the space, HT, LF, VT, FF and CR. *)
Definition blank (c : ascii) : bool :=
  existsb (Ascii.eqb c) (ascii_of_nat <$> [32; 9; 10; 11; 12; 13]%nat).

(** What two characters stand for, [None] when they stand for nothing. *)
Definition pair_value (c1 c2 : ascii) : option Z :=
  match hex_digit_value c1, hex_digit_value c2 with
  | Some v1, Some v2 => Some (16 * v1 + v2)
  | Some v1, None => Some v1
  | None, Some v2 =>
      if blank c1 || Ascii.eqb c1 "+" then Some v2
      else if Ascii.eqb c1 "-" then Some (- v2)
      else None
  | None, None => None
  end.

(** Decoding a line two characters at a time; a last character without
    a partner is not looked at. *)
Fixpoint decode_pairs (s : list ascii) : exception + list byte :=
  match s with
  | c1 :: c2 :: s' =>
      match pair_value c1 c2 with
      | None => inl invalid_argument
      | Some v =>
          match decode_pairs s' with
          | inl e => inl e
          | inr bs => inr (byte_of v :: bs)
          end
      end
  | _ => inr []
  end.

(** A byte string as a line of hexadecimal digits, two to a byte, as
    [printHash] writes digits. *)
Definition hex_line (bs : list byte) : list ascii :=
  bs ≫= (fun b => put_hex 2 "0"%char (byte_val b)).

Definition toupper (c : ascii) : ascii :=
  if (97 <=? char_code c) && (char_code c <=? 122)
  then ascii_of_N (Z.to_N (char_code c - 32)) else c.

(** Every character, and the comparison of [stoi] on two characters
    with [pair_value]. *)
Definition all_chars : list ascii := ascii_of_nat <$> seq 0 256.

Definition stoi_agrees (c1 c2 : ascii) : bool :=
  match stoi [c1; c2], pair_value c1 c2 with
  | inr v, Some w => v =? w
  | inl invalid_argument, None => true
  | _, _ => false
  end.

(** ** Reference notions for the pipeline *)

(** The bit length [L] as eight bytes, most significant first. *)
Definition length_field (L : Z) : list byte :=
  (fun i => byte_of (Z.shiftr L (64 - i * 8))) <$> seqZ 1 8.

(** The padded message of FIPS 180-4, section 5.1.1. *)
Definition padding (M : list byte) : list byte :=
  let L := 8 * size M in
  M ++ [x80] ++ replicate (Z.to_nat ((zero_bits L - 7) `div` 8)) x00 ++
  length_field L.

(** The message that a padded message was made from: its length field
    says how many of its bytes are the message. *)
Definition unpad (padded : list byte) : list byte :=
  take (Z.to_nat (be_value (drop (length padded - 8) padded) `div` 8)) padded.

Definition sha256 (M : list byte) : list Z :=
  final_state (blocks_of (padding M)).

(** What the program writes for one line of input, and for a list of
    lines. *)
Definition line_output (input : list ascii) : exception + list ascii :=
  match decode_pairs (take (Z.to_nat (to_int (size input))) input) with
  | inl e => inl e
  | inr message => inr (rendering (sha256 message))
  end.

Fixpoint outputs (lines : list (list ascii)) : list ascii * option exception :=
  match lines with
  | [] => ([], None)
  | input :: lines' =>
      match line_output input with
      | inl e => ([], Some e)
      | inr out => let '(outs, e) := outputs lines' in (out ++ outs, e)
      end
  end.

(** What of the outcome of [main] can be seen from outside: what was
    written, and the exception that ended the program, if any. *)
Definition written (r : Globals.t * list ascii * option exception)
  : list ascii * option exception :=
  let '(_, cout, e) := r in (cout, e).
(** The two digits that [put_hex] writes for a byte read back as the
    byte, in either case, and are no newline. *)
Definition hex_pair_ok (v : Z) : bool :=
  match put_hex 2 "0"%char v with
  | [c1; c2] =>
      bool_decide (pair_value c1 c2 = Some v) &&
      bool_decide (pair_value (toupper c1) (toupper c2) = Some v) &&
      negb (Ascii.eqb c1 newline) && negb (Ascii.eqb c2 newline)
  | _ => false
  end.

(** ** Reference notions for the compressor *)

(** After [k] blocks of [M] the global array [W] holds the message
    schedule of block [k]. *)
Definition holds_schedule (M : list (list Z)) (k : nat) (gl : Globals.t) : Prop :=
  match k with
  | O => True
  | Datatypes.S k' =>
      exists block, M !! k' = Some block /\ Globals.W gl = Spec.schedule block
  end.

(** * Reasoning about outcomes and loops *)

Lemma bind_Ok {A B} (m : result A) (f : A -> result B) (a : A) :
  m = Ok a -> bind m f = f a.
Proof. intros ->. reflexivity. Qed.

Lemma bind_Ok_inv {A B} (m : result A) (f : A -> result B) (b : B) :
  bind m f = Ok b -> exists a, m = Ok a /\ f a = Ok b.
Proof. destruct m as [a| |]; simpl; intros H; try discriminate. eauto. Qed.

Section LoopFacts.
Context {S : Type}.
Variable cond : S -> result bool.
Variable body : S -> result S.

Lemma iter_n_add (n m : nat) (s : S) :
  iter_n cond body (n + m) s =
  let* r := iter_n cond body n s in
  match r with
  | Continue s' => iter_n cond body m s'
  | Break s' => Ok (Break s')
  end.
Proof.
  revert s. induction n as [|n IH]; intros s; simpl; [reflexivity|].
  destruct (loop_step cond body s) as [[s'|s']| |]; simpl; auto.
Qed.

Lemma iter_pow2_iter_n (d : nat) (s : S) :
  iter_pow2 cond body d s = iter_n cond body (2 ^ d) s.
Proof.
  revert s. induction d as [|d IH]; intros s.
  - simpl. destruct (loop_step cond body s) as [[s'|s']| |]; reflexivity.
  - replace (2 ^ Datatypes.S d)%nat with (2 ^ d + 2 ^ d)%nat
      by (rewrite Nat.pow_succ_r'; lia).
    rewrite iter_n_add. cbn [iter_pow2]. rewrite IH.
    destruct (iter_n cond body (2 ^ d) s) as [[s'|s']| |]; simpl; auto.
Qed.

Lemma iter_n_settled (n m : nat) (s : S) :
  settled (iter_n cond body n s) -> (n <= m)%nat ->
  iter_n cond body m s = iter_n cond body n s.
Proof.
  intros Hs Hle. replace m with (n + (m - n))%nat by lia.
  rewrite iter_n_add.
  destruct (iter_n cond body n s) as [[s'|s']| |]; simpl in *;
    [contradiction | reflexivity ..].
Qed.

(** A loop that leaves after [n] evaluations of its condition. *)
Lemma while_Break (n : nat) (s s' : S) :
  Z.of_nat n <= 2 ^ 64 ->
  iter_n cond body n s = Ok (Break s') ->
  while_ cond body s = Ok s'.
Proof.
  intros Hn Hr. unfold while_. rewrite iter_pow2_iter_n.
  rewrite (iter_n_settled n), Hr; [reflexivity| now rewrite Hr |].
  apply Nat2Z.inj_le. rewrite Nat2Z.inj_pow. exact Hn.
Qed.

(** A loop that runs into undefined behaviour within [n] iterations. *)
Lemma while_UB (n : nat) (s : S) (why : undefined) :
  Z.of_nat n <= 2 ^ 64 ->
  iter_n cond body n s = UB why ->
  while_ cond body s = UB why.
Proof.
  intros Hn Hr. unfold while_. rewrite iter_pow2_iter_n.
  rewrite (iter_n_settled n), Hr; [reflexivity| now rewrite Hr |].
  apply Nat2Z.inj_le. rewrite Nat2Z.inj_pow. exact Hn.
Qed.

Lemma iter_n_S_Continue (n : nat) (s s' : S) :
  cond s = Ok true -> body s = Ok s' ->
  iter_n cond body (Datatypes.S n) s = iter_n cond body n s'.
Proof. intros Hc Hb. simpl. unfold loop_step. rewrite Hc. simpl. now rewrite Hb. Qed.

Lemma iter_n_S_Break (n : nat) (s : S) :
  cond s = Ok false ->
  iter_n cond body (Datatypes.S n) s = Ok (Break s).
Proof. intros Hc. simpl. unfold loop_step. now rewrite Hc. Qed.
End LoopFacts.

Lemma for_each_app {S : Type} (body : Z -> S -> result S) (l1 l2 : list Z) (s : S) :
  for_each body (l1 ++ l2) s =
  let* s' := for_each body l1 s in for_each body l2 s'.
Proof.
  revert s. induction l1 as [|i l1 IH]; intros s; simpl; [reflexivity|].
  destruct (body i s); simpl; auto.
Qed.

(** Splitting off the last iteration of a counted loop. *)
Lemma for_snoc {S : Type} (body : Z -> S -> result S) (lo hi : Z) (s : S) :
  lo <= hi ->
  for_ lo (hi + 1) body s =
  let* s' := for_ lo hi body s in body hi s'.
Proof.
  intros Hle. unfold for_.
  replace (hi + 1 - lo) with ((hi - lo) + 1) by lia.
  rewrite seqZ_app by lia. rewrite for_each_app.
  replace (lo + (hi - lo)) with hi by lia.
  rewrite (seqZ_cons hi 1), (seqZ_nil (Z.succ hi)) by lia.
  destruct (for_each body (seqZ lo (hi - lo)) s) as [s'| |]; simpl; auto.
  destruct (body hi s'); reflexivity.
Qed.

Lemma for_nil {S : Type} (body : Z -> S -> result S) (lo hi : Z) (s : S) :
  hi <= lo -> for_ lo hi body s = Ok s.
Proof.
  intros Hle. unfold for_. rewrite seqZ_nil by lia. reflexivity.
Qed.

(** * The word functions *)

Lemma word_to_uint (z : Z) : word (to_uint z).
Proof. unfold word, to_uint. apply Z.mod_pos_bound. lia. Qed.

Lemma to_uint_word (x : Z) : word x -> to_uint x = x.
Proof. unfold word, to_uint. intros H. now apply Z.mod_small. Qed.

Lemma word_testbit_high (x i : Z) : word x -> 32 <= i -> Z.testbit x i = false.
Proof.
  intros Hx Hi. rewrite <- (to_uint_word x Hx). unfold to_uint.
  apply Z.mod_pow2_bits_high. lia.
Qed.

Lemma word_of_bits (x : Z) :
  0 <= x -> (forall i, 32 <= i -> Z.testbit x i = false) -> word x.
Proof.
  intros H0 Hb. split; [exact H0|].
  destruct (Z.eq_dec x 0) as [->|Hne]; [lia|].
  assert (Hl : Z.log2 x < 32).
  { destruct (Z.lt_ge_cases (Z.log2 x) 32) as [|Hge]; [assumption|].
    specialize (Hb _ Hge). rewrite Z.bit_log2 in Hb by lia. discriminate. }
  apply Z.log2_lt_pow2; lia.
Qed.

Lemma word_lor (x y : Z) : word x -> word y -> word (Z.lor x y).
Proof.
  intros Hx Hy. apply word_of_bits.
  - apply Z.lor_nonneg. unfold word in *. lia.
  - intros i Hi. rewrite Z.lor_spec, !word_testbit_high by assumption. reflexivity.
Qed.

Lemma word_lxor (x y : Z) : word x -> word y -> word (Z.lxor x y).
Proof.
  intros Hx Hy. apply word_of_bits.
  - apply Z.lxor_nonneg. unfold word in *. lia.
  - intros i Hi. rewrite Z.lxor_spec, !word_testbit_high by assumption. reflexivity.
Qed.

Lemma word_land (x y : Z) : word x -> word y -> word (Z.land x y).
Proof.
  intros Hx Hy. apply word_of_bits.
  - apply Z.land_nonneg. unfold word in *. lia.
  - intros i Hi. rewrite Z.land_spec, !word_testbit_high by assumption. reflexivity.
Qed.

Lemma word_shiftr (x n : Z) : word x -> 0 <= n -> word (Z.shiftr x n).
Proof.
  intros Hx Hn. apply word_of_bits.
  - apply Z.shiftr_nonneg. unfold word in *. lia.
  - intros i Hi. rewrite Z.shiftr_spec by lia. apply word_testbit_high; [assumption|lia].
Qed.

Lemma not_uint_word (x : Z) : word x -> not_uint x = 2 ^ 32 - 1 - x.
Proof.
  unfold word, not_uint, to_uint, Z.lnot. intros Hx.
  symmetry. apply (Z.mod_unique_pos _ _ (-1)); lia.
Qed.

Lemma SHR_spec (n x : Z) : 0 <= n < 32 -> SHR n x = Ok (Spec.SHR n x).
Proof.
  intros Hn. unfold SHR, shr_uint, shift_ok, Spec.SHR, Spec.shr.
  destruct (Z.leb_spec 0 n); [|lia]. destruct (Z.ltb_spec n 32); [|lia].
  simpl. now rewrite Z.shiftr_div_pow2 by lia.
Qed.

Lemma ROTR_spec (n x : Z) : 0 < n < 32 -> ROTR n x = Ok (Spec.ROTR n x).
Proof.
  intros Hn. unfold ROTR, shr_uint, shl_uint, shift_ok, Spec.ROTR, Spec.shr, Spec.shl.
  assert (Hs : sub_uint 32 n = 32 - n).
  { unfold sub_uint, to_uint. apply Z.mod_small. lia. }
  rewrite Hs.
  destruct (Z.leb_spec 0 n); [|lia]. destruct (Z.ltb_spec n 32); [|lia].
  destruct (Z.leb_spec 0 (32 - n)); [|lia]. destruct (Z.ltb_spec (32 - n) 32); [|lia].
  simpl. unfold to_uint.
  now rewrite Z.shiftr_div_pow2, Z.shiftl_mul_pow2 by lia.
Qed.

Lemma word_Spec_ROTR (n x : Z) : word x -> 0 <= n -> word (Spec.ROTR n x).
Proof.
  intros Hx Hn. unfold Spec.ROTR. apply word_lor.
  - unfold Spec.shr. rewrite <- Z.shiftr_div_pow2 by lia. now apply word_shiftr.
  - apply word_to_uint.
Qed.

Lemma Spec_ROTR_bits (n x i : Z) :
  word x -> 0 < n < 32 -> 0 <= i < 32 ->
  Z.testbit (Spec.ROTR n x) i = Z.testbit x ((i + n) `mod` 32).
Proof.
  intros Hx Hn Hi. unfold Spec.ROTR, Spec.shr, Spec.shl.
  rewrite Z.lor_spec, <- Z.shiftr_div_pow2, <- Z.shiftl_mul_pow2 by lia.
  rewrite Z.shiftr_spec by lia.
  rewrite Z.mod_pow2_bits_low by lia.
  destruct (Z.lt_ge_cases (i + n) 32) as [Hlt|Hge].
  - rewrite Z.mod_small by lia.
    rewrite Z.shiftl_spec by lia.
    rewrite (Z.testbit_neg_r x (i - (32 - n))) by lia.
    apply orb_false_r.
  - rewrite (word_testbit_high x (i + n)) by assumption.
    rewrite Z.shiftl_spec by lia. simpl.
    f_equal. apply (Z.mod_unique_pos _ _ 1); lia.
Qed.

Lemma capitalSigma_0_Ok x : capitalSigma_0 x = Ok (Spec.Sigma0 x).
Proof.
  unfold capitalSigma_0, capitalSigma_0_with.
  rewrite (ROTR_spec 2), (ROTR_spec 13), (ROTR_spec 22) by lia. reflexivity.
Qed.

Lemma capitalSigma_1_Ok x : capitalSigma_1 x = Ok (Spec.Sigma1 x).
Proof.
  unfold capitalSigma_1, capitalSigma_1_with.
  rewrite (ROTR_spec 6), (ROTR_spec 11), (ROTR_spec 25) by lia. reflexivity.
Qed.

Lemma lowercaseSigma0_Ok x : lowercaseSigma0 x = Ok (Spec.sigma0 x).
Proof.
  unfold lowercaseSigma0, lowercaseSigma0_with.
  rewrite (ROTR_spec 7), (ROTR_spec 18), (SHR_spec 3) by lia. reflexivity.
Qed.

Lemma lowercaseSigma1_Ok x : lowercaseSigma1 x = Ok (Spec.sigma1 x).
Proof.
  unfold lowercaseSigma1, lowercaseSigma1_with.
  rewrite (ROTR_spec 17), (ROTR_spec 19), (SHR_spec 10) by lia. reflexivity.
Qed.

Lemma Ch_spec (x y z : Z) : word x -> Ch x y z = Spec.Ch x y z.
Proof. intros Hx. unfold Ch, Spec.Ch, Spec.compl. now rewrite not_uint_word. Qed.

Lemma sigma_with_ext (rotr rotr' shr : Z -> Z -> result Z) (x : Z) :
  (forall n, n ∈ rotation_amounts -> rotr n x = rotr' n x) ->
  capitalSigma_0_with rotr x = capitalSigma_0_with rotr' x /\
  capitalSigma_1_with rotr x = capitalSigma_1_with rotr' x /\
  lowercaseSigma0_with rotr shr x = lowercaseSigma0_with rotr' shr x /\
  lowercaseSigma1_with rotr shr x = lowercaseSigma1_with rotr' shr x.
Proof.
  intros H.
  unfold capitalSigma_0_with, capitalSigma_1_with, lowercaseSigma0_with,
    lowercaseSigma1_with, rotation_amounts in *.
  rewrite !H by (apply list_elem_of_In; simpl; auto 20). repeat split.
Qed.

Lemma rotation_amounts_in_range :
  Forall (fun n => 0 < n < 32 /\ shift_ok n = true /\ shift_ok (sub_uint 32 n) = true)
    rotation_amounts.
Proof. unfold rotation_amounts. repeat (apply Forall_cons; split; [split; [lia|split; reflexivity]|]). constructor. Qed.

(** * The constants *)

Lemma is_prime_correct (p : Z) : is_prime p = true <-> prime_number p.
Proof.
  unfold is_prime, prime_number.
  rewrite andb_true_iff, Z.leb_le, forallb_forall.
  split; intros [H2 Hd]; (split; [exact H2|]).
  - intros d Hr. specialize (Hd d).
    rewrite negb_true_iff, Z.eqb_neq in Hd. apply Hd.
    apply list_elem_of_In, elem_of_seqZ. lia.
  - intros d Hin. apply list_elem_of_In, elem_of_seqZ in Hin.
    rewrite negb_true_iff, Z.eqb_neq. apply Hd. lia.
Qed.

Lemma check_root_bits_sound (e p k : Z) :
  check_root_bits e p k = true -> frac_root_bits e p k.
Proof.
  unfold check_root_bits, frac_root_bits.
  rewrite !andb_true_iff, !Z.leb_le, !Z.ltb_lt.
  intros ((((Hk0 & Hk1) & Hc) & Hlo) & Hhi).
  exists (small_root e p * 2 ^ 32 + k). repeat split; try assumption.
  - lia.
  - rewrite Z.add_comm, Z.mod_add by lia. symmetry. apply Z.mod_small. lia.
Qed.

Lemma Forall2_check_root_bits (e : Z) (ps ks : list Z) :
  length ps = length ks ->
  forallb (fun pk => check_root_bits e (fst pk) (snd pk)) (zip ps ks) = true ->
  Forall2 (frac_root_bits e) ps ks.
Proof.
  revert ks. induction ps as [|p ps IH]; intros [|k ks]; simpl; try discriminate.
  - constructor.
  - intros Hlen H. apply andb_true_iff in H as [H1 H2]. constructor.
    + now apply check_root_bits_sound.
    + apply IH; [lia | exact H2].
Qed.

(** C5: the initial hash value is the eight words of the specification,
    and [K] holds, for each of the 64 primes up to 311 in increasing
    order, the first 32 bits of the fractional part of its cube root
    (the round constants of FIPS 180-4). The initial hash value is,
    likewise, made of the square roots of the first eight primes. *)
Theorem constants_are_normative :
  H0 = [ 0x6a09e667; 0xbb67ae85; 0x3c6ef372; 0xa54ff53a;
         0x510e527f; 0x9b05688c; 0x1f83d9ab; 0x5be0cd19 ] /\
  length K = 64%nat /\
  (forall p, is_prime p = true <-> prime_number p) /\
  length (primes_upto 311) = 64%nat /\
  Forall2 (frac_root_bits 3) (primes_upto 311) K /\
  Forall2 (frac_root_bits 2) (take 8 (primes_upto 311)) H0.
Proof.
  split; [reflexivity|]. split; [reflexivity|].
  split; [exact is_prime_correct|].
  split; [vm_compute; reflexivity|].
  split; apply Forall2_check_root_bits; vm_compute; reflexivity.
Qed.

(** * Bytes *)

Lemma byte_val_range (b : byte) : 0 <= byte_val b < 256.
Proof.
  unfold byte_val. pose proof (Byte.to_N_bounded b) as H. lia.
Qed.

Lemma byte_val_of (z : Z) : byte_val (byte_of z) = z `mod` 256.
Proof.
  unfold byte_of, byte_val, to_uchar. change (2 ^ 8) with 256.
  pose proof (Z.mod_pos_bound z 256 ltac:(lia)) as Hr.
  destruct (Byte.of_N (Z.to_N (z `mod` 256))) as [b|] eqn:E.
  - apply Byte.to_of_N in E. rewrite E. lia.
  - apply Byte.of_N_None_iff in E. lia.
Qed.

Lemma byte_of_val (b : byte) : byte_of (byte_val b) = b.
Proof.
  unfold byte_of, byte_val, to_uchar. change (2 ^ 8) with 256.
  pose proof (Byte.to_N_bounded b) as H.
  rewrite Z.mod_small by lia. rewrite N2Z.id, Byte.of_to_N. reflexivity.
Qed.

(** * The padder *)

Section GetPadding.
Variable L : Z.
Hypothesis L_nonneg : 0 <= L.
Hypothesis L_fits : L + 65 <= 2 ^ 63.

Let cond := getPadding_cond L.
Let body := getPadding_body.

Lemma zero_bits_range : 0 <= zero_bits L < 512.
Proof. unfold zero_bits. apply Z.mod_pos_bound. lia. Qed.

Lemma zero_bits_hits : (L + 1 + zero_bits L) `mod` 512 = 448.
Proof.
  unfold zero_bits.
  rewrite Zplus_mod_idemp_r. replace (L + 1 + (447 - L)) with 448 by lia.
  reflexivity.
Qed.

Lemma zero_bits_least (k : Z) :
  0 <= k -> (L + 1 + k) `mod` 512 = 448 -> zero_bits L <= k.
Proof.
  intros Hk Hm. pose proof zero_bits_range as Hr.
  pose proof zero_bits_hits as Hh.
  assert (D : (k - zero_bits L) `mod` 512 = 0).
  { replace (k - zero_bits L) with ((L + 1 + k) - (L + 1 + zero_bits L)) by lia.
    rewrite Zminus_mod, Hm, Hh. reflexivity. }
  apply Z.mod_divide in D; [|lia]. destruct D as [q Hq]. lia.
Qed.

Lemma zero_bits_no_overflow : L + 1 + zero_bits L <= LLONG_MAX.
Proof.
  pose proof zero_bits_range as Hr. pose proof zero_bits_hits as Hh.
  unfold LLONG_MAX.
  assert (D : (2 ^ 63 - 64 - (L + 1 + zero_bits L)) `mod` 512 = 0).
  { rewrite Zminus_mod, Hh. reflexivity. }
  apply Z.mod_divide in D; [|lia]. destruct D as [q Hq]. lia.
Qed.

Lemma cond_value (k : Z) :
  0 <= k <= zero_bits L ->
  cond k = Ok (negb ((L + 1 + k) `mod` 512 =? 448)).
Proof.
  intros Hk. pose proof zero_bits_no_overflow as Ho.
  unfold cond, getPadding_cond, llong_of, LLONG_MIN, LLONG_MAX in *.
  destruct (Z.leb_spec (- 2 ^ 63) (L + 1)); [|lia].
  destruct (Z.leb_spec (L + 1) (2 ^ 63 - 1)); [|lia]. simpl.
  destruct (Z.leb_spec (- 2 ^ 63) (L + 1 + k)); [|lia].
  destruct (Z.leb_spec (L + 1 + k) (2 ^ 63 - 1)); [|lia]. simpl.
  rewrite Z.rem_mod_nonneg by lia. reflexivity.
Qed.

Lemma getPadding_iterations (j : nat) :
  Z.of_nat j <= zero_bits L ->
  iter_n cond body (Datatypes.S j) (zero_bits L - Z.of_nat j) = Ok (Break (zero_bits L)).
Proof.
  pose proof zero_bits_range as Hr.
  induction j as [|j IH]; intros Hj.
  - replace (zero_bits L - Z.of_nat 0) with (zero_bits L) by lia.
    apply iter_n_S_Break. rewrite cond_value by lia.
    rewrite zero_bits_hits. reflexivity.
  - rewrite (iter_n_S_Continue _ _ _ _ (zero_bits L - Z.of_nat j)).
    + apply IH. lia.
    + rewrite cond_value by lia.
      destruct (Z.eqb_spec ((L + 1 + (zero_bits L - Z.of_nat (Datatypes.S j))) `mod` 512) 448)
        as [E|E]; [|reflexivity].
      apply zero_bits_least in E; lia.
    + unfold body, getPadding_body, int_of, INT_MIN, INT_MAX.
      replace (zero_bits L - Z.of_nat (Datatypes.S j) + 1) with (zero_bits L - Z.of_nat j) by lia.
      destruct (Z.leb_spec (- 2 ^ 31) (zero_bits L - Z.of_nat j)); [|lia].
      destruct (Z.leb_spec (zero_bits L - Z.of_nat j) (2 ^ 31 - 1)); [|lia].
      reflexivity.
Qed.

Lemma getPadding_value : getPadding L = Ok (zero_bits L).
Proof.
  pose proof zero_bits_range as Hr.
  unfold getPadding.
  apply (while_Break _ _ (Datatypes.S (Z.to_nat (zero_bits L)))); [lia|].
  pose proof (getPadding_iterations (Z.to_nat (zero_bits L))) as H.
  rewrite Z2Nat.id in H by lia. replace (zero_bits L - zero_bits L) with 0 in H by lia.
  apply H. lia.
Qed.

Lemma zero_bits_aligned :
  L `mod` 8 = 0 -> 7 <= zero_bits L /\ zero_bits L `mod` 8 = 7.
Proof.
  intros Ha. pose proof zero_bits_range as Hr. pose proof zero_bits_hits as Hh.
  assert (E : zero_bits L `mod` 8 = 7).
  { apply Z.mod_divide in Ha; [|lia]. destruct Ha as [q Hq].
    assert (D : (L + 1 + zero_bits L - 448) `mod` 512 = 0).
    { rewrite Zminus_mod, Hh. reflexivity. }
    apply Z.mod_divide in D; [|lia]. destruct D as [q' Hq'].
    symmetry. apply (Z.mod_unique_pos _ _ (64 * q' - q + 55)); lia. }
  split; [|exact E].
  pose proof (Z.mod_le (zero_bits L) 8 ltac:(lia) ltac:(lia)). lia.
Qed.
End GetPadding.

Lemma for_each_push {A : Type} (b : A) (l : list Z) (M : list A) :
  for_each (fun _ M => Ok (push_back M b)) l M = Ok (M ++ replicate (length l) b).
Proof.
  revert M. induction l as [|i l IH]; intros M; simpl.
  - now rewrite app_nil_r.
  - rewrite IH. unfold push_back. rewrite <- app_assoc. reflexivity.
Qed.

Lemma for_push {A : Type} (b : A) (lo hi : Z) (M : list A) :
  for_ lo hi (fun _ M => Ok (push_back M b)) M =
  Ok (M ++ replicate (Z.to_nat (hi - lo)) b).
Proof. unfold for_. now rewrite for_each_push, length_seqZ. Qed.

(** The eight bytes that the last loop of [paddingMessage] appends. *)
Lemma length_field_value (l : Z) :
  0 <= l < 2 ^ 64 ->
  be_value
    [ byte_of (Z.shiftr l (64 - 1 * 8)); byte_of (Z.shiftr l (64 - 2 * 8));
      byte_of (Z.shiftr l (64 - 3 * 8)); byte_of (Z.shiftr l (64 - 4 * 8));
      byte_of (Z.shiftr l (64 - 5 * 8)); byte_of (Z.shiftr l (64 - 6 * 8));
      byte_of (Z.shiftr l (64 - 7 * 8)); byte_of (Z.shiftr l (64 - 8 * 8)) ] = l.
Proof.
  intros Hl. unfold be_value. simpl fold_left.
  rewrite !byte_val_of, !Z.shiftr_div_pow2 by lia.
  change (64 - 1 * 8) with 56. change (64 - 2 * 8) with 48.
  change (64 - 3 * 8) with 40. change (64 - 4 * 8) with 32.
  change (64 - 5 * 8) with 24. change (64 - 6 * 8) with 16.
  change (64 - 7 * 8) with 8. change (64 - 8 * 8) with 0.
  change (2 ^ 0) with 1. rewrite Z.div_1_r.
  assert (S : forall m, 0 <= m ->
            l `div` 2 ^ m = 256 * (l `div` 2 ^ (m + 8)) + (l `div` 2 ^ m) `mod` 256).
  { intros m Hm. rewrite Z.pow_add_r, <- Z.div_div by lia.
    change (2 ^ 8) with 256. apply Z.div_mod. lia. }
  pose proof (S 48 ltac:(lia)) as S48. pose proof (S 40 ltac:(lia)) as S40.
  pose proof (S 32 ltac:(lia)) as S32. pose proof (S 24 ltac:(lia)) as S24.
  pose proof (S 16 ltac:(lia)) as S16. pose proof (S 8 ltac:(lia)) as S8.
  pose proof (S 0 ltac:(lia)) as S0.
  change (2 ^ 0) with 1 in S0. rewrite Z.div_1_r in S0.
  change (48 + 8) with 56 in S48. change (40 + 8) with 48 in S40.
  change (32 + 8) with 40 in S32. change (24 + 8) with 32 in S24.
  change (16 + 8) with 24 in S16. change (8 + 8) with 16 in S8.
  change (0 + 8) with 8 in S0.
  assert (T : (l `div` 2 ^ 56) `mod` 256 = l `div` 2 ^ 56).
  { apply Z.mod_small. split; [apply Z.div_pos; lia|].
    apply Z.div_lt_upper_bound; lia. }
  rewrite T. lia.
Qed.

Lemma to_llong_small (z : Z) : 0 <= z < 2 ^ 63 -> to_llong (to_size_t z) = z.
Proof.
  intros Hz. unfold to_llong, to_size_t.
  rewrite (Z.mod_small z) by lia. rewrite Z.mod_small by lia. lia.
Qed.

Lemma int_of_fits (z : Z) : INT_MIN <= z <= INT_MAX -> int_of z = Ok z.
Proof.
  intros Hz. unfold int_of.
  destruct (Z.leb_spec INT_MIN z); [|lia]. destruct (Z.leb_spec z INT_MAX); [|lia].
  reflexivity.
Qed.

Lemma int_of_overflow (z : Z) : INT_MAX < z -> int_of z = UB signed_overflow.
Proof.
  intros Hz. unfold int_of.
  destruct (Z.leb_spec z INT_MAX); [lia|]. now rewrite andb_false_r.
Qed.

Lemma size_app {A : Type} (u v : list A) : size (u ++ v) = size u + size v.
Proof. unfold size. rewrite length_app. lia. Qed.

(** What [paddingMessage] returns on a message whose padded length in
    bits fits a [long long]. *)
Lemma paddingMessage_value (M : list byte) :
  8 * size M + 65 <= 2 ^ 63 ->
  let L := 8 * size M in
  paddingMessage M =
  Ok (M ++ [x80] ++ replicate (Z.to_nat ((zero_bits L - 7) `div` 8)) x00 ++
      [ byte_of (Z.shiftr L (64 - 1 * 8)); byte_of (Z.shiftr L (64 - 2 * 8));
        byte_of (Z.shiftr L (64 - 3 * 8)); byte_of (Z.shiftr L (64 - 4 * 8));
        byte_of (Z.shiftr L (64 - 5 * 8)); byte_of (Z.shiftr L (64 - 6 * 8));
        byte_of (Z.shiftr L (64 - 7 * 8)); byte_of (Z.shiftr L (64 - 8 * 8)) ]).
Proof.
  intros Hfit L.
  assert (Hn : 0 <= size M) by (unfold size; lia).
  assert (HL : 0 <= L) by (unfold L; lia).
  pose proof (zero_bits_range L) as Hr.
  destruct (zero_bits_aligned L) as [H7 Hm8].
  { unfold L. rewrite Z.mul_comm. apply Z.mod_mul. lia. }
  unfold paddingMessage.
  replace (size M * 8) with L by (unfold L; lia).
  rewrite to_llong_small by lia.
  rewrite getPadding_value by (unfold L; lia). cbn [bind].
  rewrite int_of_fits by (unfold INT_MIN, INT_MAX; lia). cbn [bind].
  rewrite Z.quot_div_nonneg by lia.
  rewrite for_push. cbn [bind].
  unfold for_. change (seqZ 1 (9 - 1)) with [1; 2; 3; 4; 5; 6; 7; 8].
  cbn [for_each bind]. unfold push_back.
  rewrite Z.sub_0_r. change (byte_of 128) with x80. change (byte_of 0) with x00.
  rewrite <- !app_assoc. reflexivity.
Qed.

(** C10, amended: for every bit length [L] with [0 <= L] and
    [L + 65 <= 2 ^ 63] the loop of [getPadding] terminates and returns
    the least [k >= 0] with [(L + 1 + k) mod 512 = 448], so [k < 512];
    when [L] is a multiple of 8, [k >= 7] and [k] is 7 modulo 8, so
    [k - 7] is non-negative and [(k - 7) / 8] is exact. *)
Theorem getPadding_least (L : Z) :
  0 <= L -> L + 65 <= 2 ^ 63 ->
  exists k,
    getPadding L = Ok k /\
    0 <= k < 512 /\
    (L + 1 + k) `mod` 512 = 448 /\
    (forall k', 0 <= k' -> (L + 1 + k') `mod` 512 = 448 -> k <= k') /\
    (L `mod` 8 = 0 ->
     7 <= k /\ k `mod` 8 = 7 /\ 0 <= k - 7 /\
     Z.rem (k - 7) 8 = 0 /\ 8 * Z.quot (k - 7) 8 = k - 7).
Proof.
  intros HL Hfit. exists (zero_bits L).
  split; [now apply getPadding_value|].
  split; [apply zero_bits_range|].
  split; [apply zero_bits_hits|].
  split; [apply zero_bits_least|].
  intros Ha. destruct (zero_bits_aligned L Ha) as [H7 Hm].
  assert (Hr : Z.rem (zero_bits L - 7) 8 = 0).
  { rewrite Z.rem_mod_nonneg by lia.
    rewrite Zminus_mod, Hm. reflexivity. }
  repeat split; try assumption; try lia.
  pose proof (Z.quot_rem' (zero_bits L - 7) 8). lia.
Qed.

Lemma getPadding_least_witness :
  0 <= 24 /\ 24 + 65 <= 2 ^ 63 /\
  exists k,
    getPadding 24 = Ok k /\
    0 <= k < 512 /\
    (24 + 1 + k) `mod` 512 = 448 /\
    (forall k', 0 <= k' -> (24 + 1 + k') `mod` 512 = 448 -> k <= k') /\
    (24 `mod` 8 = 0 ->
     7 <= k /\ k `mod` 8 = 7 /\ 0 <= k - 7 /\
     Z.rem (k - 7) 8 = 0 /\ 8 * Z.quot (k - 7) 8 = k - 7).
Proof.
  split; [lia|]. split; [lia|]. apply (getPadding_least 24); lia.
Defined.

(** C10 as stated fails: the bit length of a message of [2 ^ 60 - 1]
    bytes is a non-negative [long long], and on it the sum
    [length + 1 + k] overflows at [k = 7], before any [k] is returned. *)
Lemma getPadding_not_total :
  0 <= 2 ^ 63 - 8 /\ (2 ^ 63 - 8) `mod` 8 = 0 /\
  getPadding (2 ^ 63 - 8) = UB signed_overflow /\
  ~ exists k, getPadding (2 ^ 63 - 8) = Ok k.
Proof.
  assert (E : getPadding (2 ^ 63 - 8) = UB signed_overflow) by (vm_compute; reflexivity).
  split; [lia|]. split; [reflexivity|]. split; [exact E|].
  intros [k Hk]. rewrite E in Hk. discriminate.
Qed.

(** C3, amended: for every byte sequence of bit length [L] with
    [L + 65 <= 2 ^ 63], [paddingMessage] returns the original bytes, then
    the byte 0x80, then the least number of zero bytes that brings the
    length without the final field to 448 modulo 512 bits, then [L] as a
    64-bit big-endian integer; the bit length of the result is the least
    multiple of 512 that is at least [L + 1 + 64]. *)
Theorem paddingMessage_layout (M : list byte) :
  8 * size M + 65 <= 2 ^ 63 ->
  exists (z : nat) (field padded : list byte),
    paddingMessage M = Ok padded /\
    padded = M ++ [x80] ++ replicate z x00 ++ field /\
    (8 * (size M + 1 + Z.of_nat z)) `mod` 512 = 448 /\
    (forall z' : nat,
        (8 * (size M + 1 + Z.of_nat z')) `mod` 512 = 448 -> (z <= z')%nat) /\
    length field = 8%nat /\
    be_value field = 8 * size M /\
    (8 * size padded) `mod` 512 = 0 /\
    8 * size M + 65 <= 8 * size padded /\
    (forall P, P `mod` 512 = 0 -> 8 * size M + 1 + 64 <= P -> 8 * size padded <= P).
Proof.
  intros Hfit. pose proof (paddingMessage_value M Hfit) as Hv. cbv zeta in Hv.
  set (L := 8 * size M) in *.
  assert (Hn : 0 <= size M) by (unfold size; lia).
  assert (HL : 0 <= L) by (unfold L in *; lia).
  pose proof (zero_bits_range L) as Hr.
  pose proof (zero_bits_hits L) as Hh.
  destruct (zero_bits_aligned L) as [H7 Hm8].
  { unfold L. rewrite Z.mul_comm. apply Z.mod_mul. lia. }
  assert (Hq : 8 * ((zero_bits L - 7) `div` 8) = zero_bits L - 7).
  { pose proof (Z.div_mod (zero_bits L - 7) 8 ltac:(lia)) as Hd.
    rewrite (Zminus_mod (zero_bits L)), Hm8 in Hd. change ((7 - 7 `mod` 8) `mod` 8) with 0 in Hd.
    lia. }
  assert (Hq0 : 0 <= (zero_bits L - 7) `div` 8) by (apply Z.div_pos; lia).
  eexists _, _, _. split; [exact Hv|]. split; [reflexivity|].
  assert (Hsz : 8 * size (M ++ [x80] ++ replicate (Z.to_nat ((zero_bits L - 7) `div` 8)) x00 ++
      [ byte_of (Z.shiftr L (64 - 1 * 8)); byte_of (Z.shiftr L (64 - 2 * 8));
        byte_of (Z.shiftr L (64 - 3 * 8)); byte_of (Z.shiftr L (64 - 4 * 8));
        byte_of (Z.shiftr L (64 - 5 * 8)); byte_of (Z.shiftr L (64 - 6 * 8));
        byte_of (Z.shiftr L (64 - 7 * 8)); byte_of (Z.shiftr L (64 - 8 * 8)) ])
      = L + 1 + zero_bits L + 64).
  { rewrite !size_app. unfold size at 2 3 4. rewrite length_replicate.
    cbn [length]. rewrite Z2Nat.id by lia. fold L. lia. }
  rewrite Hsz. rewrite Z2Nat.id by lia.
  split.
  { replace (8 * (size M + 1 + (zero_bits L - 7) `div` 8)) with (L + 1 + zero_bits L)
      by (unfold L in *; lia). exact Hh. }
  split.
  { intros z' Hz'.
    assert (zero_bits L <= 8 * Z.of_nat z' + 7); [|lia].
    apply zero_bits_least; [lia|].
    replace (L + 1 + (8 * Z.of_nat z' + 7)) with (8 * (size M + 1 + Z.of_nat z'))
      by (unfold L in *; lia). exact Hz'. }
  split; [reflexivity|].
  split; [apply length_field_value; lia|].
  split.
  { rewrite Zplus_mod, Hh. reflexivity. }
  split; [lia|].
  intros P HP Hle.
  assert (zero_bits L <= P - 64 - L - 1); [|lia].
  apply zero_bits_least; [lia|].
  replace (L + 1 + (P - 64 - L - 1)) with (P - 64) by lia.
  rewrite Zminus_mod, HP. reflexivity.
Qed.

Lemma paddingMessage_layout_witness :
  8 * size [x61; x62; x63] + 65 <= 2 ^ 63 /\
  exists (z : nat) (field padded : list byte),
    paddingMessage [x61; x62; x63] = Ok padded /\
    padded = [x61; x62; x63] ++ [x80] ++ replicate z x00 ++ field /\
    (8 * (size [x61; x62; x63] + 1 + Z.of_nat z)) `mod` 512 = 448 /\
    (forall z' : nat,
        (8 * (size [x61; x62; x63] + 1 + Z.of_nat z')) `mod` 512 = 448 -> (z <= z')%nat) /\
    length field = 8%nat /\
    be_value field = 8 * size [x61; x62; x63] /\
    (8 * size padded) `mod` 512 = 0 /\
    8 * size [x61; x62; x63] + 65 <= 8 * size padded /\
    (forall P, P `mod` 512 = 0 -> 8 * size [x61; x62; x63] + 1 + 64 <= P ->
               8 * size padded <= P).
Proof.
  assert (H : 8 * size [x61; x62; x63] + 65 <= 2 ^ 63) by (vm_compute; discriminate).
  split; [exact H|]. exact (paddingMessage_layout [x61; x62; x63] H).
Defined.

Lemma size_replicate {A : Type} (n : Z) (x : A) :
  0 <= n -> size (replicate (Z.to_nat n) x) = n.
Proof. intros Hn. unfold size. rewrite length_replicate. now apply Z2Nat.id. Qed.

(** C3 as stated fails: a message of [2 ^ 60 - 1] bytes has a bit length
    [L = 2 ^ 63 - 8 < 2 ^ 64], and [paddingMessage] returns nothing on
    it: the sum in [getPadding] overflows [long long]. *)
Lemma paddingMessage_not_total :
  8 * size (replicate (Z.to_nat (2 ^ 60 - 1)) x00) < 2 ^ 64 /\
  paddingMessage (replicate (Z.to_nat (2 ^ 60 - 1)) x00) = UB signed_overflow.
Proof.
  assert (Hs : size (replicate (Z.to_nat (2 ^ 60 - 1)) x00) = 2 ^ 60 - 1)
    by (apply size_replicate; lia).
  split; [rewrite Hs; lia|].
  unfold paddingMessage. rewrite Hs.
  assert (E : getPadding (to_llong (to_size_t ((2 ^ 60 - 1) * 8))) = UB signed_overflow)
    by (vm_compute; reflexivity).
  rewrite E. reflexivity.
Qed.

(** * Vectors *)

Lemma at_lookup {A : Type} (v : list A) (i : Z) (x : A) :
  0 <= i < 2 ^ 64 -> v !! Z.to_nat i = Some x -> at_ v i = Ok x.
Proof.
  intros Hi Hx. unfold at_, to_size_t. rewrite Z.mod_small by lia.
  now rewrite Hx.
Qed.

Lemma set_insert {A : Type} (v : list A) (i : Z) (x : A) :
  0 <= i < size v -> i < 2 ^ 64 ->
  set_ v i x = Ok (<[Z.to_nat i := x]> v).
Proof.
  intros Hi Hb. unfold set_, to_size_t. rewrite Z.mod_small by lia.
  destruct (Z.ltb_spec i (size v)); [reflexivity|lia].
Qed.

(** * The block parser *)

Lemma shift_in_byte (w v : Z) :
  0 <= w < 2 ^ 24 -> 0 <= v < 256 ->
  Z.lor (to_uint (Z.shiftl w 8)) v = w * 256 + v.
Proof.
  intros Hw Hv. unfold to_uint.
  rewrite Z.shiftl_mul_pow2 by lia. change (2 ^ 8) with 256.
  rewrite Z.mod_small by lia.
  assert (Hd : Z.land (w * 256) v = 0).
  { apply Z.bits_inj'. intros n Hn. rewrite Z.land_spec, Z.bits_0.
    destruct (Z.lt_ge_cases n 8) as [Hlt|Hge].
    - change 256 with (2 ^ 8). rewrite Z.mul_pow2_bits_low by lia. reflexivity.
    - replace v with (v `mod` 2 ^ 8) by (apply Z.mod_small; lia).
      rewrite Z.mod_pow2_bits_high by lia. apply andb_false_r. }
  rewrite <- Z.lxor_lor by exact Hd. symmetry. now apply Z.add_nocarry_lxor.
Qed.

Lemma byte_at_lookup (bytes : list byte) (p : nat) (b : byte) :
  bytes !! p = Some b -> byte_at bytes p = byte_val b.
Proof. intros H. unfold byte_at. now rewrite H. Qed.

Lemma parse_word_body_value (bytes : list byte) (k w i : Z) (b : byte) :
  0 <= i -> i + 1 <= INT_MAX -> bytes !! Z.to_nat i = Some b ->
  parse_word_body bytes k (w, i) =
  Ok (Z.lor (to_uint (Z.shiftl w 8)) (byte_val b), i + 1).
Proof.
  intros Hi Hmax Hb. unfold parse_word_body.
  unfold shl_uint. change (shift_ok 8) with true. cbn [bind].
  rewrite (at_lookup bytes i b) by (unfold INT_MAX in *; lia || assumption).
  cbn [bind]. rewrite int_of_fits by (unfold INT_MIN, INT_MAX in *; lia).
  reflexivity.
Qed.

Lemma parse_word_body_overflow (bytes : list byte) (k w i : Z) (b : byte) :
  i = INT_MAX -> bytes !! Z.to_nat i = Some b ->
  parse_word_body bytes k (w, i) = UB signed_overflow.
Proof.
  intros Hi Hb. unfold parse_word_body.
  unfold shl_uint. change (shift_ok 8) with true. cbn [bind].
  rewrite (at_lookup bytes i b) by (unfold INT_MAX in *; lia || assumption).
  cbn [bind]. rewrite int_of_overflow by lia. reflexivity.
Qed.

Lemma lookup_run (bytes : list byte) (p : nat) :
  (p + 4 <= length bytes)%nat ->
  exists b0 b1 b2 b3,
    bytes !! p = Some b0 /\ bytes !! (p + 1)%nat = Some b1 /\
    bytes !! (p + 2)%nat = Some b2 /\ bytes !! (p + 3)%nat = Some b3.
Proof.
  intros Hp.
  destruct (lookup_lt_is_Some_2 bytes p ltac:(lia)) as [b0 H0].
  destruct (lookup_lt_is_Some_2 bytes (p + 1) ltac:(lia)) as [b1 H1].
  destruct (lookup_lt_is_Some_2 bytes (p + 2) ltac:(lia)) as [b2 H2].
  destruct (lookup_lt_is_Some_2 bytes (p + 3) ltac:(lia)) as [b3 H3].
  eauto 10.
Qed.

Lemma parse_word_value (bytes : list byte) (p : nat) :
  (p + 4 <= length bytes)%nat -> Z.of_nat p + 4 <= INT_MAX ->
  parse_word bytes (Z.of_nat p) = Ok (word_at bytes p, Z.of_nat p + 4).
Proof.
  intros Hlen Hmax.
  destruct (lookup_run bytes p Hlen) as (b0 & b1 & b2 & b3 & L0 & L1 & L2 & L3).
  unfold parse_word, for_. change (seqZ 0 (4 - 0)) with [0; 1; 2; 3].
  cbn [for_each].
  rewrite (parse_word_body_value bytes 0 0 _ b0); [|lia|lia|now rewrite Nat2Z.id].
  cbn [bind].
  rewrite (parse_word_body_value bytes 1 _ _ b1);
    [|lia|lia|now replace (Z.to_nat (Z.of_nat p + 1)) with (p + 1)%nat by lia].
  cbn [bind].
  rewrite (parse_word_body_value bytes 2 _ _ b2);
    [|lia|lia|now replace (Z.to_nat (Z.of_nat p + 1 + 1)) with (p + 2)%nat by lia].
  cbn [bind].
  rewrite (parse_word_body_value bytes 3 _ _ b3);
    [|lia|lia|now replace (Z.to_nat (Z.of_nat p + 1 + 1 + 1)) with (p + 3)%nat by lia].
  cbn [bind].
  pose proof (byte_val_range b0). pose proof (byte_val_range b1).
  pose proof (byte_val_range b2). pose proof (byte_val_range b3).
  rewrite (shift_in_byte 0) by lia.
  rewrite (shift_in_byte (0 * 256 + byte_val b0)) by lia.
  rewrite (shift_in_byte ((0 * 256 + byte_val b0) * 256 + byte_val b1)) by lia.
  rewrite (shift_in_byte (((0 * 256 + byte_val b0) * 256 + byte_val b1) * 256 + byte_val b2))
    by lia.
  unfold word_at.
  rewrite (byte_at_lookup _ _ _ L0), (byte_at_lookup _ _ _ L1),
    (byte_at_lookup _ _ _ L2), (byte_at_lookup _ _ _ L3).
  f_equal. f_equal; lia.
Qed.

(** The fourth increment of [i] overflows when the word ends at byte
    [INT_MAX]. *)
Lemma parse_word_overflow (bytes : list byte) (p : nat) :
  (p + 4 <= length bytes)%nat -> Z.of_nat p + 3 = INT_MAX ->
  parse_word bytes (Z.of_nat p) = UB signed_overflow.
Proof.
  intros Hlen Hmax.
  destruct (lookup_run bytes p Hlen) as (b0 & b1 & b2 & b3 & L0 & L1 & L2 & L3).
  unfold parse_word, for_. change (seqZ 0 (4 - 0)) with [0; 1; 2; 3].
  cbn [for_each].
  rewrite (parse_word_body_value bytes 0 0 _ b0); [|lia|lia|now rewrite Nat2Z.id].
  cbn [bind].
  rewrite (parse_word_body_value bytes 1 _ _ b1);
    [|lia|lia|now replace (Z.to_nat (Z.of_nat p + 1)) with (p + 1)%nat by lia].
  cbn [bind].
  rewrite (parse_word_body_value bytes 2 _ _ b2);
    [|lia|lia|now replace (Z.to_nat (Z.of_nat p + 1 + 1)) with (p + 2)%nat by lia].
  cbn [bind].
  rewrite (parse_word_body_overflow bytes 3 _ _ b3);
    [|lia|now replace (Z.to_nat (Z.of_nat p + 1 + 1 + 1)) with (p + 3)%nat by lia].
  reflexivity.
Qed.

Lemma parse_block_prefix (bytes : list byte) (p j : nat) :
  (j <= 16)%nat -> (p + 4 * j <= length bytes)%nat ->
  Z.of_nat p + 4 * Z.of_nat j <= INT_MAX ->
  for_ 0 (Z.of_nat j) (parse_block_body bytes) (replicate 16 0, Z.of_nat p) =
  Ok (((fun t => word_at bytes (p + 4 * t)) <$> seq 0 j) ++ replicate (16 - j) 0,
      Z.of_nat p + 4 * Z.of_nat j).
Proof.
  induction j as [|j IH]; intros Hj Hlen Hmax.
  - rewrite for_nil by lia. simpl. do 2 f_equal. lia.
  - rewrite Nat2Z.inj_succ, <- Z.add_1_r, for_snoc by lia.
    rewrite IH by lia. cbn [bind]. unfold parse_block_body.
    replace (Z.of_nat p + 4 * Z.of_nat j) with (Z.of_nat (p + 4 * j)) by lia.
    rewrite parse_word_value by lia. cbn [bind].
    rewrite set_insert.
    + cbn [bind]. do 2 f_equal; [|lia].
      rewrite Nat2Z.id, seq_S, fmap_app. simpl.
      rewrite insert_app_r_alt by (rewrite length_fmap, length_seq; lia).
      rewrite length_fmap, length_seq, Nat.sub_diag.
      replace (16 - j)%nat with (Datatypes.S (16 - Datatypes.S j)) by lia.
      simpl. rewrite <- app_assoc. reflexivity.
    + unfold size. rewrite length_app, length_fmap, length_seq, length_replicate. lia.
    + lia.
Qed.

Lemma parse_block_value (bytes : list byte) (n : nat) :
  (64 * n + 64 <= length bytes)%nat -> 64 * Z.of_nat n + 64 <= INT_MAX ->
  parse_block bytes (64 * Z.of_nat n) =
  Ok (block_at bytes n, 64 * Z.of_nat n + 64).
Proof.
  intros Hlen Hmax. unfold parse_block.
  pose proof (parse_block_prefix bytes (64 * n) 16) as H.
  replace (Z.of_nat (64 * n)) with (64 * Z.of_nat n) in H by lia.
  change (Z.of_nat 16) with 16 in H. rewrite H by lia.
  simpl replicate. rewrite app_nil_r. reflexivity.
Qed.

Lemma parse_block_overflow (bytes : list byte) (n : nat) :
  (64 * n + 64 <= length bytes)%nat -> 64 * Z.of_nat n + 63 = INT_MAX ->
  parse_block bytes (64 * Z.of_nat n) = UB signed_overflow.
Proof.
  intros Hlen Hmax. unfold parse_block.
  change 16 with (15 + 1). rewrite for_snoc by lia.
  pose proof (parse_block_prefix bytes (64 * n) 15) as H.
  replace (Z.of_nat (64 * n)) with (64 * Z.of_nat n) in H by lia.
  change (Z.of_nat 15) with 15 in H. change (15 + 1)%nat with 16%nat.
  rewrite H by lia. cbn [bind]. unfold parse_block_body.
  replace (64 * Z.of_nat n + 4 * 15) with (Z.of_nat (64 * n + 60)) by lia.
  rewrite parse_word_overflow by lia. reflexivity.
Qed.

Section ParsingMessage.
Variable bytes : list byte.

Let blocks : nat := (length bytes / 64)%nat.

Lemma size_div_64 : size bytes `div` 64 = Z.of_nat blocks.
Proof. unfold size, blocks. now rewrite Nat2Z.inj_div. Qed.

Lemma blocks_bound : (64 * blocks <= length bytes)%nat.
Proof. unfold blocks. apply Nat.Div0.mul_div_le. Qed.

Let state (n : nat) : Z * Z * list (list Z) :=
  (Z.of_nat n, 64 * Z.of_nat n, block_at bytes <$> seq 0 n).

Lemma parsingMessage_step (n : nat) :
  (n < blocks)%nat -> 64 * Z.of_nat n + 64 <= INT_MAX ->
  parsingMessage_cond bytes (state n) = Ok true /\
  parsingMessage_body bytes (state n) = Ok (state (Datatypes.S n)).
Proof.
  intros Hn Hmax. pose proof blocks_bound as Hb.
  unfold state, parsingMessage_cond, parsingMessage_body.
  rewrite size_div_64. split.
  - destruct (Z.ltb_spec (Z.of_nat n) (Z.of_nat blocks)); [reflexivity|lia].
  - rewrite parse_block_value by lia. cbn [bind].
    unfold to_uint, push_back, INT_MAX in *.
    rewrite Z.mod_small by lia. rewrite seq_S, fmap_app. simpl.
    do 3 f_equal; lia.
Qed.

Lemma parsingMessage_iterations (r n : nat) :
  (n + r = blocks)%nat -> 64 * Z.of_nat blocks <= INT_MAX ->
  iter_n (parsingMessage_cond bytes) (parsingMessage_body bytes)
    (Datatypes.S r) (state n) = Ok (Break (state blocks)).
Proof.
  revert n. induction r as [|r IH]; intros n Hn Hmax.
  - replace n with blocks by lia. apply iter_n_S_Break.
    unfold state, parsingMessage_cond. rewrite size_div_64.
    rewrite Z.ltb_irrefl. reflexivity.
  - destruct (parsingMessage_step n) as [Hc Hb]; [lia|lia|].
    rewrite (iter_n_S_Continue _ _ _ _ _ Hc Hb). apply IH; lia.
Qed.

Lemma parsingMessage_value :
  64 * (size bytes `div` 64) <= INT_MAX ->
  parsingMessage bytes = Ok (blocks_of bytes).
Proof.
  rewrite size_div_64. intros Hmax. unfold parsingMessage.
  rewrite (while_Break _ _ (Datatypes.S blocks) _ (state blocks)).
  - reflexivity.
  - unfold INT_MAX in Hmax. lia.
  - apply (parsingMessage_iterations blocks 0%nat); [lia|assumption].
Qed.

Lemma parsingMessage_overflow_iterations (r n : nat) :
  Z.of_nat n + Z.of_nat r = 2 ^ 25 - 1 -> INT_MAX < 64 * Z.of_nat blocks ->
  iter_n (parsingMessage_cond bytes) (parsingMessage_body bytes)
    (Datatypes.S r) (state n) = UB signed_overflow.
Proof.
  revert n. induction r as [|r IH]; intros n Hn Hmax;
    unfold INT_MAX in *; pose proof blocks_bound as Hb.
  - cbn [iter_n]. unfold loop_step, state, parsingMessage_cond, parsingMessage_body.
    rewrite size_div_64.
    destruct (Z.ltb_spec (Z.of_nat n) (Z.of_nat blocks)); [|lia]. cbn [bind].
    rewrite parse_block_overflow by (unfold INT_MAX; lia). reflexivity.
  - destruct (parsingMessage_step n) as [Hc Hs]; [lia|unfold INT_MAX; lia|].
    rewrite (iter_n_S_Continue _ _ _ _ _ Hc Hs). apply IH; unfold INT_MAX; lia.
Qed.

(** Past [INT_MAX] bytes the index [i] overflows. *)
Lemma parsingMessage_overflow :
  INT_MAX < 64 * (size bytes `div` 64) ->
  parsingMessage bytes = UB signed_overflow.
Proof.
  rewrite size_div_64. intros Hmax. unfold parsingMessage.
  assert (Hr : exists r : nat, Z.of_nat r = 2 ^ 25 - 1).
  { exists (Z.to_nat (2 ^ 25 - 1)). apply Z2Nat.id. lia. }
  destruct Hr as [r Hr].
  rewrite (while_UB _ _ (Datatypes.S r) _ signed_overflow).
  - reflexivity.
  - lia.
  - apply (parsingMessage_overflow_iterations r 0%nat); [lia|assumption].
Qed.
End ParsingMessage.

Lemma length_blocks_of (bytes : list byte) :
  length (blocks_of bytes) = (length bytes / 64)%nat.
Proof. unfold blocks_of. now rewrite length_fmap, length_seq. Qed.

Lemma size_blocks_of (bytes : list byte) :
  size (blocks_of bytes) = size bytes `div` 64.
Proof. unfold size. rewrite length_blocks_of. now rewrite Nat2Z.inj_div. Qed.

Lemma lookup_blocks_of (bytes : list byte) (n : nat) :
  (n < length bytes / 64)%nat -> blocks_of bytes !! n = Some (block_at bytes n).
Proof.
  intros Hn. unfold blocks_of. rewrite list_lookup_fmap, lookup_seq_lt by exact Hn.
  reflexivity.
Qed.

Lemma length_block_at (bytes : list byte) (n : nat) : length (block_at bytes n) = 16%nat.
Proof. reflexivity. Qed.

Lemma lookup_block_at (bytes : list byte) (n j : nat) :
  (j < 16)%nat -> block_at bytes n !! j = Some (word_at bytes (64 * n + 4 * j)).
Proof.
  intros Hj. unfold block_at. rewrite list_lookup_fmap, lookup_seq_lt by exact Hj.
  reflexivity.
Qed.

Lemma word_at_word (bytes : list byte) (p : nat) : word (word_at bytes p).
Proof.
  unfold word, word_at, byte_at.
  pose proof (byte_val_range (default x00 (bytes !! p))).
  pose proof (byte_val_range (default x00 (bytes !! (p + 1)%nat))).
  pose proof (byte_val_range (default x00 (bytes !! (p + 2)%nat))).
  pose proof (byte_val_range (default x00 (bytes !! (p + 3)%nat))).
  lia.
Qed.

Lemma size_cons {A : Type} (x : A) (l : list A) : size (x :: l) = 1 + size l.
Proof. unfold size. cbn [length]. lia. Qed.

Lemma size_nil {A : Type} : size (@nil A) = 0.
Proof. reflexivity. Qed.

Lemma size_replicate_nat {A : Type} (n : nat) (x : A) : size (replicate n x) = Z.of_nat n.
Proof. unfold size. now rewrite length_replicate. Qed.

(** The size of the padded message, in bytes. *)
Lemma size_padded (M : list byte) :
  8 * size M + 65 <= 2 ^ 63 ->
  exists padded,
    paddingMessage M = Ok padded /\
    size padded = 64 * ((size M + 8) `div` 64 + 1).
Proof.
  intros Hfit. pose proof (paddingMessage_value M Hfit) as Hv. cbv zeta in Hv.
  eexists. split; [exact Hv|].
  assert (Hn : 0 <= size M) by (unfold size; lia).
  pose proof (zero_bits_range (8 * size M)) as Hr.
  destruct (zero_bits_aligned (8 * size M)) as [H7 Hm8].
  { rewrite Z.mul_comm. apply Z.mod_mul. lia. }
  rewrite !size_app, size_replicate_nat, !size_cons, size_nil.
  rewrite Z2Nat.id by (apply Z.div_pos; lia).
  unfold zero_bits in *. Z.div_mod_to_equations. lia.
Qed.

(** Padding followed by parsing, for a message that the parser can
    index with an [int]. *)
Lemma padded_blocks (M : list byte) :
  size M + 73 <= 2 ^ 31 ->
  exists padded,
    paddingMessage M = Ok padded /\
    size padded = 64 * ((size M + 8) `div` 64 + 1) /\
    parsingMessage padded = Ok (blocks_of padded) /\
    size (blocks_of padded) = (size M + 8) `div` 64 + 1.
Proof.
  intros Hfit. assert (Hn : 0 <= size M) by (unfold size; lia).
  destruct (size_padded M) as (padded & Hp & Hs); [lia|].
  exists padded. split; [exact Hp|]. split; [exact Hs|].
  assert (Hd : size padded `div` 64 = (size M + 8) `div` 64 + 1).
  { rewrite Hs, Z.mul_comm. apply Z.div_mul. lia. }
  split.
  - apply parsingMessage_value. rewrite Hd. unfold INT_MAX.
    Z.div_mod_to_equations. lia.
  - rewrite size_blocks_of. exact Hd.
Qed.

(** C4, amended: for every byte sequence whose length is a multiple of
    64 and at most [INT_MAX], [parsingMessage] produces exactly length /
    64 blocks, in input order, each of 16 unsigned 32-bit words assembled
    from four bytes, most significant first.  Padding and parsing yield
    1 block for the empty message, 1 block for every message of 55 bytes
    and 2 blocks for every message of 56 bytes. *)
Theorem parsingMessage_blocks :
  (forall bytes : list byte,
      size bytes `mod` 64 = 0 -> size bytes <= INT_MAX ->
      exists M,
        parsingMessage bytes = Ok M /\
        size M = size bytes `div` 64 /\
        forall n j : nat,
          Z.of_nat n < size bytes `div` 64 -> (j < 16)%nat ->
          exists blk b0 b1 b2 b3,
            M !! n = Some blk /\ length blk = 16%nat /\
            bytes !! (64 * n + 4 * j)%nat = Some b0 /\
            bytes !! (64 * n + 4 * j + 1)%nat = Some b1 /\
            bytes !! (64 * n + 4 * j + 2)%nat = Some b2 /\
            bytes !! (64 * n + 4 * j + 3)%nat = Some b3 /\
            blk !! j = Some (byte_val b0 * 2 ^ 24 + byte_val b1 * 2 ^ 16 +
                             byte_val b2 * 2 ^ 8 + byte_val b3) /\
            word (byte_val b0 * 2 ^ 24 + byte_val b1 * 2 ^ 16 +
                  byte_val b2 * 2 ^ 8 + byte_val b3)) /\
  (forall message : list byte,
      length message = 0%nat \/ length message = 55%nat ->
      exists padded M,
        paddingMessage message = Ok padded /\ parsingMessage padded = Ok M /\
        length M = 1%nat) /\
  (forall message : list byte,
      length message = 56%nat ->
      exists padded M,
        paddingMessage message = Ok padded /\ parsingMessage padded = Ok M /\
        length M = 2%nat).
Proof.
  split; [|split].
  - intros bytes Hmod Hmax. exists (blocks_of bytes).
    assert (Hle : 64 * (size bytes `div` 64) <= INT_MAX).
    { pose proof (Z.mul_div_le (size bytes) 64 ltac:(lia)). lia. }
    split; [now apply parsingMessage_value|].
    split; [apply size_blocks_of|].
    intros n j Hn Hj.
    assert (Hn' : (n < length bytes / 64)%nat).
    { apply Nat2Z.inj_lt. rewrite Nat2Z.inj_div. exact Hn. }
    assert (Hb : (64 * (length bytes / 64) <= length bytes)%nat)
      by apply Nat.Div0.mul_div_le.
    destruct (lookup_run bytes (64 * n + 4 * j)) as (b0 & b1 & b2 & b3 & L0 & L1 & L2 & L3);
      [lia|].
    exists (block_at bytes n), b0, b1, b2, b3.
    split; [now apply lookup_blocks_of|]. split; [reflexivity|].
    do 4 (split; [assumption|]).
    pose proof (word_at_word bytes (64 * n + 4 * j)) as Hw.
    rewrite lookup_block_at by exact Hj. unfold word_at in *.
    rewrite (byte_at_lookup _ _ _ L0), (byte_at_lookup _ _ _ L1),
      (byte_at_lookup _ _ _ L2), (byte_at_lookup _ _ _ L3) in *.
    split; [reflexivity|exact Hw].
  - intros message Hlen.
    destruct (padded_blocks message) as (padded & Hp & _ & Hq & Hs).
    { unfold size. destruct Hlen as [-> | ->]; vm_compute; discriminate. }
    exists padded, (blocks_of padded). split; [exact Hp|]. split; [exact Hq|].
    unfold size in Hs. destruct Hlen as [E|E]; rewrite E in Hs;
      change (Z.of_nat (length (blocks_of padded)) = 1) in Hs; lia.
  - intros message Hlen.
    destruct (padded_blocks message) as (padded & Hp & _ & Hq & Hs).
    { unfold size. rewrite Hlen. vm_compute. discriminate. }
    exists padded, (blocks_of padded). split; [exact Hp|]. split; [exact Hq|].
    unfold size in Hs. rewrite Hlen in Hs.
    change (Z.of_nat (length (blocks_of padded)) = 2) in Hs. lia.
Qed.

Lemma parsingMessage_blocks_witness :
  size (replicate 64 x61) `mod` 64 = 0 /\ size (replicate 64 x61) <= INT_MAX /\
  exists M,
    parsingMessage (replicate 64 x61) = Ok M /\
    size M = size (replicate 64 x61) `div` 64.
Proof.
  split; [reflexivity|]. split; [vm_compute; discriminate|].
  destruct (proj1 parsingMessage_blocks (replicate 64 x61)) as (M & HM & Hs & _).
  - reflexivity.
  - vm_compute; discriminate.
  - exists M. split; assumption.
Defined.

(** C4 as stated fails: the padding of a message of [2 ^ 31] bytes has
    [2 ^ 31 + 64] bytes, a multiple of 64, and on it the [int] index [i]
    of [parsingMessage] overflows. *)
Lemma parsingMessage_not_total :
  exists padded,
    paddingMessage (replicate (Z.to_nat (2 ^ 31)) x00) = Ok padded /\
    size padded `mod` 64 = 0 /\
    parsingMessage padded = UB signed_overflow.
Proof.
  assert (Hs : size (replicate (Z.to_nat (2 ^ 31)) x00) = 2 ^ 31)
    by (apply size_replicate; lia).
  destruct (size_padded (replicate (Z.to_nat (2 ^ 31)) x00)) as (padded & Hp & Hsz).
  { rewrite Hs. lia. }
  rewrite Hs in Hsz. change (64 * ((2 ^ 31 + 8) `div` 64 + 1)) with (2 ^ 31 + 64) in Hsz.
  exists padded. split; [exact Hp|]. rewrite Hsz. split; [reflexivity|].
  apply parsingMessage_overflow. rewrite Hsz. vm_compute. reflexivity.
Qed.

(** * The compressor *)

Lemma add_uint_assoc (x y z : Z) : add_uint (add_uint x y) z = to_uint (x + y + z).
Proof. unfold add_uint, to_uint. now rewrite Zplus_mod_idemp_l. Qed.

Lemma add_uint_4 (x y z u : Z) :
  add_uint (add_uint (add_uint x y) z) u = (x + y + z + u) `mod` 2 ^ 32.
Proof.
  unfold add_uint, to_uint.
  rewrite Zplus_mod_idemp_l, <- Z.add_assoc, Zplus_mod_idemp_l.
  f_equal. lia.
Qed.

Lemma add_uint_5 (x y z u v : Z) :
  add_uint (add_uint (add_uint (add_uint x y) z) u) v =
  (x + y + z + u + v) `mod` 2 ^ 32.
Proof.
  unfold add_uint at 1. rewrite add_uint_4. unfold to_uint.
  now rewrite Zplus_mod_idemp_l.
Qed.

Lemma at2_lookup {A : Type} (v : list (list A)) (row : list A) (i j : Z) (x : A) :
  0 <= i < 2 ^ 64 -> 0 <= j < 2 ^ 64 ->
  v !! Z.to_nat i = Some row -> row !! Z.to_nat j = Some x ->
  at2 v i j = Ok x.
Proof.
  intros Hi Hj Hr Hx. unfold at2.
  rewrite (at_lookup v i row) by assumption. cbn [bind].
  now apply at_lookup.
Qed.

Lemma set_W_set_W (gl : Globals.t) (w w' : list Z) :
  Globals.set_W (Globals.set_W gl w) w' = Globals.set_W gl w'.
Proof. reflexivity. Qed.

Lemma set_W_same (gl : Globals.t) : Globals.set_W gl (Globals.W gl) = gl.
Proof. now destruct gl. Qed.

Lemma assign_W_value (gl : Globals.t) (w : list Z) (t : nat) (x : Z) :
  (t < length w)%nat -> (t < 64)%nat ->
  assign_W (Globals.set_W gl w) (Z.of_nat t) x = Ok (Globals.set_W gl (<[t := x]> w)).
Proof.
  intros Ht H64. unfold assign_W. cbn [Globals.W Globals.set_W].
  rewrite set_insert by (unfold size; lia). cbn [bind].
  now rewrite Nat2Z.id.
Qed.

Lemma insert_middle {A : Type} (pre rest : list A) (t : nat) (x : A) :
  length pre = t -> (t < length rest)%nat ->
  <[t := x]> (pre ++ drop t rest) = (pre ++ [x]) ++ drop (Datatypes.S t) rest.
Proof.
  intros Hp Ht.
  rewrite insert_app_r_alt by lia. rewrite Hp, Nat.sub_diag.
  destruct (lookup_lt_is_Some_2 rest t Ht) as [y Hy].
  rewrite (drop_S rest y t Hy). simpl. now rewrite <- app_assoc.
Qed.

Lemma length_W_extend (n : nat) (w : list Z) :
  length (Spec.W_extend n w) = (length w + n)%nat.
Proof.
  induction n as [|n IH]; simpl; [lia|]. rewrite length_app, IH. simpl. lia.
Qed.

Section Schedule.
Variable M : list (list Z).
Variable i : Z.
Variable block : list Z.
Variable gl : Globals.t.
Hypothesis i_range : 1 <= i <= 2 ^ 31.
Hypothesis M_block : M !! Z.to_nat (i - 1) = Some block.
Hypothesis block_length : length block = 16%nat.
Hypothesis gl_wf : Globals.wf gl.

Lemma schedule_copy_prefix (t : nat) :
  (t <= 16)%nat ->
  for_ 0 (Z.of_nat t) (schedule_copy_body M i) gl =
  Ok (Globals.set_W gl (take t block ++ drop t (Globals.W gl))).
Proof.
  unfold Globals.wf in gl_wf.
  induction t as [|t IH]; intros Ht.
  - rewrite for_nil by lia. simpl. now rewrite set_W_same.
  - rewrite Nat2Z.inj_succ, <- Z.add_1_r, for_snoc by lia.
    rewrite IH by lia. cbn [bind]. unfold schedule_copy_body.
    destruct (lookup_lt_is_Some_2 block t ltac:(lia)) as [x Hx].
    rewrite (at2_lookup M block (i - 1) (Z.of_nat t) x);
      [|lia|lia|assumption|now rewrite Nat2Z.id].
    cbn [bind]. rewrite assign_W_value.
    + rewrite insert_middle by (rewrite ?length_take; lia).
      now rewrite (take_S_r block t x Hx).
    + rewrite length_app, length_take, length_drop. lia.
    + lia.
Qed.

Lemma schedule_expand_step (n : nat) (pre : list Z) :
  length pre = (16 + n)%nat -> (n < 48)%nat ->
  schedule_expand_body (Z.of_nat (16 + n))
    (Globals.set_W gl (pre ++ drop (16 + n) (Globals.W gl))) =
  Ok (Globals.set_W gl ((pre ++ [Spec.W_next pre]) ++ drop (Datatypes.S (16 + n)) (Globals.W gl))).
Proof.
  unfold Globals.wf in gl_wf. intros Hp Hn.
  assert (L : forall k : nat, (k < 16 + n)%nat ->
    at_ (pre ++ drop (16 + n) (Globals.W gl)) (Z.of_nat k) = Ok (pre !!! k)).
  { intros k Hk. apply at_lookup; [lia|]. rewrite Nat2Z.id.
    rewrite lookup_app_l by lia. apply list_lookup_lookup_total_lt. lia. }
  unfold schedule_expand_body. cbn [Globals.W Globals.set_W].
  replace (Z.of_nat (16 + n) - 2) with (Z.of_nat (16 + n - 2)) by lia.
  replace (Z.of_nat (16 + n) - 7) with (Z.of_nat (16 + n - 7)) by lia.
  replace (Z.of_nat (16 + n) - 15) with (Z.of_nat (16 + n - 15)) by lia.
  replace (Z.of_nat (16 + n) - 16) with (Z.of_nat (16 + n - 16)) by lia.
  rewrite !L by lia. cbn [bind].
  rewrite lowercaseSigma1_Ok. cbn [bind].
  rewrite lowercaseSigma0_Ok. cbn [bind].
  rewrite assign_W_value.
  - rewrite insert_middle by lia.
    rewrite add_uint_4.
    unfold Spec.W_next. rewrite Hp. reflexivity.
  - rewrite length_app, length_drop. lia.
  - lia.
Qed.

Lemma schedule_expand_prefix (n : nat) :
  (n <= 48)%nat ->
  for_ 16 (Z.of_nat (16 + n)) schedule_expand_body
    (Globals.set_W gl (block ++ drop 16 (Globals.W gl))) =
  Ok (Globals.set_W gl (Spec.W_extend n block ++ drop (16 + n) (Globals.W gl))).
Proof.
  induction n as [|n IH]; intros Hn.
  - rewrite for_nil by lia. reflexivity.
  - replace (Z.of_nat (16 + Datatypes.S n)) with (Z.of_nat (16 + n) + 1) by lia.
    rewrite for_snoc by lia. rewrite IH by lia. cbn [bind].
    rewrite schedule_expand_step by (rewrite ?length_W_extend; lia).
    replace (16 + Datatypes.S n)%nat with (Datatypes.S (16 + n)) by lia.
    reflexivity.
Qed.

Lemma schedule_value :
  schedule M i gl = Ok (Globals.set_W gl (Spec.schedule block)).
Proof.
  unfold Globals.wf in gl_wf. unfold schedule.
  pose proof (schedule_copy_prefix 16 ltac:(lia)) as Hc.
  pose proof (schedule_expand_prefix 48 ltac:(lia)) as He.
  change (Z.of_nat 16) with 16 in Hc. change (Z.of_nat (16 + 48)) with 64 in He.
  rewrite Hc. cbn [bind]. rewrite take_ge by lia. rewrite He.
  rewrite drop_ge by lia. rewrite app_nil_r. unfold Spec.schedule. reflexivity.
Qed.
End Schedule.

Lemma length_schedule (block : list Z) :
  length block = 16%nat -> length (Spec.schedule block) = 64%nat.
Proof. intros H. unfold Spec.schedule. rewrite length_W_extend, H. reflexivity. Qed.

Lemma load_registers_value (Hash : list (list Z)) (i : Z) (gl : Globals.t)
    (h0 h1 h2 h3 h4 h5 h6 h7 : Z) :
  1 <= i <= 2 ^ 31 ->
  Hash !! Z.to_nat (i - 1) = Some [h0; h1; h2; h3; h4; h5; h6; h7] ->
  load_registers Hash i gl =
  Ok (Globals.mk (Globals.W gl) h0 h1 h2 h3 h4 h5 h6 h7 (Globals.T1 gl) (Globals.T2 gl)).
Proof.
  intros Hi HH. unfold load_registers.
  rewrite (at2_lookup Hash _ (i - 1) 0 h0 ltac:(lia) ltac:(lia) HH eq_refl). cbn [bind].
  rewrite (at2_lookup Hash _ (i - 1) 1 h1 ltac:(lia) ltac:(lia) HH eq_refl). cbn [bind].
  rewrite (at2_lookup Hash _ (i - 1) 2 h2 ltac:(lia) ltac:(lia) HH eq_refl). cbn [bind].
  rewrite (at2_lookup Hash _ (i - 1) 3 h3 ltac:(lia) ltac:(lia) HH eq_refl). cbn [bind].
  rewrite (at2_lookup Hash _ (i - 1) 4 h4 ltac:(lia) ltac:(lia) HH eq_refl). cbn [bind].
  rewrite (at2_lookup Hash _ (i - 1) 5 h5 ltac:(lia) ltac:(lia) HH eq_refl). cbn [bind].
  rewrite (at2_lookup Hash _ (i - 1) 6 h6 ltac:(lia) ltac:(lia) HH eq_refl). cbn [bind].
  rewrite (at2_lookup Hash _ (i - 1) 7 h7 ltac:(lia) ltac:(lia) HH eq_refl). cbn [bind].
  reflexivity.
Qed.

Lemma round_value (t : nat) (gl : Globals.t) (k w : Z) :
  K !! t = Some k -> Globals.W gl !! t = Some w -> (t < 64)%nat ->
  word (Globals.e gl) ->
  exists gl',
    round (Z.of_nat t) gl = Ok gl' /\
    registers gl' = Spec.round (registers gl) (k, w) /\
    Globals.W gl' = Globals.W gl /\
    word (Globals.e gl').
Proof.
  intros Hk Hw Ht He. destruct gl as [W a b c d e f g h T1 T2].
  cbn [Globals.W Globals.e] in *.
  unfold round. cbn [Globals.W Globals.a Globals.b Globals.c Globals.d Globals.e
    Globals.f Globals.g Globals.h Globals.T1 Globals.T2].
  rewrite capitalSigma_1_Ok. cbn [bind].
  rewrite (at_lookup K (Z.of_nat t) k) by (lia || now rewrite Nat2Z.id). cbn [bind].
  rewrite (at_lookup W (Z.of_nat t) w) by (lia || now rewrite Nat2Z.id). cbn [bind].
  cbn [Globals.set_T1 Globals.set_T2 Globals.set_a Globals.set_b Globals.set_c
    Globals.set_d Globals.set_e Globals.set_f Globals.set_g Globals.set_h
    Globals.W Globals.a Globals.b Globals.c Globals.d Globals.e
    Globals.f Globals.g Globals.h Globals.T1 Globals.T2].
  rewrite capitalSigma_0_Ok. cbn [bind].
  eexists. split; [reflexivity|].
  cbn [registers Spec.round fst snd Globals.W Globals.a Globals.b Globals.c
    Globals.d Globals.e Globals.f Globals.g Globals.h Globals.T1 Globals.T2].
  rewrite add_uint_5, (Ch_spec e f g He).
  split; [reflexivity|]. split; [reflexivity|]. apply word_to_uint.
Qed.

Lemma rounds_prefix (gl : Globals.t) (t : nat) :
  (t <= 64)%nat -> length (Globals.W gl) = 64%nat -> word (Globals.e gl) ->
  exists gl',
    for_ 0 (Z.of_nat t) round gl = Ok gl' /\
    registers gl' = fold_left Spec.round (take t (zip K (Globals.W gl))) (registers gl) /\
    Globals.W gl' = Globals.W gl /\
    word (Globals.e gl').
Proof.
  intros Ht HW He. induction t as [|t IH].
  - exists gl. rewrite for_nil by lia.
    split; [reflexivity|]. split; [reflexivity|]. split; [reflexivity|assumption].
  - destruct IH as (gl1 & Hf & Hr & HW1 & He1); [lia|].
    destruct (lookup_lt_is_Some_2 K t ltac:(change (length K) with 64%nat; lia)) as [k Hk].
    destruct (lookup_lt_is_Some_2 (Globals.W gl) t ltac:(lia)) as [w Hw].
    destruct (round_value t gl1 k w) as (gl2 & Hf2 & Hr2 & HW2 & He2);
      [assumption|now rewrite HW1|lia|assumption|].
    exists gl2. rewrite Nat2Z.inj_succ, <- Z.add_1_r, for_snoc by lia.
    rewrite Hf. cbn [bind]. split; [exact Hf2|].
    split; [|split; [congruence|assumption]].
    rewrite Hr2, Hr.
    assert (Hz : zip K (Globals.W gl) !! t = Some (k, w)).
    { rewrite lookup_zip_with, Hk, Hw. reflexivity. }
    rewrite (take_S_r _ _ _ Hz), fold_left_app. reflexivity.
Qed.

Lemma set_8 (cb : list Z) (v0 v1 v2 v3 v4 v5 v6 v7 : Z) :
  length cb = 8%nat ->
  (let* cb := set_ cb 0 v0 in
   let* cb := set_ cb 1 v1 in
   let* cb := set_ cb 2 v2 in
   let* cb := set_ cb 3 v3 in
   let* cb := set_ cb 4 v4 in
   let* cb := set_ cb 5 v5 in
   let* cb := set_ cb 6 v6 in
   let* cb := set_ cb 7 v7 in
   Ok cb) = Ok [v0; v1; v2; v3; v4; v5; v6; v7].
Proof.
  intros H.
  destruct cb as [|c0 [|c1 [|c2 [|c3 [|c4 [|c5 [|c6 [|c7 [|c8 cb]]]]]]]]];
    try discriminate.
  reflexivity.
Qed.

Lemma intermediate_value (Hash : list (list Z)) (i : Z) (gl : Globals.t)
    (cb Hp : list Z) :
  1 <= i <= 2 ^ 31 ->
  Hash !! Z.to_nat (i - 1) = Some Hp -> length Hp = 8%nat -> length cb = 8%nat ->
  intermediate Hash i gl cb =
  Ok (zip_with (fun x y => (x + y) `mod` 2 ^ 32) Hp (registers gl)).
Proof.
  intros Hi HH HHp Hcb.
  destruct Hp as [|h0 [|h1 [|h2 [|h3 [|h4 [|h5 [|h6 [|h7 [|h8 Hp]]]]]]]]];
    try discriminate.
  unfold intermediate.
  rewrite (at2_lookup Hash _ (i - 1) 0 h0 ltac:(lia) ltac:(lia) HH eq_refl). cbn [bind].
  rewrite (at2_lookup Hash _ (i - 1) 1 h1 ltac:(lia) ltac:(lia) HH eq_refl).
  rewrite (at2_lookup Hash _ (i - 1) 2 h2 ltac:(lia) ltac:(lia) HH eq_refl).
  rewrite (at2_lookup Hash _ (i - 1) 3 h3 ltac:(lia) ltac:(lia) HH eq_refl).
  rewrite (at2_lookup Hash _ (i - 1) 4 h4 ltac:(lia) ltac:(lia) HH eq_refl).
  rewrite (at2_lookup Hash _ (i - 1) 5 h5 ltac:(lia) ltac:(lia) HH eq_refl).
  rewrite (at2_lookup Hash _ (i - 1) 6 h6 ltac:(lia) ltac:(lia) HH eq_refl).
  rewrite (at2_lookup Hash _ (i - 1) 7 h7 ltac:(lia) ltac:(lia) HH eq_refl).
  cbn [bind]. rewrite set_8 by assumption.
  unfold registers, add_uint, to_uint. cbn [zip_with].
  rewrite !(Z.add_comm h0), !(Z.add_comm h1), !(Z.add_comm h2), !(Z.add_comm h3),
    !(Z.add_comm h4), !(Z.add_comm h5), !(Z.add_comm h6), !(Z.add_comm h7).
  reflexivity.
Qed.

(** ** The chain of running states *)

Lemma length_Spec_round (r : list Z) (kw : Z * Z) :
  length r = 8%nat -> length (Spec.round r kw) = 8%nat.
Proof.
  intros H.
  destruct r as [|a [|b [|c [|d [|e [|f [|g [|h [|x r]]]]]]]]]; try discriminate.
  reflexivity.
Qed.

Lemma length_Spec_rounds (W H : list Z) :
  length H = 8%nat -> length (Spec.rounds W H) = 8%nat.
Proof.
  unfold Spec.rounds. generalize (zip K W) as l. intros l. revert H.
  induction l as [|kw l IH]; intros H HH; simpl; [exact HH|].
  apply IH. now apply length_Spec_round.
Qed.

Lemma Forall_word_zip_with_add (l k : list Z) :
  Forall word (zip_with (fun x y => (x + y) `mod` 2 ^ 32) l k).
Proof.
  revert k. induction l as [|x l IH]; intros [|y k]; simpl; try constructor.
  - apply word_to_uint.
  - apply IH.
Qed.

Lemma hash_value_compress (H block : list Z) :
  length H = 8%nat -> hash_value (Spec.compress H block).
Proof.
  intros HH. unfold hash_value, Spec.compress. split.
  - rewrite length_zip_with, length_Spec_rounds by exact HH. lia.
  - apply Forall_word_zip_with_add.
Qed.

Lemma hash_value_H0 : hash_value H0.
Proof.
  split; [reflexivity|]. unfold H0, word. repeat (apply Forall_cons; split; [lia|]).
  constructor.
Qed.

Lemma length_chain (H : list Z) (M : list (list Z)) :
  length (Spec.chain H M) = Datatypes.S (length M).
Proof.
  revert H. induction M as [|block M IH]; intros H; simpl; [reflexivity|].
  now rewrite IH.
Qed.

Lemma chain_lookup_0 (H : list Z) (M : list (list Z)) : Spec.chain H M !! 0%nat = Some H.
Proof. destruct M; reflexivity. Qed.

Lemma chain_lookup_S (H : list Z) (M : list (list Z)) (k : nat) (Hk block : list Z) :
  Spec.chain H M !! k = Some Hk -> M !! k = Some block ->
  Spec.chain H M !! Datatypes.S k = Some (Spec.compress Hk block).
Proof.
  revert H k. induction M as [|b M IH]; intros H k HH HM; [discriminate|].
  destruct k as [|k].
  - simpl in HH, HM. injection HH as <-. injection HM as <-.
    simpl. apply chain_lookup_0.
  - simpl in HH, HM. simpl. now apply IH.
Qed.

Lemma chain_hash_values (H : list Z) (M : list (list Z)) :
  hash_value H -> Forall hash_value (Spec.chain H M).
Proof.
  revert H. induction M as [|b M IH]; intros H HH; simpl.
  - constructor; [assumption|constructor].
  - constructor; [assumption|]. apply IH. apply hash_value_compress. apply HH.
Qed.

Lemma hash_value_inv (H : list Z) :
  hash_value H ->
  exists h0 h1 h2 h3 h4 h5 h6 h7,
    H = [h0; h1; h2; h3; h4; h5; h6; h7] /\ word h4.
Proof.
  intros [HL HW].
  destruct H as [|h0 [|h1 [|h2 [|h3 [|h4 [|h5 [|h6 [|h7 [|x H]]]]]]]]]; try discriminate.
  exists h0, h1, h2, h3, h4, h5, h6, h7. split; [reflexivity|].
  rewrite Forall_lookup in HW. apply (HW 4%nat). reflexivity.
Qed.

Section GetHash.
Variable M : list (list Z).
Hypothesis M_blocks : Forall (fun block => length block = 16%nat) M.
Hypothesis M_size : size M < INT_MAX.

Local Abbreviation chain := (Spec.chain H0 M).

Lemma to_int_size : to_int (size M) = size M.
Proof.
  unfold to_int, INT_MAX, size in *. rewrite Z.mod_small by lia. lia.
Qed.

Lemma getHash_body_value (k : nat) (gl : Globals.t) (cb : list Z) :
  (k < length M)%nat -> Globals.wf gl -> length cb = 8%nat ->
  exists gl' cb',
    getHash_body M (Z.of_nat k + 1, gl, take (Datatypes.S k) chain, cb) =
    Ok (Z.of_nat (Datatypes.S k) + 1, gl', take (Datatypes.S (Datatypes.S k)) chain, cb') /\
    Globals.wf gl' /\ length cb' = 8%nat.
Proof.
  intros Hk Hwf Hcb. unfold INT_MAX, size in M_size.
  destruct (lookup_lt_is_Some_2 M k Hk) as [block Hb].
  assert (Hbl : length block = 16%nat).
  { rewrite Forall_lookup in M_blocks. exact (M_blocks k block Hb). }
  destruct (lookup_lt_is_Some_2 chain k ltac:(rewrite length_chain; lia)) as [Hp HHp].
  assert (Hgood : hash_value Hp).
  { pose proof (chain_hash_values H0 M hash_value_H0) as HF.
    rewrite Forall_lookup in HF. exact (HF k Hp HHp). }
  destruct (hash_value_inv Hp Hgood) as (h0 & h1 & h2 & h3 & h4 & h5 & h6 & h7 & -> & Hw4).
  assert (Hidx : Z.to_nat (Z.of_nat k + 1 - 1) = k) by lia.
  assert (HT : take (Datatypes.S k) chain !! Z.to_nat (Z.of_nat k + 1 - 1) =
               Some [h0; h1; h2; h3; h4; h5; h6; h7]).
  { rewrite Hidx, lookup_take_lt by lia. exact HHp. }
  unfold getHash_body.
  rewrite (schedule_value M (Z.of_nat k + 1) block gl);
    [|lia|now rewrite Hidx|assumption|assumption].
  cbn [bind].
  rewrite (load_registers_value _ (Z.of_nat k + 1) _ h0 h1 h2 h3 h4 h5 h6 h7
             ltac:(lia) HT).
  cbn [bind].
  destruct (rounds_prefix
              (Globals.mk (Globals.W (Globals.set_W gl (Spec.schedule block)))
                 h0 h1 h2 h3 h4 h5 h6 h7
                 (Globals.T1 (Globals.set_W gl (Spec.schedule block)))
                 (Globals.T2 (Globals.set_W gl (Spec.schedule block)))) 64)
    as (gl3 & Hf & Hr & HW & He).
  { lia. }
  { cbn [Globals.W Globals.set_W]. now apply length_schedule. }
  { exact Hw4. }
  change (Z.of_nat 64) with 64 in Hf. rewrite Hf. cbn [bind].
  rewrite (intermediate_value _ (Z.of_nat k + 1) gl3 cb _ ltac:(lia) HT eq_refl Hcb).
  cbn [bind].
  rewrite int_of_fits by (unfold INT_MIN, INT_MAX; lia).
  assert (E : zip_with (fun x y => (x + y) `mod` 2 ^ 32)
                [h0; h1; h2; h3; h4; h5; h6; h7] (registers gl3) =
              Spec.compress [h0; h1; h2; h3; h4; h5; h6; h7] block).
  { rewrite Hr. cbn [Globals.W Globals.set_W registers Globals.a Globals.b
      Globals.c Globals.d Globals.e Globals.f Globals.g Globals.h].
    rewrite take_ge by (rewrite length_zip_with, length_schedule by assumption;
                        change (length K) with 64%nat; lia).
    unfold Spec.compress, Spec.rounds. reflexivity. }
  rewrite E.
  exists gl3, (Spec.compress [h0; h1; h2; h3; h4; h5; h6; h7] block).
  split; [|split].
  - unfold push_back.
    rewrite (take_S_r chain (Datatypes.S k)
               (Spec.compress [h0; h1; h2; h3; h4; h5; h6; h7] block))
      by (now apply chain_lookup_S).
    replace (Z.of_nat (Datatypes.S k) + 1) with (Z.of_nat k + 1 + 1) by lia.
    reflexivity.
  - unfold Globals.wf. rewrite HW. cbn [Globals.W Globals.set_W].
    now apply length_schedule.
  - apply hash_value_compress. reflexivity.
Qed.

Lemma getHash_iterations (r k : nat) (gl : Globals.t) (cb : list Z) :
  (k + r = length M)%nat -> Globals.wf gl -> length cb = 8%nat ->
  exists gl' cb',
    iter_n (getHash_cond (to_int (size M))) (getHash_body M) (Datatypes.S r)
      (Z.of_nat k + 1, gl, take (Datatypes.S k) chain, cb) =
    Ok (Break (size M + 1, gl', chain, cb')) /\
    Globals.wf gl'.
Proof.
  revert k gl cb. induction r as [|r IH]; intros k gl cb Hk Hwf Hcb.
  - exists gl, cb. split; [|assumption].
    rewrite iter_n_S_Break.
    + rewrite take_ge by (rewrite length_chain; lia).
      unfold size. do 5 f_equal. lia.
    + unfold getHash_cond. rewrite to_int_size. unfold size.
      destruct (Z.leb_spec (Z.of_nat k + 1) (Z.of_nat (length M))); [lia|reflexivity].
  - destruct (getHash_body_value k gl cb) as (gl1 & cb1 & Hb & Hwf1 & Hcb1);
      [lia|assumption|assumption|].
    destruct (IH (Datatypes.S k) gl1 cb1) as (gl2 & cb2 & Hi & Hwf2);
      [lia|assumption|assumption|].
    exists gl2, cb2. split; [|assumption].
    assert (Hc : getHash_cond (to_int (size M))
                   (Z.of_nat k + 1, gl, take (Datatypes.S k) chain, cb) = Ok true).
    { unfold getHash_cond. rewrite to_int_size. unfold size.
      destruct (Z.leb_spec (Z.of_nat k + 1) (Z.of_nat (length M))); [reflexivity|lia]. }
    rewrite (iter_n_S_Continue _ _ _ _ _ Hc Hb). exact Hi.
Qed.

(** [getHash] returns the chain of the specification, whatever the
    global scratch state holds on entry. *)
Lemma getHash_value (gl : Globals.t) :
  Globals.wf gl ->
  exists gl', getHash gl M = Ok (gl', chain) /\ Globals.wf gl'.
Proof.
  intros Hwf. unfold INT_MAX, size in M_size.
  destruct (getHash_iterations (length M) 0 gl (replicate 8 0))
    as (gl' & cb' & Hi & Hwf'); [lia|assumption|reflexivity|].
  exists gl'. split; [|assumption].
  unfold getHash.
  rewrite (while_Break _ _ (Datatypes.S (length M)) _ (size M + 1, gl', chain, cb')).
  - reflexivity.
  - lia.
  - assert (Ht : take 1 chain = [H0]) by (destruct M; reflexivity).
    rewrite Ht in Hi. exact Hi.
Qed.
End GetHash.

(** * The printer *)

Lemma length_hex_digits (n : nat) (w : Z) : (length (hex_digits n w) <= n)%nat.
Proof.
  revert w. induction n as [|n IH]; intros w; simpl; [lia|].
  destruct (w <? 16); simpl; [lia|].
  rewrite length_app. simpl. specialize (IH (w `div` 16)). lia.
Qed.

Lemma length_put_hex (c : ascii) (w : Z) : length (put_hex 8 c w) = 8%nat.
Proof.
  unfold put_hex. rewrite length_app, length_replicate.
  pose proof (length_hex_digits 8 w). lia.
Qed.

Lemma hex_digit_is_hex (d : Z) : is_hex_digit (hex_digit d) = true.
Proof.
  unfold hex_digit. generalize (Z.to_nat d) as n. intros n.
  do 16 (destruct n as [|n]; [reflexivity|]). destruct n; reflexivity.
Qed.

Lemma hex_val_digit (d : Z) : 0 <= d < 16 -> hex_val (hex_digit d) = d.
Proof.
  intros Hd. unfold hex_digit. rewrite <- (Z2Nat.id d) at 2 by lia.
  assert (Hn : (Z.to_nat d < 16)%nat) by lia. revert Hn.
  generalize (Z.to_nat d) as n. intros n Hn.
  do 16 (destruct n as [|n]; [reflexivity|]). lia.
Qed.

Lemma hex_digits_are_hex (n : nat) (w : Z) :
  Forall (fun c => is_hex_digit c = true) (hex_digits n w).
Proof.
  revert w. induction n as [|n IH]; intros w; simpl; [constructor|].
  destruct (w <? 16).
  - constructor; [apply hex_digit_is_hex|constructor].
  - apply Forall_app. split; [apply IH|].
    constructor; [apply hex_digit_is_hex|constructor].
Qed.

Lemma put_hex_is_hex (w : Z) :
  Forall (fun c => is_hex_digit c = true) (put_hex 8 "0"%char w).
Proof.
  unfold put_hex. apply Forall_app. split; [|apply hex_digits_are_hex].
  apply Forall_replicate. reflexivity.
Qed.

Lemma hex_value_snoc (cs : list ascii) (c : ascii) :
  hex_value (cs ++ [c]) = hex_value cs * 16 + hex_val c.
Proof. unfold hex_value. now rewrite fold_left_app. Qed.

Lemma hex_value_digits (n : nat) (w : Z) :
  0 <= w < 16 ^ Z.of_nat n -> hex_value (hex_digits n w) = w.
Proof.
  revert w. induction n as [|n IH]; intros w Hw.
  - simpl in *. unfold hex_value. simpl. lia.
  - cbn [hex_digits]. destruct (Z.ltb_spec w 16) as [Hlt|Hge].
    + unfold hex_value. simpl. rewrite hex_val_digit; lia.
    + rewrite hex_value_snoc, IH.
      * rewrite hex_val_digit by (apply Z.mod_pos_bound; lia).
        pose proof (Z.div_mod w 16 ltac:(lia)). lia.
      * rewrite Nat2Z.inj_succ, Z.pow_succ_r in Hw by lia.
        split; [apply Z.div_pos; lia|]. apply Z.div_lt_upper_bound; lia.
Qed.

Lemma hex_value_leading_zeros (k : nat) (cs : list ascii) :
  hex_value (replicate k "0"%char ++ cs) = hex_value cs.
Proof.
  unfold hex_value. rewrite fold_left_app. f_equal.
  induction k as [|k IH]; simpl; [reflexivity|exact IH].
Qed.

(** The eight characters that [printHash] writes for a word read back
    as the word. *)
Lemma hex_value_put_hex (w : Z) : word w -> hex_value (put_hex 8 "0"%char w) = w.
Proof.
  intros Hw. unfold put_hex. rewrite hex_value_leading_zeros.
  apply hex_value_digits. unfold word in Hw. change (16 ^ Z.of_nat 8) with (2 ^ 32). exact Hw.
Qed.

Lemma list_bind_cons {A B : Type} (f : A -> list B) (x : A) (l : list A) :
  (x :: l) ≫= f = f x ++ (l ≫= f).
Proof. reflexivity. Qed.

Lemma list_bind_nil {A B : Type} (f : A -> list B) : [] ≫= f = [].
Proof. reflexivity. Qed.

Lemma printHash_value (H : list (list Z)) (N : Z) (d : list Z) :
  0 <= N < 2 ^ 64 -> H !! Z.to_nat N = Some d -> length d = 8%nat ->
  printHash H N = Ok (rendering d).
Proof.
  intros HN HH Hd.
  destruct d as [|d0 [|d1 [|d2 [|d3 [|d4 [|d5 [|d6 [|d7 [|x d]]]]]]]]]; try discriminate.
  unfold printHash, for_. change (seqZ 0 (8 - 0)) with [0; 1; 2; 3; 4; 5; 6; 7].
  cbn [for_each]. unfold printHash_body.
  rewrite (at2_lookup H _ N 0 d0 HN ltac:(lia) HH eq_refl).
  rewrite (at2_lookup H _ N 1 d1 HN ltac:(lia) HH eq_refl).
  rewrite (at2_lookup H _ N 2 d2 HN ltac:(lia) HH eq_refl).
  rewrite (at2_lookup H _ N 3 d3 HN ltac:(lia) HH eq_refl).
  rewrite (at2_lookup H _ N 4 d4 HN ltac:(lia) HH eq_refl).
  rewrite (at2_lookup H _ N 5 d5 HN ltac:(lia) HH eq_refl).
  rewrite (at2_lookup H _ N 6 d6 HN ltac:(lia) HH eq_refl).
  rewrite (at2_lookup H _ N 7 d7 HN ltac:(lia) HH eq_refl).
  cbn [bind]. unfold rendering.
  rewrite !list_bind_cons, list_bind_nil, app_nil_r, app_nil_l, <- !app_assoc.
  reflexivity.
Qed.

Lemma length_rendering (d : list Z) :
  length d = 8%nat ->
  exists out, rendering d = out ++ [newline] /\ length out = 64%nat /\
              Forall (fun c => is_hex_digit c = true) out.
Proof.
  intros Hd.
  destruct d as [|d0 [|d1 [|d2 [|d3 [|d4 [|d5 [|d6 [|d7 [|x d]]]]]]]]]; try discriminate.
  unfold rendering. eexists. split; [reflexivity|].
  rewrite !list_bind_cons, list_bind_nil, app_nil_r. split.
  - rewrite !length_app, !length_put_hex. reflexivity.
  - rewrite !Forall_app. repeat split; apply put_hex_is_hex.
Qed.

(** * The pipeline *)

(** What the parser has accepted. *)
Lemma parsingMessage_Ok_inv (bytes : list byte) (M : list (list Z)) :
  parsingMessage bytes = Ok M ->
  M = blocks_of bytes /\ 64 * (size bytes `div` 64) <= INT_MAX.
Proof.
  intros H. destruct (Z.le_gt_cases (64 * (size bytes `div` 64)) INT_MAX) as [Hle|Hgt].
  - rewrite parsingMessage_value in H by exact Hle. injection H as <-. now split.
  - rewrite parsingMessage_overflow in H by lia. discriminate.
Qed.

Lemma blocks_of_blocks (bytes : list byte) :
  Forall (fun block => length block = 16%nat) (blocks_of bytes).
Proof.
  unfold blocks_of. apply Forall_fmap, Forall_forall. intros n _. reflexivity.
Qed.

Lemma parsed_blocks (bytes : list byte) (M : list (list Z)) :
  parsingMessage bytes = Ok M ->
  Forall (fun block => length block = 16%nat) M /\ size M < INT_MAX.
Proof.
  intros H. apply parsingMessage_Ok_inv in H as [-> Hle].
  split; [apply blocks_of_blocks|].
  rewrite size_blocks_of. unfold INT_MAX in *. lia.
Qed.

Lemma chain_final (M : list (list Z)) :
  Spec.chain H0 M !! length M = Some (final_state M).
Proof.
  unfold final_state. rewrite last_lookup, length_chain. simpl.
  destruct (lookup_lt_is_Some_2 (Spec.chain H0 M) (length M)) as [d Hd].
  { rewrite length_chain. lia. }
  now rewrite Hd.
Qed.

Lemma hash_value_final (M : list (list Z)) : hash_value (final_state M).
Proof.
  pose proof (chain_hash_values H0 M hash_value_H0) as HF.
  rewrite Forall_lookup in HF. exact (HF _ _ (chain_final M)).
Qed.

(** [getHash], the digest and the printed line on parsed blocks. *)
Lemma run_parsed (gl : Globals.t) (bytes : list byte) (M : list (list Z)) :
  Globals.wf gl -> parsingMessage bytes = Ok M ->
  exists gl',
    getHash gl M = Ok (gl', Spec.chain H0 M) /\ Globals.wf gl' /\
    at_ (Spec.chain H0 M) (to_int (size M)) = Ok (final_state M) /\
    printHash (Spec.chain H0 M) (to_int (size M)) = Ok (rendering (final_state M)).
Proof.
  intros Hwf Hp. destruct (parsed_blocks bytes M Hp) as [Hb Hs].
  destruct (getHash_value M Hb Hs gl Hwf) as (gl' & Hg & Hwf').
  exists gl'. split; [exact Hg|]. split; [exact Hwf'|].
  rewrite (to_int_size M Hs).
  assert (Hn : 0 <= size M < 2 ^ 64) by (unfold size, INT_MAX in *; lia).
  assert (Hl : Spec.chain H0 M !! Z.to_nat (size M) = Some (final_state M)).
  { unfold size. rewrite Nat2Z.id. apply chain_final. }
  split.
  - now apply at_lookup.
  - apply printHash_value; [exact Hn|exact Hl|]. apply hash_value_final.
Qed.

(** The digest and the printed line do not depend on the scratch state
    found on entry, whatever the message. *)
Lemma run_independent (gl1 gl2 : Globals.t) (message : list byte) :
  Globals.wf gl1 -> Globals.wf gl2 ->
  digest gl1 message = digest gl2 message /\
  outcome_of snd (main_step gl1 message) = outcome_of snd (main_step gl2 message).
Proof.
  intros H1 H2. unfold digest, main_step.
  destruct (paddingMessage message) as [padded| |]; cbn [bind]; [|now split ..].
  destruct (parsingMessage padded) as [M| |] eqn:E; cbn [bind]; [|now split ..].
  destruct (run_parsed gl1 padded M H1 E) as (gl1' & Hg1 & _ & Ha1 & Hp1).
  destruct (run_parsed gl2 padded M H2 E) as (gl2' & Hg2 & _ & Ha2 & Hp2).
  rewrite Hg1, Hg2. cbn [bind]. rewrite Hp1. cbn [bind outcome_of snd].
  now split.
Qed.

Lemma main_step_wf (gl gl' : Globals.t) (message : list byte) (out : list ascii) :
  Globals.wf gl -> main_step gl message = Ok (gl', out) -> Globals.wf gl'.
Proof.
  intros Hwf. unfold main_step.
  destruct (paddingMessage message) as [padded| |]; cbn [bind]; [|discriminate ..].
  destruct (parsingMessage padded) as [M| |] eqn:E; cbn [bind]; [|discriminate ..].
  destruct (run_parsed gl padded M Hwf E) as (gl1 & Hg & Hwf1 & _ & Hp).
  rewrite Hg. cbn [bind]. rewrite Hp. cbn [bind]. intros H. injection H as <- _.
  exact Hwf1.
Qed.

(** The whole pipeline on a message that the parser can index. *)
Lemma run_value (gl : Globals.t) (message : list byte) :
  Globals.wf gl -> size message + 73 <= 2 ^ 31 ->
  exists padded gl',
    paddingMessage message = Ok padded /\
    parsingMessage padded = Ok (blocks_of padded) /\
    digest gl message = Ok (final_state (blocks_of padded)) /\
    main_step gl message = Ok (gl', rendering (final_state (blocks_of padded))) /\
    Globals.wf gl'.
Proof.
  intros Hwf Hfit.
  destruct (padded_blocks message Hfit) as (padded & Hp & _ & Hq & _).
  destruct (run_parsed gl padded _ Hwf Hq) as (gl' & Hg & Hwf' & Ha & Hr).
  exists padded, gl'. split; [exact Hp|]. split; [exact Hq|].
  unfold digest, main_step. rewrite Hp. cbn [bind]. rewrite Hq. cbn [bind].
  rewrite Hg. cbn [bind]. rewrite Hr. cbn [bind].
  split; [exact Ha|]. split; [reflexivity|exact Hwf'].
Qed.

(** Past [2 ^ 31 - 73] bytes the pipeline has no defined outcome. *)
Lemma run_overflow (gl : Globals.t) (message : list byte) :
  2 ^ 31 - 72 <= size message -> 8 * size message + 65 <= 2 ^ 63 ->
  digest gl message = UB signed_overflow /\
  main_step gl message = UB signed_overflow.
Proof.
  intros Hbig Hfit.
  destruct (size_padded message Hfit) as (padded & Hp & Hs).
  assert (Ho : parsingMessage padded = UB signed_overflow).
  { apply parsingMessage_overflow. rewrite Hs.
    rewrite (Z.mul_comm 64 ((size message + 8) `div` 64 + 1)), Z.div_mul by lia.
    unfold INT_MAX.
    Z.div_mod_to_equations. lia. }
  unfold digest, main_step. rewrite Hp. cbn [bind]. rewrite Ho. now split.
Qed.

(** ** The schedule of the specification, word by word *)

Lemma W_extend_S (n : nat) (w : list Z) :
  Spec.W_extend (Datatypes.S n) w =
  Spec.W_extend n w ++ [Spec.W_next (Spec.W_extend n w)].
Proof. reflexivity. Qed.

Lemma W_extend_take (n m : nat) (w : list Z) :
  take (length w + n) (Spec.W_extend (n + m) w) = Spec.W_extend n w.
Proof.
  induction m as [|m IH].
  - rewrite Nat.add_0_r. apply take_ge. rewrite length_W_extend. lia.
  - rewrite Nat.add_succ_r, W_extend_S.
    rewrite take_app_le by (rewrite length_W_extend; lia). exact IH.
Qed.

Lemma schedule_words (block : list Z) :
  length block = 16%nat ->
  length (Spec.schedule block) = 64%nat /\
  (forall t : nat, (t < 16)%nat -> Spec.schedule block !! t = block !! t) /\
  (forall t : nat, (16 <= t < 64)%nat ->
     Spec.schedule block !! t =
     Some ((Spec.sigma1 (Spec.schedule block !!! (t - 2)%nat) +
            Spec.schedule block !!! (t - 7)%nat +
            Spec.sigma0 (Spec.schedule block !!! (t - 15)%nat) +
            Spec.schedule block !!! (t - 16)%nat) `mod` 2 ^ 32)).
Proof.
  intros Hb. split; [now apply length_schedule|].
  unfold Spec.schedule. split.
  - intros t Ht.
    pose proof (W_extend_take 0 48 block) as H. rewrite Nat.add_0_r in H.
    cbn [Spec.W_extend] in H. change (0 + 48)%nat with 48%nat in H.
    rewrite <- H at 2. rewrite lookup_take_lt by lia. reflexivity.
  - intros t Ht.
    pose proof (W_extend_take (t - 16) (48 - (t - 16)) block) as Hpre.
    pose proof (W_extend_take (Datatypes.S (t - 16)) (48 - Datatypes.S (t - 16)) block) as Hnext.
    replace (t - 16 + (48 - (t - 16)))%nat with 48%nat in Hpre by lia.
    replace (Datatypes.S (t - 16) + (48 - Datatypes.S (t - 16)))%nat with 48%nat in Hnext by lia.
    rewrite Hb in Hpre, Hnext.
    replace (16 + (t - 16))%nat with t in Hpre by lia.
    replace (16 + Datatypes.S (t - 16))%nat with (Datatypes.S t) in Hnext by lia.
    rewrite (W_extend_S (t - 16)), <- Hpre in Hnext.
    set (full := Spec.W_extend 48 block) in *.
    assert (Hlen : length (take t full) = t).
    { rewrite length_take. unfold full. rewrite length_W_extend. lia. }
    assert (Ht' : full !! t = Some (Spec.W_next (take t full))).
    { rewrite <- (lookup_take_lt full (Datatypes.S t) t) by lia. rewrite Hnext.
      rewrite lookup_app_r by lia. rewrite Hlen, Nat.sub_diag. reflexivity. }
    rewrite Ht'. unfold Spec.W_next. rewrite Hlen.
    rewrite !lookup_total_take_lt by lia. reflexivity.
Qed.

(** * The compressor against the specification *)

Lemma length_fold_round (l : list (Z * Z)) (H : list Z) :
  length H = 8%nat -> length (fold_left Spec.round l H) = 8%nat.
Proof.
  revert H. induction l as [|kw l IH]; intros H HH; simpl; [exact HH|].
  apply IH. now apply length_Spec_round.
Qed.

Lemma list_of_length_8 (r : list Z) :
  length r = 8%nat -> exists a b c d e f g h, r = [a; b; c; d; e; f; g; h].
Proof.
  intros H.
  destruct r as [|a [|b [|c [|d [|e [|f [|g [|h [|x r]]]]]]]]]; try discriminate.
  eauto 10.
Qed.

Lemma compress_unfold (H block : list Z) :
  Spec.compress H block =
  zip_with (fun x y => (x + y) `mod` 2 ^ 32) H
    (fold_left Spec.round (zip K (Spec.schedule block)) H).
Proof. reflexivity. Qed.

Lemma round_trace_lookup (W H : list Z) (t : nat) :
  (t < 65)%nat ->
  round_trace W H !! t = Some (fold_left Spec.round (take t (zip K W)) H).
Proof.
  intros Ht. unfold round_trace. rewrite list_lookup_fmap, lookup_seq_lt by lia.
  reflexivity.
Qed.

(** C2: on every sequence of parsed blocks, [getHash] returns the chain
    of running states of the specification: it starts from the fixed
    initial value; each next state is the previous one plus, word by
    word modulo [2 ^ 32], the registers after 64 rounds started from the
    previous state; round [t] uses [K[t]] and [W[t]] in [T1 = h +
    Sigma1(e) + Ch(e,f,g) + K[t] + W[t]] and [T2 = Sigma0(a) +
    Maj(a,b,c)] and shifts the registers; [W[0..15]] is the block and
    [W[t] = sigma1(W[t-2]) + W[t-7] + sigma0(W[t-15]) + W[t-16]] modulo
    [2 ^ 32] for [t] in 16..63. *)
Theorem getHash_compresses (gl : Globals.t) (bytes : list byte) (M : list (list Z)) :
  Globals.wf gl -> parsingMessage bytes = Ok M ->
  exists gl' Hash,
    getHash gl M = Ok (gl', Hash) /\
    length Hash = Datatypes.S (length M) /\
    Hash !! 0%nat = Some H0 /\
    (forall (i : nat) (H block : list Z),
        Hash !! i = Some H -> M !! i = Some block ->
        exists W R,
          (* the message schedule of the block *)
          length W = 64%nat /\
          (forall t : nat, (t < 16)%nat -> W !! t = block !! t) /\
          (forall t : nat, (16 <= t < 64)%nat ->
             W !! t =
             Some ((Spec.sigma1 (W !!! (t - 2)%nat) + W !!! (t - 7)%nat +
                    Spec.sigma0 (W !!! (t - 15)%nat) + W !!! (t - 16)%nat)
                   `mod` 2 ^ 32)) /\
          (* the registers before and after each round *)
          length R = 65%nat /\ R !! 0%nat = Some H /\
          (forall t : nat, (t < 64)%nat ->
             exists a b c d e f g h k w,
               R !! t = Some [a; b; c; d; e; f; g; h] /\
               K !! t = Some k /\ W !! t = Some w /\
               let T1 := (h + Spec.Sigma1 e + Spec.Ch e f g + k + w) `mod` 2 ^ 32 in
               let T2 := (Spec.Sigma0 a + Spec.Maj a b c) `mod` 2 ^ 32 in
               R !! Datatypes.S t =
               Some [(T1 + T2) `mod` 2 ^ 32; a; b; c; (d + T1) `mod` 2 ^ 32; e; f; g]) /\
          (* the state fold *)
          exists a b c d e f g h h0 h1 h2 h3 h4 h5 h6 h7,
            R !! 64%nat = Some [a; b; c; d; e; f; g; h] /\
            H = [h0; h1; h2; h3; h4; h5; h6; h7] /\
            Hash !! Datatypes.S i =
            Some [ (h0 + a) `mod` 2 ^ 32; (h1 + b) `mod` 2 ^ 32;
                   (h2 + c) `mod` 2 ^ 32; (h3 + d) `mod` 2 ^ 32;
                   (h4 + e) `mod` 2 ^ 32; (h5 + f) `mod` 2 ^ 32;
                   (h6 + g) `mod` 2 ^ 32; (h7 + h) `mod` 2 ^ 32 ]).
Proof.
  intros Hwf Hp.
  destruct (run_parsed gl bytes M Hwf Hp) as (gl' & Hg & _).
  destruct (parsed_blocks bytes M Hp) as [Hb _].
  exists gl', (Spec.chain H0 M).
  split; [exact Hg|]. split; [apply length_chain|]. split; [apply chain_lookup_0|].
  intros i H block HH HM.
  assert (Hbl : length block = 16%nat).
  { rewrite Forall_lookup in Hb. exact (Hb i block HM). }
  assert (Hgood : hash_value H).
  { pose proof (chain_hash_values H0 M hash_value_H0) as HF.
    rewrite Forall_lookup in HF. exact (HF i H HH). }
  destruct Hgood as [HH8 _].
  pose proof (chain_lookup_S H0 M i H block HH HM) as Hnext.
  rewrite compress_unfold in Hnext.
  destruct (schedule_words block Hbl) as (HWl & HW0 & HW1).
  remember (Spec.schedule block) as W eqn:EW. clear EW.
  exists W, (round_trace W H).
  split; [exact HWl|]. split; [exact HW0|]. split; [exact HW1|].
  split; [reflexivity|]. split; [now rewrite round_trace_lookup by lia|].
  split.
  - intros t Ht.
    destruct (list_of_length_8 (fold_left Spec.round (take t (zip K W)) H))
      as (a & b & c & d & e & f & g & h & Er); [now apply length_fold_round|].
    destruct (lookup_lt_is_Some_2 K t ltac:(change (length K) with 64%nat; lia)) as [k Hk].
    destruct (lookup_lt_is_Some_2 W t ltac:(lia)) as [w Hw].
    exists a, b, c, d, e, f, g, h, k, w.
    rewrite !round_trace_lookup by lia. rewrite Er.
    split; [reflexivity|]. split; [exact Hk|]. split; [exact Hw|].
    cbv zeta.
    assert (Hz : zip K W !! t = Some (k, w)).
    { rewrite lookup_zip_with, Hk, Hw. reflexivity. }
    rewrite (take_S_r _ _ _ Hz), fold_left_app, Er. reflexivity.
  - destruct (list_of_length_8 (fold_left Spec.round (zip K W) H))
      as (a & b & c & d & e & f & g & h & Er); [now apply length_fold_round|].
    destruct (list_of_length_8 H HH8)
      as (h0 & h1 & h2 & h3 & h4 & h5 & h6 & h7 & EH).
    exists a, b, c, d, e, f, g, h, h0, h1, h2, h3, h4, h5, h6, h7.
    rewrite round_trace_lookup by lia.
    rewrite take_ge by (rewrite length_zip_with, HWl; change (length K) with 64%nat; lia).
    split; [now rewrite Er|]. split; [exact EH|].
    rewrite Hnext, Er, EH. reflexivity.
Qed.

Lemma getHash_compresses_witness :
  Globals.wf Globals.initial /\
  parsingMessage (replicate 64 x00) = Ok [replicate 16 0] /\
  exists gl' Hash,
    getHash Globals.initial [replicate 16 0] = Ok (gl', Hash) /\
    length Hash = 2%nat /\ Hash !! 0%nat = Some H0.
Proof.
  assert (Hwf : Globals.wf Globals.initial) by reflexivity.
  assert (Hp : parsingMessage (replicate 64 x00) = Ok [replicate 16 0])
    by (vm_compute; reflexivity).
  split; [exact Hwf|]. split; [exact Hp|].
  destruct (getHash_compresses Globals.initial (replicate 64 x00) [replicate 16 0] Hwf Hp)
    as (gl' & Hash & Hg & Hl & H0' & _).
  exists gl', Hash. repeat split; assumption.
Defined.

(** * The word functions against the specification *)



(** C9: the sigma functions, the only callers of [ROTR], call it with
    the amounts 2, 6, 7, 11, 13, 17, 18, 19, 22 and 25 and no other; for
    each of them both shift amounts [n] and [32 - n] are in 0..31, so
    [ROTR] is defined and is the rotation of the 32 bits of [x] by [n]
    places to the right; no sigma function runs into an undefined
    shift. *)
Theorem ROTR_amounts_in_range :
  rotation_amounts = [2; 6; 7; 11; 13; 17; 18; 19; 22; 25] /\
  (forall (rotr rotr' shr : Z -> Z -> result Z) (x : Z),
      (forall n, n ∈ rotation_amounts -> rotr n x = rotr' n x) ->
      capitalSigma_0_with rotr x = capitalSigma_0_with rotr' x /\
      capitalSigma_1_with rotr x = capitalSigma_1_with rotr' x /\
      lowercaseSigma0_with rotr shr x = lowercaseSigma0_with rotr' shr x /\
      lowercaseSigma1_with rotr shr x = lowercaseSigma1_with rotr' shr x) /\
  Forall (fun n => 0 < n < 32 /\ shift_ok n = true /\ shift_ok (sub_uint 32 n) = true)
    rotation_amounts /\
  (forall n x, n ∈ rotation_amounts -> word x ->
      exists r, ROTR n x = Ok r /\ word r /\
                forall i, 0 <= i < 32 -> Z.testbit r i = Z.testbit x ((i + n) `mod` 32)) /\
  (forall x, exists r0 r1 r2 r3,
      capitalSigma_0 x = Ok r0 /\ capitalSigma_1 x = Ok r1 /\
      lowercaseSigma0 x = Ok r2 /\ lowercaseSigma1 x = Ok r3).
Proof.
  split; [reflexivity|]. split; [exact sigma_with_ext|].
  split; [exact rotation_amounts_in_range|]. split.
  - intros n x Hn Hx.
    assert (Hr : 0 < n < 32).
    { pose proof rotation_amounts_in_range as HF. rewrite Forall_forall in HF.
      apply (HF n Hn). }
    exists (Spec.ROTR n x). split; [now apply ROTR_spec|].
    split; [apply word_Spec_ROTR; [assumption|lia]|].
    intros i Hi. now apply Spec_ROTR_bits.
  - intros x. exists (Spec.Sigma0 x), (Spec.Sigma1 x), (Spec.sigma0 x), (Spec.sigma1 x).
    split; [apply capitalSigma_0_Ok|]. split; [apply capitalSigma_1_Ok|].
    split; [apply lowercaseSigma0_Ok|]. apply lowercaseSigma1_Ok.
Qed.

Lemma ROTR_amounts_in_range_witness :
  25 ∈ rotation_amounts /\ word 0x80000001 /\
  exists r, ROTR 25 0x80000001 = Ok r /\ word r /\
            forall i, 0 <= i < 32 ->
                      Z.testbit r i = Z.testbit 0x80000001 ((i + 25) `mod` 32).
Proof.
  assert (Hn : 25 ∈ rotation_amounts)
    by (apply list_elem_of_In; simpl; auto 20).
  assert (Hx : word 0x80000001) by (unfold word; lia).
  split; [exact Hn|]. split; [exact Hx|].
  exact (proj1 (proj2 (proj2 (proj2 ROTR_amounts_in_range))) 25 _ Hn Hx).
Defined.

(** * Known answers *)

(** C1: padding, parsing and compressing the empty message gives the
    digest e3b0c442 .. 7852b855, and the three bytes 0x61 0x62 0x63 give
    ba7816bf .. f20015ad; [main] prints them as such. *)
Theorem known_answers (gl : Globals.t) :
  Globals.wf gl ->
  digest gl [] =
    Ok [ 0xe3b0c442; 0x98fc1c14; 0x9afbf4c8; 0x996fb924;
         0x27ae41e4; 0x649b934c; 0xa495991b; 0x7852b855 ] /\
  (exists gl',
      main_step gl [] =
      Ok (gl',
          list_ascii_of_string
            "e3b0c44298fc1c149afbf4c8996fb92427ae41e4649b934ca495991b7852b855"
          ++ [newline])) /\
  digest gl [x61; x62; x63] =
    Ok [ 0xba7816bf; 0x8f01cfea; 0x414140de; 0x5dae2223;
         0xb00361a3; 0x96177a9c; 0xb410ff61; 0xf20015ad ] /\
  (exists gl',
      main_step gl [x61; x62; x63] =
      Ok (gl',
          list_ascii_of_string
            "ba7816bf8f01cfea414140de5dae2223b00361a396177a9cb410ff61f20015ad"
          ++ [newline])).
Proof.
  intros Hwf.
  destruct (run_value gl [] Hwf) as (p0 & gl0 & Hp0 & _ & Hd0 & Hm0 & _);
    [vm_compute; discriminate|].
  destruct (run_value gl [x61; x62; x63] Hwf) as (p1 & gl1 & Hp1 & _ & Hd1 & Hm1 & _);
    [vm_compute; discriminate|].
  vm_compute in Hp0. injection Hp0 as <-.
  vm_compute in Hp1. injection Hp1 as <-.
  rewrite Hd0, Hd1, Hm0, Hm1.
  split; [vm_compute; reflexivity|].
  split.
  { exists gl0. apply (f_equal (fun s => Ok (gl0, s))). vm_compute. reflexivity. }
  split; [vm_compute; reflexivity|].
  exists gl1. apply (f_equal (fun s => Ok (gl1, s))). vm_compute. reflexivity.
Qed.

Lemma known_answers_witness :
  Globals.wf Globals.initial /\
  digest Globals.initial [] =
    Ok [ 0xe3b0c442; 0x98fc1c14; 0x9afbf4c8; 0x996fb924;
         0x27ae41e4; 0x649b934c; 0xa495991b; 0x7852b855 ] /\
  digest Globals.initial [x61; x62; x63] =
    Ok [ 0xba7816bf; 0x8f01cfea; 0x414140de; 0x5dae2223;
         0xb00361a3; 0x96177a9c; 0xb410ff61; 0xf20015ad ].
Proof.
  assert (Hwf : Globals.wf Globals.initial) by reflexivity.
  destruct (known_answers Globals.initial Hwf) as (H0 & _ & H1 & _).
  split; [exact Hwf|]. split; [exact H0|exact H1].
Defined.

(** * No state carried from one message to the next *)

(** C7: the digest and the printed line are the same from every
    well-formed content of the globals [W], [a] .. [h], [T1], [T2]; so
    two runs on one message agree (and do give a digest on a message the
    parser can index), and a run on [m2] that follows a run on [m1]
    gives what a run on [m2] alone gives.  Every chain that [getHash]
    returns starts from the constant [H0]; the table [K] is not part of
    the state that a run can change. *)
Theorem no_state_leak (gl1 gl2 : Globals.t) (m : list byte) :
  Globals.wf gl1 -> Globals.wf gl2 ->
  digest gl1 m = digest gl2 m /\
  outcome_of snd (main_step gl1 m) = outcome_of snd (main_step gl2 m) /\
  (size m + 73 <= 2 ^ 31 ->
   exists d, digest gl1 m = Ok d /\ digest gl2 m = Ok d) /\
  (forall gl1' out m2,
      main_step gl1 m = Ok (gl1', out) ->
      Globals.wf gl1' /\
      digest gl1' m2 = digest gl2 m2 /\
      outcome_of snd (main_step gl1' m2) = outcome_of snd (main_step gl2 m2)) /\
  (forall bytes M gl' Hash,
      parsingMessage bytes = Ok M -> getHash gl1 M = Ok (gl', Hash) ->
      Hash !! 0%nat = Some H0).
Proof.
  intros H1 H2.
  destruct (run_independent gl1 gl2 m H1 H2) as [Hd Ho].
  split; [exact Hd|]. split; [exact Ho|]. split; [|split].
  - intros Hfit.
    destruct (run_value gl1 m H1 Hfit) as (padded & gl' & _ & _ & Hd1 & _).
    exists (final_state (blocks_of padded)). split; [exact Hd1|].
    now rewrite <- Hd.
  - intros gl1' out m2 Hm.
    pose proof (main_step_wf gl1 gl1' m out H1 Hm) as H1'.
    split; [exact H1'|]. now apply run_independent.
  - intros bytes M gl' Hash Hp Hg.
    destruct (run_parsed gl1 bytes M H1 Hp) as (gl & Hg' & _).
    rewrite Hg' in Hg. injection Hg as _ <-. apply chain_lookup_0.
Qed.

Lemma no_state_leak_witness :
  Globals.wf Globals.initial /\
  (forall gl1' out m2,
      main_step Globals.initial [x61] = Ok (gl1', out) ->
      Globals.wf gl1' /\
      digest gl1' m2 = digest Globals.initial m2 /\
      outcome_of snd (main_step gl1' m2) = outcome_of snd (main_step Globals.initial m2)).
Proof.
  assert (Hwf : Globals.wf Globals.initial) by reflexivity.
  split; [exact Hwf|].
  exact (proj1 (proj2 (proj2 (proj2
           (no_state_leak Globals.initial Globals.initial [x61] Hwf Hwf))))).
Defined.

(** * The shape of the digest *)

Lemma length_digest_bytes (d : list Z) :
  length d = 8%nat -> length (digest_bytes d) = 32%nat.
Proof.
  intros H.
  destruct d as [|d0 [|d1 [|d2 [|d3 [|d4 [|d5 [|d6 [|d7 [|x d]]]]]]]]]; try discriminate.
  reflexivity.
Qed.

Lemma be_value_be_bytes32 (w : Z) : word w -> be_value (be_bytes32 w) = w.
Proof.
  intros Hw. unfold word in Hw. unfold be_value, be_bytes32. simpl fold_left.
  rewrite !byte_val_of, !Z.shiftr_div_pow2 by lia.
  assert (S : forall m, 0 <= m ->
            w `div` 2 ^ m = 256 * (w `div` 2 ^ (m + 8)) + (w `div` 2 ^ m) `mod` 256).
  { intros m Hm. rewrite Z.pow_add_r, <- Z.div_div by lia.
    change (2 ^ 8) with 256. apply Z.div_mod. lia. }
  pose proof (S 16 ltac:(lia)) as S16. pose proof (S 8 ltac:(lia)) as S8.
  pose proof (S 0 ltac:(lia)) as S0.
  change (2 ^ 0) with 1 in S0. rewrite Z.div_1_r in S0.
  change (16 + 8) with 24 in S16. change (8 + 8) with 16 in S8.
  change (0 + 8) with 8 in S0.
  assert (T : (w `div` 2 ^ 24) `mod` 256 = w `div` 2 ^ 24).
  { apply Z.mod_small. split; [apply Z.div_pos; lia|].
    apply Z.div_lt_upper_bound; lia. }
  rewrite T. lia.
Qed.

(** C8, amended: for every input of at most [2 ^ 31 - 73] bytes,
    the empty one included, the digest is made of exactly 8 unsigned
    32-bit words, that is 32 bytes, and [printHash] renders it as 64
    hexadecimal characters, eight for each word, followed by a new
    line. *)
Theorem digest_shape (gl : Globals.t) (m : list byte) :
  Globals.wf gl -> size m + 73 <= 2 ^ 31 ->
  exists d out gl',
    digest gl m = Ok d /\
    length d = 8%nat /\ Forall word d /\
    length (digest_bytes d) = 32%nat /\
    Forall (fun w => be_value (be_bytes32 w) = w) d /\
    main_step gl m = Ok (gl', out ++ [newline]) /\
    length out = 64%nat /\
    Forall (fun c => is_hex_digit c = true) out /\
    out = d ≫= put_hex 8 "0"%char /\
    Forall (fun w => length (put_hex 8 "0"%char w) = 8%nat /\
                     hex_value (put_hex 8 "0"%char w) = w) d.
Proof.
  intros Hwf Hfit.
  destruct (run_value gl m Hwf Hfit) as (padded & gl' & _ & _ & Hd & Hm & _).
  pose proof (hash_value_final (blocks_of padded)) as [Hl Hw].
  destruct (length_rendering _ Hl) as (out & Ho & Hlo & Hho).
  exists (final_state (blocks_of padded)), out, gl'.
  split; [exact Hd|]. split; [exact Hl|]. split; [exact Hw|].
  split; [now apply length_digest_bytes|].
  split.
  { apply Forall_forall. intros w Hin. apply be_value_be_bytes32.
    rewrite Forall_forall in Hw. now apply Hw. }
  split; [now rewrite <- Ho|]. split; [exact Hlo|]. split; [exact Hho|].
  split.
  - unfold rendering in Ho. now apply app_inj_tail in Ho as [Ho _].
  - apply Forall_forall. intros w Hin. split; [apply length_put_hex|].
    apply hex_value_put_hex. rewrite Forall_forall in Hw. now apply Hw.
Qed.

Lemma digest_shape_witness :
  Globals.wf Globals.initial /\ size (@nil byte) + 73 <= 2 ^ 31 /\
  exists d out gl',
    digest Globals.initial [] = Ok d /\
    length d = 8%nat /\ Forall word d /\
    length (digest_bytes d) = 32%nat /\
    main_step Globals.initial [] = Ok (gl', out ++ [newline]) /\
    length out = 64%nat.
Proof.
  assert (Hwf : Globals.wf Globals.initial) by reflexivity.
  assert (Hs : size (@nil byte) + 73 <= 2 ^ 31) by (vm_compute; discriminate).
  split; [exact Hwf|]. split; [exact Hs|].
  destruct (digest_shape Globals.initial [] Hwf Hs)
    as (d & out & gl' & Hd & Hl & Hw & Hb & _ & Hm & Ho & _).
  exists d, out, gl'. repeat split; assumption.
Defined.

(** C8 as stated fails: on a message of [2 ^ 31] bytes there is no
    digest, since the [int] index of [parsingMessage] overflows. *)
Lemma digest_not_total :
  digest Globals.initial (replicate (Z.to_nat (2 ^ 31)) x00) = UB signed_overflow /\
  main_step Globals.initial (replicate (Z.to_nat (2 ^ 31)) x00) = UB signed_overflow /\
  ~ exists d, digest Globals.initial (replicate (Z.to_nat (2 ^ 31)) x00) = Ok d.
Proof.
  assert (Hs : size (replicate (Z.to_nat (2 ^ 31)) x00) = 2 ^ 31)
    by (apply size_replicate; lia).
  destruct (run_overflow Globals.initial (replicate (Z.to_nat (2 ^ 31)) x00))
    as [Hd Hm]; [rewrite Hs; lia | rewrite Hs; lia |].
  split; [exact Hd|]. split; [exact Hm|].
  intros [d H]. rewrite Hd in H. discriminate.
Qed.

(** * Input handling *)

(** ** [std::stoi] on two characters *)

Lemma all_chars_complete (c : ascii) : In c all_chars.
Proof.
  unfold all_chars. rewrite <- (ascii_nat_embedding c).
  apply in_map, in_seq. pose proof (nat_ascii_bounded c). lia.
Qed.

Lemma stoi_agrees_all (c1 c2 : ascii) : stoi_agrees c1 c2 = true.
Proof.
  assert (H : forallb (fun a => forallb (stoi_agrees a) all_chars) all_chars = true)
    by (vm_compute; reflexivity).
  rewrite forallb_forall in H. specialize (H c1 (all_chars_complete c1)).
  rewrite forallb_forall in H. exact (H c2 (all_chars_complete c2)).
Qed.

Lemma stoi_pair (c1 c2 : ascii) :
  stoi [c1; c2] =
  match pair_value c1 c2 with
  | Some v => inr v
  | None => inl invalid_argument
  end.
Proof.
  pose proof (stoi_agrees_all c1 c2) as H. unfold stoi_agrees in H.
  destruct (stoi [c1; c2]) as [[|]|v], (pair_value c1 c2) as [w|];
    try discriminate; [reflexivity|].
  apply Z.eqb_eq in H. now subst.
Qed.

(** ** Decoding by pairs *)

Lemma pairs_ind {A : Type} (P : list A -> Prop) :
  P [] -> (forall x, P [x]) -> (forall x y l, P l -> P (x :: y :: l)) ->
  forall l, P l.
Proof.
  intros H0 H1 H2.
  assert (H : forall l, P l /\ forall x, P (x :: l)).
  { induction l as [|y l [IH1 IH2]]; [split; auto|].
    split; [apply IH2|]. intros x. apply H2, IH1. }
  intros l. apply H.
Qed.

Lemma nat_pairs_ind (P : nat -> Prop) :
  P 0%nat -> P 1%nat -> (forall n, P n -> P (Datatypes.S (Datatypes.S n))) ->
  forall n, P n.
Proof.
  intros H0 H1 H2.
  assert (H : forall n, P n /\ P (Datatypes.S n)).
  { induction n as [|n [IH1 IH2]]; [split; auto|]. split; [exact IH2|]. now apply H2. }
  intros n. apply H.
Qed.

Lemma decode_pairs_cons (c1 c2 : ascii) (s : list ascii) :
  decode_pairs (c1 :: c2 :: s) =
  match pair_value c1 c2 with
  | None => inl invalid_argument
  | Some v =>
      match decode_pairs s with
      | inl e => inl e
      | inr bs => inr (byte_of v :: bs)
      end
  end.
Proof. reflexivity. Qed.

(** Only whole pairs are looked at. *)
Lemma decode_pairs_take (m : nat) (l : list ascii) :
  decode_pairs (take (2 * (m / 2)) l) = decode_pairs (take m l).
Proof.
  revert l. induction m as [| |m IH] using nat_pairs_ind; intros l.
  - reflexivity.
  - change (2 * (1 / 2))%nat with 0%nat. destruct l as [|x l]; reflexivity.
  - replace (2 * (Datatypes.S (Datatypes.S m) / 2))%nat
      with (Datatypes.S (Datatypes.S (2 * (m / 2)))).
    2:{ change (Datatypes.S (Datatypes.S m)) with (2 + m)%nat.
        replace (2 + m)%nat with (m + 1 * 2)%nat by lia.
        rewrite Nat.div_add by lia. lia. }
    destruct l as [|x [|y l]]; [reflexivity..|].
    cbn [take]. rewrite !decode_pairs_cons, IH. reflexivity.
Qed.

Lemma decode_pairs_whole (l : list ascii) :
  decode_pairs (take (2 * (length l / 2)) l) = decode_pairs l.
Proof. rewrite decode_pairs_take, firstn_all. reflexivity. Qed.

Lemma decode_pairs_odd_tail (l : list ascii) (c : ascii) :
  (length l mod 2 = 0)%nat -> decode_pairs (l ++ [c]) = decode_pairs l.
Proof.
  induction l as [|x|x y l IH] using pairs_ind; intros Hl.
  - reflexivity.
  - discriminate.
  - cbn [app]. rewrite !decode_pairs_cons, IH; [reflexivity|].
    cbn [length] in Hl. change (Datatypes.S (Datatypes.S (length l))) with (2 + length l)%nat in Hl.
    replace (2 + length l)%nat with (length l + 1 * 2)%nat in Hl by lia.
    now rewrite Nat.Div0.mod_add in Hl.
Qed.

Lemma decode_pairs_app (l1 l2 : list ascii) (bs : list byte) :
  (length l1 mod 2 = 0)%nat -> decode_pairs l1 = inr bs ->
  decode_pairs (l1 ++ l2) =
  match decode_pairs l2 with
  | inl e => inl e
  | inr bs' => inr (bs ++ bs')
  end.
Proof.
  revert bs. induction l1 as [|x|x y l IH] using pairs_ind; intros bs Hl Hd.
  - injection Hd as <-. cbn [app]. now destruct (decode_pairs l2).
  - discriminate.
  - cbn [app]. rewrite decode_pairs_cons in *.
    destruct (pair_value x y) as [v|]; [|discriminate].
    destruct (decode_pairs l) as [e|bs0] eqn:E; [discriminate|].
    injection Hd as <-.
    rewrite (IH bs0); [|
      cbn [length] in Hl;
      change (Datatypes.S (Datatypes.S (length l))) with (2 + length l)%nat in Hl;
      replace (2 + length l)%nat with (length l + 1 * 2)%nat in Hl by lia;
      now rewrite Nat.Div0.mod_add in Hl | reflexivity].
    now destruct (decode_pairs l2).
Qed.

(** The decoder throws nothing but [std::invalid_argument], and returns
    one byte for every pair. *)
Lemma decode_pairs_outcome (l : list ascii) :
  decode_pairs l = inl invalid_argument \/
  exists bs, decode_pairs l = inr bs /\ length bs = (length l / 2)%nat.
Proof.
  induction l as [|x|x y l IH] using pairs_ind.
  - right. exists []. split; reflexivity.
  - right. exists []. split; reflexivity.
  - rewrite decode_pairs_cons. destruct (pair_value x y) as [v|]; [|now left].
    destruct IH as [->|(bs & -> & Hb)]; [now left|].
    right. eexists. split; [reflexivity|].
    cbn [length]. rewrite Hb.
    change (Datatypes.S (Datatypes.S (length l))) with (2 + length l)%nat.
    replace (2 + length l)%nat with (length l + 1 * 2)%nat by lia.
    rewrite Nat.div_add by lia. lia.
Qed.

(** ** [readInput] *)

Lemma drop_two (input : list ascii) (p : nat) :
  (p + 2 <= length input)%nat ->
  exists c1 c2, drop p input = c1 :: c2 :: drop (p + 2) input.
Proof.
  intros Hp.
  destruct (lookup_lt_is_Some_2 input p ltac:(lia)) as [c1 H1].
  destruct (lookup_lt_is_Some_2 input (Datatypes.S p) ltac:(lia)) as [c2 H2].
  exists c1, c2.
  rewrite (drop_S _ _ _ H1), (drop_S _ _ _ H2).
  do 2 f_equal. f_equal. lia.
Qed.

Lemma readInput_body_value (input : list ascii) (i k : Z) (vec : list byte)
    (c1 c2 : ascii) (rest : list ascii) :
  0 <= k -> 2 * k + 2 <= INT_MAX -> 2 * k + 2 <= size input ->
  drop (Z.to_nat (2 * k)) input = c1 :: c2 :: rest ->
  readInput_body input i (2 * k, vec) =
  match pair_value c1 c2 with
  | None => throw invalid_argument
  | Some v => returns (2 * (k + 1), vec ++ [byte_of v])
  end.
Proof.
  intros Hk Hmax Hsize Hd. unfold readInput_body, substr, INT_MAX in *.
  assert (Hs : to_size_t (2 * k) = 2 * k).
  { unfold to_size_t. apply Z.mod_small. lia. }
  rewrite Hs. destruct (Z.ltb_spec (size input) (2 * k)); [lia|].
  rewrite Hd. change (Z.to_nat (to_size_t 2)) with 2%nat. cbn [take].
  cbn [try_bind bind]. rewrite stoi_pair.
  destruct (pair_value c1 c2) as [v|]; [|reflexivity].
  cbn [try_bind bind]. unfold int_of, INT_MIN, INT_MAX.
  destruct (Z.leb_spec (- 2 ^ 31) (2 * k + 2)); [|lia].
  destruct (Z.leb_spec (2 * k + 2) (2 ^ 31 - 1)); [|lia].
  cbn [andb bind]. unfold returns, push_back. do 3 f_equal. lia.
Qed.

Lemma readInput_pairs (input : list ascii) (n : nat) (k : Z) (vec : list byte) :
  0 <= k -> 2 * (k + Z.of_nat n) <= INT_MAX ->
  2 * (k + Z.of_nat n) <= size input ->
  try_for_each (readInput_body input) (seqZ k (Z.of_nat n)) (2 * k, vec) =
  match decode_pairs (take (2 * n) (drop (Z.to_nat (2 * k)) input)) with
  | inl e => throw e
  | inr bs => returns (2 * (k + Z.of_nat n), vec ++ bs)
  end.
Proof.
  revert k vec. induction n as [|n IH]; intros k vec Hk Hmax Hsize.
  - rewrite seqZ_nil by lia. change (2 * 0)%nat with 0%nat.
    rewrite take_0. cbn [decode_pairs try_for_each]. unfold returns.
    rewrite app_nil_r. do 3 f_equal. lia.
  - rewrite seqZ_cons by lia. cbn [try_for_each].
    destruct (drop_two input (Z.to_nat (2 * k))) as (c1 & c2 & Hd).
    { unfold size in Hsize. lia. }
    rewrite (readInput_body_value input k k vec c1 c2 _ Hk ltac:(lia) ltac:(lia) Hd).
    rewrite Hd. replace (2 * Datatypes.S n)%nat with (Datatypes.S (Datatypes.S (2 * n))) by lia.
    cbn [take]. rewrite decode_pairs_cons.
    destruct (pair_value c1 c2) as [v|]; [|reflexivity].
    cbn [try_bind bind returns].
    replace (Z.pred (Z.of_nat (Datatypes.S n))) with (Z.of_nat n) by lia.
    replace (Z.succ k) with (k + 1) by lia.
    rewrite IH by lia.
    replace (Z.to_nat (2 * (k + 1))) with (Z.to_nat (2 * k) + 2)%nat by lia.
    destruct (decode_pairs _) as [e|bs]; [reflexivity|].
    unfold returns. rewrite <- app_assoc. do 3 f_equal. lia.
Qed.

(** The length that [readInput] works with is never more than the
    actual one. *)
Lemma to_int_le (z : Z) : 0 <= z -> to_int z <= z.
Proof.
  intros Hz. unfold to_int.
  pose proof (Z.mod_le (z + 2 ^ 31) (2 ^ 32) ltac:(lia) ltac:(lia)). lia.
Qed.

Lemma to_int_range (z : Z) : INT_MIN <= to_int z <= INT_MAX.
Proof.
  unfold to_int, INT_MIN, INT_MAX.
  pose proof (Z.mod_pos_bound (z + 2 ^ 31) (2 ^ 32) ltac:(lia)). lia.
Qed.

Lemma to_int_small (z : Z) : INT_MIN <= z <= INT_MAX -> to_int z = z.
Proof.
  unfold to_int, INT_MIN, INT_MAX. intros Hz.
  rewrite Z.mod_small by lia. lia.
Qed.

(** What [readInput] returns, for a line of any length. *)
Lemma readInput_value (input : list ascii) :
  readInput input =
  Ok (decode_pairs (take (Z.to_nat (to_int (size input))) input)).
Proof.
  unfold readInput, try_for.
  pose proof (to_int_range (size input)) as Hr.
  pose proof (to_int_le (size input) ltac:(unfold size; lia)) as Hle.
  set (s := to_int (size input)) in *.
  destruct (Z.le_gt_cases s 0) as [Hneg|Hpos].
  - replace (Z.to_nat s) with 0%nat by lia. cbn [take decode_pairs].
    assert (Hq : Z.quot s 2 - 0 <= 0).
    { pose proof (Z.quot_le_upper_bound s 2 0 ltac:(lia) ltac:(lia)). lia. }
    rewrite seqZ_nil by lia. reflexivity.
  - rewrite Z.quot_div_nonneg by lia.
    assert (Hn : exists n : nat, Z.of_nat n = s `div` 2 /\ n = (Z.to_nat s / 2)%nat).
    { exists (Z.to_nat s / 2)%nat. split; [|reflexivity].
      rewrite Nat2Z.inj_div, Z2Nat.id by lia. reflexivity. }
    destruct Hn as (n & Hn & Hn').
    replace (s `div` 2 - 0) with (Z.of_nat n) by lia.
    pose proof (Z.mul_div_le s 2 ltac:(lia)) as Hd.
    change 0 with (2 * 0) at 1.
    rewrite readInput_pairs by lia.
    change (Z.to_nat (2 * 0)) with 0%nat. rewrite drop_0.
    rewrite Hn', decode_pairs_take.
    destruct (decode_pairs _) as [e|bs]; reflexivity.
Qed.

(** A line of at most [INT_MAX] characters is read to its end. *)
Lemma take_int_size {A : Type} (input : list A) :
  size input <= INT_MAX -> take (Z.to_nat (to_int (size input))) input = input.
Proof.
  intros Hs. rewrite to_int_small.
  - unfold size. rewrite Nat2Z.id. apply firstn_all.
  - unfold size, INT_MIN, INT_MAX in *. lia.
Qed.

(** ** Lines of hexadecimal digits *)

Lemma hex_pair (b : byte) :
  exists c1 c2,
    put_hex 2 "0"%char (byte_val b) = [c1; c2] /\
    pair_value c1 c2 = Some (byte_val b) /\
    pair_value (toupper c1) (toupper c2) = Some (byte_val b) /\
    c1 <> newline /\ c2 <> newline.
Proof.
  assert (H : forallb hex_pair_ok (seqZ 0 256) = true) by (vm_compute; reflexivity).
  rewrite forallb_forall in H. specialize (H (byte_val b)).
  pose proof (byte_val_range b) as Hr.
  assert (Hin : In (byte_val b) (seqZ 0 256)).
  { apply list_elem_of_In, elem_of_seqZ. lia. }
  specialize (H Hin). unfold hex_pair_ok in H.
  destruct (put_hex 2 "0"%char (byte_val b)) as [|c1 [|c2 [|c3 l]]]; try discriminate.
  exists c1, c2.
  repeat (apply andb_prop in H as [H ?]).
  apply bool_decide_eq_true in H.
  match goal with H1 : bool_decide _ = true |- _ => apply bool_decide_eq_true in H1 end.
  repeat split; try assumption.
  - intros ->. discriminate.
  - intros ->. discriminate.
Qed.

Lemma hex_line_cons (b : byte) (bs : list byte) :
  hex_line (b :: bs) = put_hex 2 "0"%char (byte_val b) ++ hex_line bs.
Proof. reflexivity. Qed.

Lemma decode_hex_line (bs : list byte) :
  decode_pairs (hex_line bs) = inr bs /\
  decode_pairs (toupper <$> hex_line bs) = inr bs.
Proof.
  induction bs as [|b bs [IH1 IH2]]; [split; reflexivity|].
  rewrite hex_line_cons.
  destruct (hex_pair b) as (c1 & c2 & -> & H1 & H2 & _).
  cbn [app fmap list_fmap]. rewrite !decode_pairs_cons, H1, H2, IH1.
  change (list_fmap ascii ascii toupper (hex_line bs)) with (toupper <$> hex_line bs).
  rewrite IH2, byte_of_val. split; reflexivity.
Qed.

Lemma size_hex_line (bs : list byte) : size (hex_line bs) = 2 * size bs.
Proof.
  induction bs as [|b bs IH]; [reflexivity|].
  rewrite hex_line_cons. destruct (hex_pair b) as (c1 & c2 & -> & _).
  unfold size in *. cbn [app length]. lia.
Qed.

Lemma hex_line_no_newline (bs : list byte) : newline ∉ hex_line bs.
Proof.
  induction bs as [|b bs IH]; [apply not_elem_of_nil|].
  rewrite hex_line_cons. destruct (hex_pair b) as (c1 & c2 & -> & _ & _ & N1 & N2).
  cbn [app]. rewrite !not_elem_of_cons. auto.
Qed.

(** * The loop of [main] *)

Lemma length_field_bytes (L : Z) :
  length_field L =
  [ byte_of (Z.shiftr L (64 - 1 * 8)); byte_of (Z.shiftr L (64 - 2 * 8));
    byte_of (Z.shiftr L (64 - 3 * 8)); byte_of (Z.shiftr L (64 - 4 * 8));
    byte_of (Z.shiftr L (64 - 5 * 8)); byte_of (Z.shiftr L (64 - 6 * 8));
    byte_of (Z.shiftr L (64 - 7 * 8)); byte_of (Z.shiftr L (64 - 8 * 8)) ].
Proof. reflexivity. Qed.

Lemma paddingMessage_padding (M : list byte) :
  8 * size M + 65 <= 2 ^ 63 -> paddingMessage M = Ok (padding M).
Proof.
  intros Hfit. rewrite (paddingMessage_value M Hfit).
  unfold padding. rewrite length_field_bytes. reflexivity.
Qed.

Lemma main_step_value (gl : Globals.t) (message : list byte) :
  Globals.wf gl -> size message + 73 <= 2 ^ 31 ->
  exists gl',
    main_step gl message = Ok (gl', rendering (sha256 message)) /\
    Globals.wf gl'.
Proof.
  intros Hwf Hfit.
  destruct (run_value gl message Hwf Hfit) as (padded & gl' & Hp & _ & _ & Hm & Hwf').
  assert (Hn : 0 <= size message) by (unfold size; lia).
  rewrite paddingMessage_padding in Hp by lia. injection Hp as <-.
  exists gl'. split; assumption.
Qed.

(** A line never gives more bytes than the pipeline can take. *)
Lemma decoded_size (input : list ascii) (bs : list byte) :
  decode_pairs (take (Z.to_nat (to_int (size input))) input) = inr bs ->
  2 * size bs <= INT_MAX /\ size bs = Z.max 0 (to_int (size input)) `div` 2.
Proof.
  intros Hd. pose proof (to_int_range (size input)) as Hr.
  pose proof (to_int_le (size input) ltac:(unfold size; lia)) as Hle.
  destruct (decode_pairs_outcome (take (Z.to_nat (to_int (size input))) input))
    as [H|(bs' & H & Hl)]; rewrite H in Hd; [discriminate|].
  injection Hd as ->. rewrite length_take in Hl.
  unfold size in *. rewrite Hl, Nat2Z.inj_div, Nat2Z.inj_min.
  unfold INT_MAX in *.
  replace (Z.of_nat (Z.to_nat (to_int (Z.of_nat (length input)))) `min` Z.of_nat (length input))
    with (Z.max 0 (to_int (Z.of_nat (length input)))) by lia.
  split; [|reflexivity].
  pose proof (Z.mul_div_le (Z.max 0 (to_int (Z.of_nat (length input)))) 2 ltac:(lia)).
  lia.
Qed.

Lemma main_body_value (gl : Globals.t) (cout input : list ascii) :
  Globals.wf gl ->
  match line_output input with
  | inl e => main_body input (gl, cout) = Ok (gl, cout, Some e)
  | inr out =>
      exists gl', main_body input (gl, cout) = Ok (gl', cout ++ out, None) /\
                  Globals.wf gl'
  end.
Proof.
  intros Hwf. unfold line_output, main_body. rewrite readInput_value.
  destruct (decode_pairs _) as [e|message] eqn:E; [reflexivity|].
  destruct (decoded_size input message E) as [Hs _].
  destruct (main_step_value gl message Hwf) as (gl' & Hm & Hwf').
  { unfold INT_MAX in Hs. lia. }
  exists gl'. split; [|exact Hwf'].
  cbn [bind]. rewrite Hm. reflexivity.
Qed.

Lemma main_loop_value (lines : list (list ascii)) (gl : Globals.t) (cout : list ascii) :
  Globals.wf gl ->
  exists gl',
    main_loop lines (gl, cout) =
    Ok (gl', cout ++ fst (outputs lines), snd (outputs lines)) /\
    Globals.wf gl'.
Proof.
  revert gl cout. induction lines as [|input lines IH]; intros gl cout Hwf.
  - cbn [outputs main_loop fst snd]. exists gl. rewrite app_nil_r. now split.
  - cbn [outputs main_loop].
    pose proof (main_body_value gl cout input Hwf) as Hb.
    destruct (line_output input) as [e|out].
    + rewrite Hb. cbn [bind fst snd]. exists gl. rewrite app_nil_r. now split.
    + destruct Hb as (gl1 & -> & Hwf1). cbn [bind].
      destruct (IH gl1 (cout ++ out) Hwf1) as (gl' & -> & Hwf').
      exists gl'. destruct (outputs lines) as [outs e]. cbn [fst snd].
      rewrite <- app_assoc. now split.
Qed.

(** ** Lines *)

Lemma getlines_line (l rest input : list ascii) :
  newline ∉ l ->
  getlines input (l ++ newline :: rest) = (input ++ l) :: getlines [] rest.
Proof.
  revert input. induction l as [|c l IH]; intros input Hl.
  - cbn [app getlines]. rewrite Ascii.eqb_refl, app_nil_r. reflexivity.
  - apply not_elem_of_cons in Hl as [Hc Hl]. cbn [app getlines].
    destruct (Ascii.eqb_spec c newline) as [->|_]; [congruence|].
    rewrite IH by assumption. rewrite <- app_assoc. reflexivity.
Qed.

Lemma getlines_last (l input : list ascii) :
  newline ∉ l -> input ++ l <> [] -> getlines input l = [input ++ l].
Proof.
  revert input. induction l as [|c l IH]; intros input Hl Hne.
  - rewrite app_nil_r in *. cbn [getlines]. destruct input; congruence.
  - apply not_elem_of_cons in Hl as [Hc Hl]. cbn [getlines].
    destruct (Ascii.eqb_spec c newline) as [->|_]; [congruence|].
    rewrite IH; [now rewrite <- app_assoc|assumption|].
    rewrite <- app_assoc. exact Hne.
Qed.

(** Lines that end in a newline each are read back as they are. *)
Lemma getlines_join (lines : list (list ascii)) (rest : list ascii) :
  Forall (fun l => newline ∉ l) lines ->
  getlines [] ((lines ≫= (fun l => l ++ [newline])) ++ rest) =
  lines ++ getlines [] rest.
Proof.
  induction 1 as [|l lines Hl _ IH]; [reflexivity|].
  cbn [mbind list_bind app].
  change (list_bind _ _ ?f lines) with (lines ≫= f).
  rewrite <- !app_assoc. cbn [app].
  rewrite getlines_line by assumption. rewrite IH. reflexivity.
Qed.

(** The lines after a malformed one are not looked at. *)
Lemma outputs_app (l1 l2 : list (list ascii)) :
  outputs (l1 ++ l2) =
  match outputs l1 with
  | (o1, Some e) => (o1, Some e)
  | (o1, None) => (o1 ++ fst (outputs l2), snd (outputs l2))
  end.
Proof.
  induction l1 as [|l l1 IH].
  - cbn [app outputs]. now destruct (outputs l2).
  - cbn [app outputs]. destruct (line_output l) as [e|o]; [reflexivity|].
    rewrite IH. destruct (outputs l1) as [o1 [e|]]; [reflexivity|].
    now rewrite app_assoc.
Qed.

Lemma line_output_short (input : list ascii) :
  size input <= INT_MAX ->
  line_output input =
  match decode_pairs input with
  | inl e => inl e
  | inr message => inr (rendering (sha256 message))
  end.
Proof.
  intros Hs. unfold line_output. now rewrite take_int_size.
Qed.

(** A line of digits is decoded to the bytes that it writes. *)
Lemma line_output_hex (bs : list byte) :
  2 * size bs <= INT_MAX ->
  line_output (hex_line bs) = inr (rendering (sha256 bs)) /\
  line_output (toupper <$> hex_line bs) = inr (rendering (sha256 bs)).
Proof.
  intros Hs.
  assert (Hu : size (toupper <$> hex_line bs) = size (hex_line bs)).
  { unfold size. now rewrite length_fmap. }
  rewrite !line_output_short by (rewrite ?Hu, size_hex_line; exact Hs).
  destruct (decode_hex_line bs) as [-> ->]. split; reflexivity.
Qed.

(** ** Runs one after the other *)

Lemma getlines_app (cin1 cin2 input : list ascii) :
  last cin1 = Some newline ->
  getlines input (cin1 ++ cin2) = getlines input cin1 ++ getlines [] cin2.
Proof.
  revert input. induction cin1 as [|c cin1 IH]; intros input Hl; [discriminate|].
  cbn [app getlines]. destruct cin1 as [|c' cin1].
  - injection Hl as ->. rewrite Ascii.eqb_refl. reflexivity.
  - rewrite last_cons_cons in Hl.
    destruct (Ascii.eqb c newline); [|now apply IH].
    rewrite (IH [] Hl). reflexivity.
Qed.

Lemma main_body_cout (input cout : list ascii) (gl : Globals.t) :
  main_body input (gl, cout) =
  outcome_of (fun '(gl', out, e) => (gl', cout ++ out, e)) (main_body input (gl, [])).
Proof.
  unfold main_body. destruct (readInput input) as [[e|message]| |]; cbn [bind outcome_of];
    [now rewrite app_nil_r| |reflexivity..].
  destruct (main_step gl message) as [[gl' out]| |]; reflexivity.
Qed.

Lemma main_loop_cout (lines : list (list ascii)) (cout : list ascii) (gl : Globals.t) :
  main_loop lines (gl, cout) =
  outcome_of (fun '(gl', out, e) => (gl', cout ++ out, e)) (main_loop lines (gl, [])).
Proof.
  revert gl cout. induction lines as [|input lines IH]; intros gl cout.
  - cbn [main_loop outcome_of]. now rewrite app_nil_r.
  - cbn [main_loop]. rewrite main_body_cout.
    destruct (main_body input (gl, [])) as [[[gl1 out1] [e|]]| |];
      cbn [bind outcome_of]; [reflexivity| |reflexivity..].
    rewrite (IH gl1 (cout ++ out1)), (IH gl1 out1).
    destruct (main_loop lines (gl1, [])) as [[[gl2 out2] e]| |];
      cbn [outcome_of]; [|reflexivity..].
    now rewrite app_assoc.
Qed.

Lemma main_loop_app (l1 l2 : list (list ascii)) (s : Globals.t * list ascii) :
  main_loop (l1 ++ l2) s =
  let* '(s', e) := main_loop l1 s in
  match e with
  | Some e => Ok (s', Some e)
  | None => main_loop l2 s'
  end.
Proof.
  revert s. induction l1 as [|input l1 IH]; intros s.
  - reflexivity.
  - cbn [app main_loop].
    destruct (main_body input s) as [[s1 [e|]]| |]; cbn [bind]; [reflexivity| |reflexivity..].
    apply IH.
Qed.

(** * More on the word functions *)

Lemma word_eq_bits (x y : Z) :
  word x -> word y ->
  (forall i, 0 <= i < 32 -> Z.testbit x i = Z.testbit y i) -> x = y.
Proof.
  intros Hx Hy Hb. apply Z.bits_inj'. intros i Hi.
  destruct (Z.lt_ge_cases i 32) as [Hlt|Hge]; [apply Hb; lia|].
  now rewrite !word_testbit_high.
Qed.

Lemma not_uint_bits (x i : Z) :
  0 <= i < 32 -> Z.testbit (not_uint x) i = negb (Z.testbit x i).
Proof.
  intros Hi. unfold not_uint, to_uint.
  rewrite Z.mod_pow2_bits_low by lia. apply Z.lnot_spec. lia.
Qed.

Lemma word_Ch (x y z : Z) : word y -> word z -> word (Ch x y z).
Proof.
  intros Hy Hz. unfold Ch. apply word_lxor.
  - apply word_of_bits.
    + apply Z.land_nonneg. unfold word in Hy. lia.
    + intros i Hi. rewrite Z.land_spec, (word_testbit_high y) by assumption.
      apply andb_false_r.
  - apply word_land; [apply word_to_uint|assumption].
Qed.

Lemma word_Maj (x y z : Z) : word x -> word y -> word z -> word (Maj x y z).
Proof.
  intros Hx Hy Hz. unfold Maj. repeat apply word_lxor; now apply word_land.
Qed.

Lemma word_Spec_SHR (n x : Z) : word x -> 0 <= n -> word (Spec.SHR n x).
Proof.
  intros Hx Hn. unfold Spec.SHR, Spec.shr.
  rewrite <- Z.shiftr_div_pow2 by lia. now apply word_shiftr.
Qed.

Lemma word_Spec_sigmas (x : Z) :
  word x ->
  word (Spec.Sigma0 x) /\ word (Spec.Sigma1 x) /\
  word (Spec.sigma0 x) /\ word (Spec.sigma1 x).
Proof.
  intros Hx. unfold Spec.Sigma0, Spec.Sigma1, Spec.sigma0, Spec.sigma1.
  repeat split; repeat apply word_lxor;
    (apply word_Spec_ROTR || apply word_Spec_SHR); (assumption || lia).
Qed.

(** The shifts of [SHR] and [ROTR] by amounts that the type allows. *)
Lemma SHR_undefined (n x : Z) : 32 <= n -> SHR n x = UB shift_out_of_range.
Proof.
  intros Hn. unfold SHR, shr_uint, shift_ok.
  destruct (Z.ltb_spec n 32); [lia|]. now rewrite andb_false_r.
Qed.

Lemma ROTR_undefined (n x : Z) :
  0 <= n < 2 ^ 32 -> n = 0 \/ 32 <= n -> ROTR n x = UB shift_out_of_range.
Proof.
  intros Hr [->|Hn].
  - reflexivity.
  - unfold ROTR, shr_uint, shift_ok.
    destruct (Z.ltb_spec n 32); [lia|]. now rewrite andb_false_r.
Qed.

(** Rotations *)
Lemma Spec_ROTR_ROTR (n m x : Z) :
  word x -> 0 < n < 32 -> 0 < m < 32 ->
  Spec.ROTR m (Spec.ROTR n x) =
  if n + m =? 32 then x else Spec.ROTR ((n + m) `mod` 32) x.
Proof.
  intros Hx Hn Hm.
  assert (Hw : word (Spec.ROTR n x)) by (apply word_Spec_ROTR; [assumption|lia]).
  destruct (Z.eqb_spec (n + m) 32) as [He|Hne].
  - apply word_eq_bits; [apply word_Spec_ROTR; [assumption|lia]|assumption|].
    intros i Hi. rewrite Spec_ROTR_bits by assumption.
    rewrite Spec_ROTR_bits by (try assumption; apply Z.mod_pos_bound; lia).
    rewrite Z.add_mod_idemp_l by lia.
    replace (i + m + n) with (i + 1 * 32) by lia.
    rewrite Z.mod_add, Z.mod_small by lia. reflexivity.
  - assert (Hk : 0 < (n + m) `mod` 32 < 32).
    { pose proof (Z.mod_pos_bound (n + m) 32 ltac:(lia)).
      assert ((n + m) `mod` 32 <> 0); [|lia].
      intros H0. apply Z.mod_divide in H0 as [q Hq]; lia. }
    apply word_eq_bits; try (apply word_Spec_ROTR; [assumption|lia]).
    intros i Hi. rewrite (Spec_ROTR_bits m), (Spec_ROTR_bits ((n + m) `mod` 32))
      by assumption.
    rewrite Spec_ROTR_bits by (try assumption; apply Z.mod_pos_bound; lia).
    rewrite Z.add_mod_idemp_l, Z.add_mod_idemp_r by lia.
    f_equal. f_equal. lia.
Qed.

(** Exclusive or goes through the shifts. *)
Lemma Spec_ROTR_lxor (n x y : Z) :
  word x -> word y -> 0 < n < 32 ->
  Spec.ROTR n (Z.lxor x y) = Z.lxor (Spec.ROTR n x) (Spec.ROTR n y).
Proof.
  intros Hx Hy Hn.
  assert (Hxy : word (Z.lxor x y)) by now apply word_lxor.
  apply word_eq_bits.
  - apply word_Spec_ROTR; [assumption|lia].
  - apply word_lxor; apply word_Spec_ROTR; (assumption || lia).
  - intros i Hi. rewrite Z.lxor_spec, !Spec_ROTR_bits by assumption.
    apply Z.lxor_spec.
Qed.

Lemma Spec_SHR_lxor (n x y : Z) :
  0 <= n ->
  Spec.SHR n (Z.lxor x y) = Z.lxor (Spec.SHR n x) (Spec.SHR n y).
Proof.
  intros Hn. unfold Spec.SHR, Spec.shr.
  rewrite <- !Z.shiftr_div_pow2 by lia. apply Z.shiftr_lxor.
Qed.

Lemma lxor_shuffle (a b c a' b' c' : Z) :
  Z.lxor (Z.lxor (Z.lxor a a') (Z.lxor b b')) (Z.lxor c c') =
  Z.lxor (Z.lxor (Z.lxor a b) c) (Z.lxor (Z.lxor a' b') c').
Proof.
  apply Z.bits_inj'. intros i _. rewrite !Z.lxor_spec.
  destruct (Z.testbit a i), (Z.testbit b i), (Z.testbit c i),
    (Z.testbit a' i), (Z.testbit b' i), (Z.testbit c' i); reflexivity.
Qed.

Lemma Spec_sigmas_lxor (x y : Z) :
  word x -> word y ->
  Spec.Sigma0 (Z.lxor x y) = Z.lxor (Spec.Sigma0 x) (Spec.Sigma0 y) /\
  Spec.Sigma1 (Z.lxor x y) = Z.lxor (Spec.Sigma1 x) (Spec.Sigma1 y) /\
  Spec.sigma0 (Z.lxor x y) = Z.lxor (Spec.sigma0 x) (Spec.sigma0 y) /\
  Spec.sigma1 (Z.lxor x y) = Z.lxor (Spec.sigma1 x) (Spec.sigma1 y).
Proof.
  intros Hx Hy. unfold Spec.Sigma0, Spec.Sigma1, Spec.sigma0, Spec.sigma1.
  rewrite (Spec_ROTR_lxor 2), (Spec_ROTR_lxor 13), (Spec_ROTR_lxor 22),
    (Spec_ROTR_lxor 6), (Spec_ROTR_lxor 11), (Spec_ROTR_lxor 25),
    (Spec_ROTR_lxor 7), (Spec_ROTR_lxor 18), (Spec_ROTR_lxor 17),
    (Spec_ROTR_lxor 19), (Spec_SHR_lxor 3), (Spec_SHR_lxor 10)
    by (assumption || lia).
  repeat split; apply lxor_shuffle.
Qed.

(** * More on the padder *)

Lemma iter_n_S_UB {S : Type} (cond : S -> result bool) (body : S -> result S)
    (n : nat) (s : S) (why : undefined) :
  cond s = UB why \/ (cond s = Ok true /\ body s = UB why) ->
  iter_n cond body (Datatypes.S n) s = UB why.
Proof.
  intros [Hc|[Hc Hb]]; simpl; unfold loop_step; rewrite Hc; simpl;
    [reflexivity|]. now rewrite Hb.
Qed.

(** ** [getPadding] outside the lengths of the specification *)

Lemma getPadding_cond_high (L k : Z) :
  2 ^ 63 - 65 < L -> 0 <= k -> L + 1 + k <= LLONG_MAX ->
  getPadding_cond L k = Ok true.
Proof.
  unfold LLONG_MAX. intros HL Hk Hs. unfold getPadding_cond, llong_of, LLONG_MIN, LLONG_MAX.
  destruct (Z.leb_spec (- 2 ^ 63) (L + 1)); [|lia].
  destruct (Z.leb_spec (L + 1) (2 ^ 63 - 1)); [|lia]. cbn [andb bind].
  destruct (Z.leb_spec (- 2 ^ 63) (L + 1 + k)); [|lia].
  destruct (Z.leb_spec (L + 1 + k) (2 ^ 63 - 1)); [|lia]. cbn [andb bind].
  rewrite Z.rem_mod_nonneg by lia.
  destruct (Z.eqb_spec ((L + 1 + k) `mod` 512) 448) as [He|]; [|reflexivity].
  exfalso. change (2 ^ 63) with (512 * 2 ^ 54) in *.
  pose proof (Z.div_mod (L + 1 + k) 512 ltac:(lia)) as Hd.
  pose proof (Z.mod_pos_bound (L + 1 + k) 512 ltac:(lia)). lia.
Qed.

Lemma getPadding_cond_overflow (L k : Z) :
  0 <= k -> LLONG_MAX < L + 1 + k -> 0 <= L <= LLONG_MAX ->
  getPadding_cond L k = UB signed_overflow.
Proof.
  unfold LLONG_MAX. intros Hk Hs HL. unfold getPadding_cond, llong_of, LLONG_MIN, LLONG_MAX.
  destruct (Z.leb_spec (L + 1) (2 ^ 63 - 1)).
  - destruct (Z.leb_spec (- 2 ^ 63) (L + 1)); [|lia]. cbn [andb bind].
    destruct (Z.leb_spec (L + 1 + k) (2 ^ 63 - 1)); [lia|].
    now rewrite andb_false_r.
  - now rewrite andb_false_r.
Qed.

Lemma getPadding_high_iterations (L : Z) (j : nat) (k : Z) :
  2 ^ 63 - 65 < L <= LLONG_MAX -> 0 <= k ->
  L + 1 + k + Z.of_nat j = LLONG_MAX + 1 ->
  iter_n (getPadding_cond L) getPadding_body (Datatypes.S j) k = UB signed_overflow.
Proof.
  revert k. induction j as [|j IH]; intros k HL Hk Hj.
  - apply iter_n_S_UB. left. apply getPadding_cond_overflow; lia.
  - rewrite (iter_n_S_Continue _ _ _ _ (k + 1)).
    + apply IH; lia.
    + apply getPadding_cond_high; lia.
    + unfold getPadding_body, int_of, INT_MIN, INT_MAX. unfold LLONG_MAX in *.
      destruct (Z.leb_spec (- 2 ^ 31) (k + 1)); [|lia].
      destruct (Z.leb_spec (k + 1) (2 ^ 31 - 1)); [reflexivity|lia].
Qed.

Lemma getPadding_cond_negative (L k : Z) :
  LLONG_MIN <= L < 0 -> 0 <= k <= 447 - L ->
  getPadding_cond L k = Ok (negb (k =? 447 - L)).
Proof.
  unfold LLONG_MIN. intros HL Hk. unfold getPadding_cond, llong_of, LLONG_MIN, LLONG_MAX.
  destruct (Z.leb_spec (- 2 ^ 63) (L + 1)); [|lia].
  destruct (Z.leb_spec (L + 1) (2 ^ 63 - 1)); [|lia]. cbn [andb bind].
  destruct (Z.leb_spec (- 2 ^ 63) (L + 1 + k)); [|lia].
  destruct (Z.leb_spec (L + 1 + k) (2 ^ 63 - 1)); [|lia]. cbn [andb bind].
  do 2 f_equal.
  destruct (Z.eqb_spec k (447 - L)) as [->|Hne].
  - replace (L + 1 + (447 - L)) with 448 by lia. reflexivity.
  - apply Z.eqb_neq. intros He.
    destruct (Z.lt_ge_cases (L + 1 + k) 0) as [Hneg|Hpos].
    + pose proof (Z.rem_nonpos (L + 1 + k) 512 ltac:(lia) ltac:(lia)). lia.
    + rewrite Z.rem_small in He; lia.
Qed.

Lemma getPadding_negative_iterations (L : Z) (j : nat) (k : Z) :
  LLONG_MIN <= L < 0 -> 447 - L <= INT_MAX -> 0 <= k ->
  k + Z.of_nat j = 447 - L ->
  iter_n (getPadding_cond L) getPadding_body (Datatypes.S j) k = Ok (Break (447 - L)).
Proof.
  revert k. induction j as [|j IH]; intros k HL Hmax Hk Hj.
  - replace k with (447 - L) by lia. apply iter_n_S_Break.
    rewrite getPadding_cond_negative by lia. now rewrite Z.eqb_refl.
  - rewrite (iter_n_S_Continue _ _ _ _ (k + 1)).
    + apply IH; lia.
    + rewrite getPadding_cond_negative by lia.
      destruct (Z.eqb_spec k (447 - L)); [lia|reflexivity].
    + unfold getPadding_body, int_of, INT_MIN, INT_MAX in *.
      destruct (Z.leb_spec (- 2 ^ 31) (k + 1)); [|lia].
      destruct (Z.leb_spec (k + 1) (2 ^ 31 - 1)); [reflexivity|lia].
Qed.

Lemma getPadding_low (L : Z) :
  LLONG_MIN <= L < 0 -> 447 - L <= INT_MAX -> getPadding L = Ok (447 - L).
Proof.
  intros HL Hmax. unfold getPadding.
  assert (Hj : exists j : nat, Z.of_nat j = 447 - L).
  { exists (Z.to_nat (447 - L)). lia. }
  destruct Hj as [j Hj].
  apply (while_Break _ _ (Datatypes.S j)); [unfold INT_MAX in *; lia|].
  apply getPadding_negative_iterations; lia.
Qed.

Lemma getPadding_counter_iterations (L : Z) (j : nat) (k : Z) :
  LLONG_MIN <= L < 0 -> INT_MAX < 447 - L -> 0 <= k ->
  k + Z.of_nat j = INT_MAX ->
  iter_n (getPadding_cond L) getPadding_body (Datatypes.S j) k = UB signed_overflow.
Proof.
  revert k. induction j as [|j IH]; intros k HL Hmax Hk Hj.
  - apply iter_n_S_UB. right. split.
    + rewrite getPadding_cond_negative by lia.
      destruct (Z.eqb_spec k (447 - L)); [lia|reflexivity].
    + unfold getPadding_body, int_of, INT_MIN, INT_MAX in *.
      destruct (Z.leb_spec (k + 1) (2 ^ 31 - 1)); [lia|].
      now rewrite andb_false_r.
  - rewrite (iter_n_S_Continue _ _ _ _ (k + 1)).
    + apply IH; lia.
    + rewrite getPadding_cond_negative by lia.
      destruct (Z.eqb_spec k (447 - L)); [lia|reflexivity].
    + unfold getPadding_body, int_of, INT_MIN, INT_MAX in *.
      destruct (Z.leb_spec (- 2 ^ 31) (k + 1)); [|lia].
      destruct (Z.leb_spec (k + 1) (2 ^ 31 - 1)); [reflexivity|lia].
Qed.

Lemma getPadding_counter_overflow (L : Z) :
  LLONG_MIN <= L < 0 -> INT_MAX < 447 - L -> getPadding L = UB signed_overflow.
Proof.
  intros HL Hmax. unfold getPadding.
  assert (Hj : exists j : nat, Z.of_nat j = INT_MAX).
  { exists (Z.to_nat INT_MAX). unfold INT_MAX. lia. }
  destruct Hj as [j Hj].
  apply (while_UB _ _ (Datatypes.S j)); [unfold INT_MAX in *; lia|].
  apply getPadding_counter_iterations; lia.
Qed.

(** ** The message inside its padding *)

Lemma length_length_field (L : Z) : length (length_field L) = 8%nat.
Proof. reflexivity. Qed.

Lemma be_value_length_field (L : Z) :
  0 <= L < 2 ^ 64 -> be_value (length_field L) = L.
Proof. intros HL. rewrite length_field_bytes. now apply length_field_value. Qed.

Lemma unpad_padding (M : list byte) :
  8 * size M < 2 ^ 64 -> unpad (padding M) = M.
Proof.
  intros Hfit. unfold unpad, padding.
  set (zeros := replicate (Z.to_nat ((zero_bits (8 * size M) - 7) `div` 8)) x00).
  set (field := length_field (8 * size M)).
  assert (Hn : 0 <= size M) by (unfold size; lia).
  replace (M ++ [x80] ++ zeros ++ field) with ((M ++ [x80] ++ zeros) ++ field)
    by (now rewrite <- !app_assoc).
  replace (length ((M ++ [x80] ++ zeros) ++ field) - 8)%nat
    with (length (M ++ [x80] ++ zeros)).
  2:{ rewrite (length_app (M ++ [x80] ++ zeros) field).
      unfold field. rewrite length_length_field. lia. }
  rewrite drop_app_length. unfold field.
  rewrite be_value_length_field by lia.
  rewrite Z.mul_comm, Z.div_mul by lia.
  unfold size. rewrite Nat2Z.id, <- !app_assoc. apply take_app_length.
Qed.

(** * More on the block parser *)

(** ** The blocks written back as bytes *)

Lemma byte_of_mod (z : Z) (b : byte) : z `mod` 256 = byte_val b -> byte_of z = b.
Proof.
  intros H. rewrite <- (byte_of_val b). unfold byte_of, to_uchar.
  change (2 ^ 8) with 256. rewrite H, (Z.mod_small (byte_val b)); [reflexivity|].
  apply byte_val_range.
Qed.

Lemma be_bytes32_word_at (bytes : list byte) (p : nat) :
  (p + 4 <= length bytes)%nat ->
  be_bytes32 (word_at bytes p) = take 4 (drop p bytes).
Proof.
  intros Hp.
  destruct (lookup_lt_is_Some_2 bytes p ltac:(lia)) as [b0 H0].
  destruct (lookup_lt_is_Some_2 bytes (p + 1) ltac:(lia)) as [b1 H1].
  destruct (lookup_lt_is_Some_2 bytes (p + 2) ltac:(lia)) as [b2 H2].
  destruct (lookup_lt_is_Some_2 bytes (p + 3) ltac:(lia)) as [b3 H3].
  rewrite (drop_S _ _ _ H0). replace (Datatypes.S p) with (p + 1)%nat by lia.
  rewrite (drop_S _ _ _ H1). replace (Datatypes.S (p + 1)) with (p + 2)%nat by lia.
  rewrite (drop_S _ _ _ H2). replace (Datatypes.S (p + 2)) with (p + 3)%nat by lia.
  rewrite (drop_S _ _ _ H3). cbn [take].
  unfold word_at, byte_at. rewrite H0, H1, H2, H3. cbn [default].
  pose proof (byte_val_range b0). pose proof (byte_val_range b1).
  pose proof (byte_val_range b2). pose proof (byte_val_range b3).
  unfold be_bytes32. rewrite !Z.shiftr_div_pow2 by lia.
  change (2 ^ 24) with 16777216. change (2 ^ 16) with 65536.
  change (2 ^ 8) with 256. change (2 ^ 0) with 1.
  unfold id.
  f_equal; [|f_equal; [|f_equal; [|f_equal]]]; apply byte_of_mod;
    Z.div_mod_to_equations; lia.
Qed.

(** Consecutive pieces of [c] elements each make up one piece. *)
Lemma bind_chunks {A B : Type} (l : list A) (c p k : nat) (h : nat -> B)
    (g : B -> list A) :
  (forall j, (j < k)%nat -> g (h j) = take c (drop (p + c * j) l)) ->
  ((h <$> seq 0 k) ≫= g) = take (c * k) (drop p l).
Proof.
  induction k as [|k IH]; intros Hg.
  - rewrite Nat.mul_0_r. reflexivity.
  - rewrite seq_S, fmap_app, bind_app, IH by (intros j Hj; apply Hg; lia).
    cbn [fmap list_fmap mbind list_bind app]. rewrite app_nil_r, Hg by lia.
    rewrite <- drop_drop, take_take_drop. f_equal. lia.
Qed.

Lemma block_at_bytes (bytes : list byte) (n : nat) :
  (64 * n + 64 <= length bytes)%nat ->
  (block_at bytes n ≫= be_bytes32) = take 64 (drop (64 * n) bytes).
Proof.
  intros Hn. unfold block_at.
  rewrite (bind_chunks bytes 4 (64 * n) 16); [reflexivity|].
  intros j Hj. apply be_bytes32_word_at. lia.
Qed.

Lemma blocks_of_bytes (bytes : list byte) :
  (blocks_of bytes ≫= (fun block => block ≫= be_bytes32)) =
  take (64 * (length bytes / 64)) bytes.
Proof.
  unfold blocks_of.
  rewrite (bind_chunks bytes 64 0 (length bytes / 64)); [now rewrite drop_0|].
  intros j Hj. cbn [Nat.add]. apply block_at_bytes.
  pose proof (Nat.Div0.mul_div_le (length bytes) 64). nia.
Qed.

(** ** Bytes after the last whole block *)

Lemma word_at_app (bytes tail : list byte) (p : nat) :
  (p + 4 <= length bytes)%nat -> word_at (bytes ++ tail) p = word_at bytes p.
Proof.
  intros Hp. unfold word_at, byte_at.
  rewrite !lookup_app_l by lia. reflexivity.
Qed.

Lemma blocks_of_app (bytes tail : list byte) :
  (length bytes mod 64 = 0)%nat -> (length tail < 64)%nat ->
  blocks_of (bytes ++ tail) = blocks_of bytes.
Proof.
  intros Hm Ht. unfold blocks_of.
  assert (Hd : (length (bytes ++ tail) / 64 = length bytes / 64)%nat).
  { rewrite length_app.
    pose proof (Nat.div_mod_eq (length bytes) 64) as Hb. rewrite Hm in Hb.
    rewrite Hb at 1. rewrite Nat.add_0_r, (Nat.mul_comm 64), Nat.div_add_l by lia.
    rewrite (Nat.div_small (length tail)) by lia. lia. }
  rewrite Hd. apply list_eq. intros n. rewrite !list_lookup_fmap.
  destruct (seq 0 (length bytes / 64) !! n) as [m|] eqn:E; [|reflexivity].
  cbn [fmap option_fmap option_map]. f_equal.
  apply lookup_seq in E as [-> Hlt]. cbn [Nat.add].
  unfold block_at. apply list_eq. intros j. rewrite !list_lookup_fmap.
  destruct (seq 0 16 !! j) as [i|] eqn:E'; [|reflexivity].
  cbn [fmap option_fmap option_map]. f_equal.
  apply lookup_seq in E' as [-> Hj]. cbn [Nat.add].
  apply word_at_app.
  pose proof (Nat.Div0.mul_div_le (length bytes) 64). nia.
Qed.

(** * More on the compressor *)

(** ** Loops with bodies that agree *)

Lemma iter_pow2_ext {S : Type} (cond cond' : S -> result bool)
    (body body' : S -> result S) (d : nat) (s : S) :
  (forall s, cond s = cond' s) -> (forall s, body s = body' s) ->
  iter_pow2 cond body d s = iter_pow2 cond' body' d s.
Proof.
  intros Hc Hb. revert s. induction d as [|d IH]; intros s.
  - cbn [iter_pow2]. unfold loop_step. rewrite Hc.
    destruct (cond' s) as [[|]| |]; cbn [bind]; [|reflexivity..].
    now rewrite Hb.
  - cbn [iter_pow2]. rewrite IH.
    destruct (iter_pow2 cond' body' d s) as [[s'|s']| |]; cbn [bind]; auto.
Qed.

Lemma while_ext {S : Type} (cond cond' : S -> result bool)
    (body body' : S -> result S) (s : S) :
  (forall s, cond s = cond' s) -> (forall s, body s = body' s) ->
  while_ cond body s = while_ cond' body' s.
Proof.
  intros Hc Hb. unfold while_. now rewrite (iter_pow2_ext cond cond' body body').
Qed.

Lemma for_each_ext {S : Type} (body body' : Z -> S -> result S) (l : list Z) (s : S) :
  (forall i s, i ∈ l -> body i s = body' i s) ->
  for_each body l s = for_each body' l s.
Proof.
  revert s. induction l as [|i l IH]; intros s H; [reflexivity|].
  cbn [for_each]. rewrite H by apply list_elem_of_here.
  destruct (body' i s) as [s'| |]; cbn [bind]; [|reflexivity..].
  apply IH. intros j s0 Hj. apply H. now apply list_elem_of_further.
Qed.

(** ** Only sixteen words of a block are read *)

Lemma at_fmap {A B : Type} (f : A -> B) (v : list A) (i : Z) :
  at_ (f <$> v) i = outcome_of f (at_ v i).
Proof.
  unfold at_. rewrite list_lookup_fmap.
  now destruct (v !! Z.to_nat (to_size_t i)).
Qed.

Lemma at_take {A : Type} (v : list A) (n : nat) (i : Z) :
  0 <= i < Z.of_nat n -> at_ (take n v) i = at_ v i.
Proof.
  intros Hi. unfold at_, to_size_t.
  destruct (Z.lt_ge_cases (Z.of_nat n) (2 ^ 64)) as [Hn|Hn].
  - rewrite Z.mod_small by lia. rewrite lookup_take_lt by lia. reflexivity.
  - pose proof (Z.mod_pos_bound i (2 ^ 64) ltac:(lia)).
    rewrite lookup_take_lt by lia. reflexivity.
Qed.

Lemma schedule_copy_body_take (M : list (list Z)) (i t : Z) (gl : Globals.t) :
  0 <= t < 16 ->
  schedule_copy_body M i t gl = schedule_copy_body (take 16 <$> M) i t gl.
Proof.
  intros Ht. unfold schedule_copy_body, at2. rewrite at_fmap.
  destruct (at_ M (i - 1)) as [row| |]; cbn [outcome_of bind]; [|reflexivity..].
  rewrite (at_take row 16) by lia. reflexivity.
Qed.

Lemma getHash_body_take (M : list (list Z))
    (s : Z * Globals.t * list (list Z) * list Z) :
  getHash_body M s = getHash_body (take 16 <$> M) s.
Proof.
  destruct s as [[[i gl] Hash] cb]. unfold getHash_body, schedule, for_.
  rewrite (for_each_ext (schedule_copy_body M i)
             (schedule_copy_body (take 16 <$> M) i)); [reflexivity|].
  intros t s Ht. apply elem_of_seqZ in Ht. apply schedule_copy_body_take. lia.
Qed.

(** ** The running states of a list of blocks and of its prefixes *)

Lemma chain_cons (H : list Z) (M : list (list Z)) :
  exists rest, Spec.chain H M = H :: rest.
Proof. destruct M; eexists; reflexivity. Qed.

Lemma chain_step (H block : list Z) (M : list (list Z)) :
  Spec.chain H (block :: M) = H :: Spec.chain (Spec.compress H block) M.
Proof. reflexivity. Qed.

Lemma last_chain (H : list Z) (M : list (list Z)) :
  exists x, last (Spec.chain H M) = Some x.
Proof.
  destruct (last (Spec.chain H M)) as [x|] eqn:E; [now exists x|].
  apply last_None in E. destruct (chain_cons H M) as [rest Hr]. congruence.
Qed.

Lemma chain_app (H : list Z) (M1 M2 : list (list Z)) :
  Spec.chain H (M1 ++ M2) =
  Spec.chain H M1 ++
  drop 1 (Spec.chain (default H (last (Spec.chain H M1))) M2).
Proof.
  revert H. induction M1 as [|block M1 IH]; intros H.
  - change (Spec.chain H []) with [H]. cbn [app last default from_option id].
    destruct (chain_cons H M2) as [rest ->]. reflexivity.
  - rewrite <- app_comm_cons, !chain_step, IH.
    destruct (chain_cons (Spec.compress H block) M1) as [rest E].
    destruct (last_chain (Spec.compress H block) M1) as [x Hx].
    rewrite E at 3. rewrite last_cons. rewrite <- E, Hx. reflexivity.
Qed.

(** ** What a run leaves in the global array [W] *)

Lemma load_registers_W (Hash : list (list Z)) (i : Z) (gl gl' : Globals.t) :
  load_registers Hash i gl = Ok gl' -> Globals.W gl' = Globals.W gl.
Proof.
  unfold load_registers. intros H.
  repeat (apply bind_Ok_inv in H as (? & _ & H)).
  injection H as <-. reflexivity.
Qed.

Lemma round_W (t : Z) (gl gl' : Globals.t) :
  round t gl = Ok gl' -> Globals.W gl' = Globals.W gl.
Proof.
  unfold round. intros H.
  repeat (apply bind_Ok_inv in H as (? & _ & H)).
  injection H as <-. reflexivity.
Qed.

Lemma for_each_round_W (l : list Z) (gl gl' : Globals.t) :
  for_each round l gl = Ok gl' -> Globals.W gl' = Globals.W gl.
Proof.
  revert gl. induction l as [|t l IH]; intros gl H.
  - injection H as <-. reflexivity.
  - cbn [for_each] in H. apply bind_Ok_inv in H as (gl1 & H1 & H).
    rewrite (IH _ H). now apply round_W in H1.
Qed.

Lemma getHash_body_W (M Hash Hash' : list (list Z)) (i i' : Z)
    (gl gl' : Globals.t) (cb cb' block : list Z) :
  1 <= i <= 2 ^ 31 -> M !! Z.to_nat (i - 1) = Some block ->
  length block = 16%nat -> Globals.wf gl ->
  getHash_body M (i, gl, Hash, cb) = Ok (i', gl', Hash', cb') ->
  Globals.W gl' = Spec.schedule block.
Proof.
  intros Hi Hb Hl Hwf H. unfold getHash_body in H.
  rewrite (schedule_value M i block gl Hi Hb Hl Hwf) in H. cbn [bind] in H.
  apply bind_Ok_inv in H as (gl1 & H1 & H).
  apply bind_Ok_inv in H as (gl2 & H2 & H).
  apply bind_Ok_inv in H as (cb1 & _ & H).
  apply bind_Ok_inv in H as (i1 & _ & H).
  injection H as _ <- _ _.
  unfold for_ in H2. rewrite (for_each_round_W _ _ _ H2).
  now rewrite (load_registers_W _ _ _ _ H1).
Qed.

Section Leftover.
Variable M : list (list Z).
Hypothesis M_blocks : Forall (fun block => length block = 16%nat) M.
Hypothesis M_size : size M < INT_MAX.

Lemma getHash_iterations_W (r k : nat) (gl : Globals.t) (cb : list Z) :
  (k + r = length M)%nat -> Globals.wf gl -> length cb = 8%nat ->
  holds_schedule M k gl ->
  exists gl' cb',
    iter_n (getHash_cond (to_int (size M))) (getHash_body M) (Datatypes.S r)
      (Z.of_nat k + 1, gl, take (Datatypes.S k) (Spec.chain H0 M), cb) =
    Ok (Break (size M + 1, gl', Spec.chain H0 M, cb')) /\
    holds_schedule M (length M) gl'.
Proof.
  revert k gl cb. induction r as [|r IH]; intros k gl cb Hk Hwf Hcb Hinv.
  - exists gl, cb. split; [|now replace (length M) with k by lia].
    rewrite iter_n_S_Break.
    + rewrite take_ge by (rewrite length_chain; lia).
      unfold size. do 5 f_equal. lia.
    + unfold getHash_cond. rewrite (to_int_size M M_size). unfold size.
      destruct (Z.leb_spec (Z.of_nat k + 1) (Z.of_nat (length M))); [lia|reflexivity].
  - destruct (getHash_body_value M M_blocks M_size k gl cb)
      as (gl1 & cb1 & Hb & Hwf1 & Hcb1); [lia|assumption|assumption|].
    destruct (lookup_lt_is_Some_2 M k ltac:(lia)) as [block Hblock].
    assert (HW : Globals.W gl1 = Spec.schedule block).
    { apply (getHash_body_W _ _ _ _ _ _ _ _ _ block) in Hb; try assumption.
      - unfold INT_MAX, size in M_size. lia.
      - now replace (Z.to_nat (Z.of_nat k + 1 - 1)) with k by lia.
      - rewrite Forall_lookup in M_blocks. exact (M_blocks k block Hblock). }
    destruct (IH (Datatypes.S k) gl1 cb1) as (gl2 & cb2 & Hi & Hinv2);
      [lia|assumption|assumption|now exists block|].
    exists gl2, cb2. split; [|assumption].
    assert (Hc : getHash_cond (to_int (size M))
                   (Z.of_nat k + 1, gl, take (Datatypes.S k) (Spec.chain H0 M), cb) = Ok true).
    { unfold getHash_cond. rewrite (to_int_size M M_size). unfold size.
      destruct (Z.leb_spec (Z.of_nat k + 1) (Z.of_nat (length M))); [reflexivity|lia]. }
    rewrite (iter_n_S_Continue _ _ _ _ _ Hc Hb). exact Hi.
Qed.

Lemma getHash_W (gl : Globals.t) :
  Globals.wf gl ->
  exists gl',
    getHash gl M = Ok (gl', Spec.chain H0 M) /\
    holds_schedule M (length M) gl'.
Proof.
  intros Hwf.
  destruct (getHash_iterations_W (length M) 0 gl (replicate 8 0))
    as (gl' & cb' & Hi & Hinv); [lia|assumption|reflexivity|exact I|].
  exists gl'. split; [|assumption].
  unfold getHash.
  rewrite (while_Break _ _ (Datatypes.S (length M)) _
             (size M + 1, gl', Spec.chain H0 M, cb')).
  - reflexivity.
  - unfold INT_MAX, size in M_size. lia.
  - assert (Ht : take 1 (Spec.chain H0 M) = [H0]) by (destruct M; reflexivity).
    rewrite Ht in Hi. exact Hi.
Qed.
End Leftover.

(** ** A block of fewer than sixteen words *)

Lemma getHash_body_agree (M M' : list (list Z)) (i : Z) (gl : Globals.t)
    (Hash : list (list Z)) (cb : list Z) :
  M !! Z.to_nat (to_size_t (i - 1)) = M' !! Z.to_nat (to_size_t (i - 1)) ->
  getHash_body M (i, gl, Hash, cb) = getHash_body M' (i, gl, Hash, cb).
Proof.
  intros HM. unfold getHash_body, schedule, for_.
  rewrite (for_each_ext (schedule_copy_body M i) (schedule_copy_body M' i));
    [reflexivity|].
  intros t s _. unfold schedule_copy_body, at2, at_. now rewrite HM.
Qed.

Lemma schedule_copy_some (M : list (list Z)) (i : Z) (block : list Z)
    (gl : Globals.t) (t : nat) :
  1 <= i <= 2 ^ 31 -> M !! Z.to_nat (i - 1) = Some block ->
  Globals.wf gl -> (t <= length block)%nat -> (t <= 16)%nat ->
  for_ 0 (Z.of_nat t) (schedule_copy_body M i) gl =
  Ok (Globals.set_W gl (take t block ++ drop t (Globals.W gl))).
Proof.
  intros Hi HM Hwf. unfold Globals.wf in Hwf.
  induction t as [|t IH]; intros Ht H16.
  - rewrite for_nil by lia. simpl. now rewrite set_W_same.
  - rewrite Nat2Z.inj_succ, <- Z.add_1_r, for_snoc by lia.
    rewrite IH by lia. cbn [bind]. unfold schedule_copy_body.
    destruct (lookup_lt_is_Some_2 block t ltac:(lia)) as [x Hx].
    rewrite (at2_lookup M block (i - 1) (Z.of_nat t) x);
      [|lia|lia|assumption|now rewrite Nat2Z.id].
    cbn [bind]. rewrite assign_W_value.
    + rewrite insert_middle by (rewrite ?length_take; lia).
      rewrite (take_S_r _ _ _ Hx). reflexivity.
    + rewrite length_app, length_take, length_drop. lia.
    + lia.
Qed.

Lemma schedule_short (M : list (list Z)) (i : Z) (block : list Z) (gl : Globals.t) :
  1 <= i <= 2 ^ 31 -> M !! Z.to_nat (i - 1) = Some block ->
  Globals.wf gl -> (length block < 16)%nat ->
  schedule M i gl = UB out_of_bounds.
Proof.
  intros Hi HM Hwf Hl. unfold schedule.
  assert (Hc : for_ 0 16 (schedule_copy_body M i) gl = UB out_of_bounds);
    [|now rewrite Hc].
  unfold for_.
  replace (16 - 0) with (Z.of_nat (length block) + (16 - Z.of_nat (length block))) by lia.
  rewrite seqZ_app, for_each_app by lia.
  pose proof (schedule_copy_some M i block gl (length block) Hi HM Hwf
                ltac:(lia) ltac:(lia)) as Hp.
  unfold for_ in Hp. rewrite Z.sub_0_r in Hp. rewrite Hp. cbn [bind].
  rewrite seqZ_cons by lia. cbn [for_each]. unfold schedule_copy_body, at2.
  rewrite (at_lookup M (i - 1) block) by (assumption || lia). cbn [bind].
  unfold at_, to_size_t. rewrite Z.mod_small by lia.
  rewrite Z.add_0_l, Nat2Z.id, lookup_ge_None_2 by lia. reflexivity.
Qed.

Section ShortBlock.
Variable M good rest : list (list Z).
Variable bad : list Z.
Hypothesis M_split : M = good ++ bad :: rest.
Hypothesis good_blocks : Forall (fun block => length block = 16%nat) good.
Hypothesis bad_short : (length bad < 16)%nat.
Hypothesis M_size : size M < INT_MAX.

(** Blocks of sixteen words that agree with [M] up to the short one. *)
Let M' : list (list Z) :=
  good ++ replicate (length (bad :: rest)) (replicate 16 0).

Lemma short_blocks_filled :
  Forall (fun block => length block = 16%nat) M' /\ length M' = length M.
Proof.
  split.
  - apply Forall_app. split; [assumption|]. now apply Forall_replicate.
  - unfold M'. rewrite M_split, !length_app, length_replicate. reflexivity.
Qed.

Lemma getHash_short_prefix (j : nat) (gl : Globals.t) (cb : list Z) :
  (j <= length good)%nat -> Globals.wf gl -> length cb = 8%nat ->
  exists gl' cb',
    iter_n (getHash_cond (to_int (size M))) (getHash_body M) j
      (1, gl, [H0], cb) =
    Ok (Continue (Z.of_nat j + 1, gl', take (Datatypes.S j) (Spec.chain H0 M'), cb')) /\
    Globals.wf gl' /\ length cb' = 8%nat.
Proof.
  intros Hj Hwf Hcb. destruct short_blocks_filled as [HM' Hlen].
  assert (Hs' : size M' < INT_MAX) by (unfold size in *; now rewrite Hlen).
  assert (Hlt : (length good < length M)%nat).
  { rewrite M_split, length_app. cbn [length]. lia. }
  induction j as [|j IH].
  - exists gl, cb. split; [|now split].
    destruct (chain_cons H0 M') as [tl ->]. reflexivity.
  - destruct IH as (gl1 & cb1 & Hi & Hwf1 & Hcb1); [lia|].
    destruct (getHash_body_value M' HM' Hs' j gl1 cb1)
      as (gl2 & cb2 & Hb & Hwf2 & Hcb2); [lia|assumption|assumption|].
    exists gl2, cb2. split; [|now split].
    replace (Datatypes.S j) with (j + 1)%nat at 1 by lia.
    rewrite iter_n_add, Hi. cbn [bind].
    rewrite (iter_n_S_Continue _ _ 0 _
               (Z.of_nat (Datatypes.S j) + 1, gl2,
                take (Datatypes.S (Datatypes.S j)) (Spec.chain H0 M'), cb2)).
    + reflexivity.
    + unfold getHash_cond. rewrite (to_int_size M M_size). unfold size.
      destruct (Z.leb_spec (Z.of_nat j + 1) (Z.of_nat (length M))); [reflexivity|lia].
    + rewrite <- Hb. apply getHash_body_agree.
      replace (Z.to_nat (to_size_t (Z.of_nat j + 1 - 1))) with j.
      * unfold M'. rewrite M_split, !lookup_app_l by lia. reflexivity.
      * unfold to_size_t. unfold INT_MAX, size in M_size.
        rewrite Z.mod_small by lia. lia.
Qed.

Lemma getHash_short (gl : Globals.t) :
  Globals.wf gl -> getHash gl M = UB out_of_bounds.
Proof.
  intros Hwf.
  assert (Hlt : (length good < length M)%nat).
  { rewrite M_split, length_app. cbn [length]. lia. }
  destruct (getHash_short_prefix (length good) gl (replicate 8 0))
    as (gl1 & cb1 & Hi & Hwf1 & _); [lia|assumption|reflexivity|].
  unfold getHash.
  rewrite (while_UB _ _ (length good + 1) _ out_of_bounds); [reflexivity| |].
  { unfold INT_MAX, size in M_size. lia. }
  rewrite iter_n_add. unfold push_back. cbn [app]. rewrite Hi. cbn [bind].
  apply iter_n_S_UB. right. split.
  - unfold getHash_cond. rewrite (to_int_size M M_size). unfold size.
    destruct (Z.leb_spec (Z.of_nat (length good) + 1) (Z.of_nat (length M)));
      [reflexivity|lia].
  - unfold getHash_body.
    rewrite (schedule_short M (Z.of_nat (length good) + 1) bad gl1);
      [reflexivity| |
       replace (Z.to_nat (Z.of_nat (length good) + 1 - 1)) with (length good) by lia;
       rewrite M_split; apply list_lookup_middle; reflexivity
       |assumption|assumption].
    unfold INT_MAX, size in M_size. lia.
Qed.
End ShortBlock.

(** * More on the printer *)

Lemma put_hex_inj (x y : Z) :
  word x -> word y -> put_hex 8 "0"%char x = put_hex 8 "0"%char y -> x = y.
Proof.
  intros Hx Hy H. rewrite <- (hex_value_put_hex x Hx), <- (hex_value_put_hex y Hy).
  now rewrite H.
Qed.

Lemma bind_put_hex_inj (d1 d2 : list Z) :
  Forall word d1 -> Forall word d2 ->
  (d1 ≫= put_hex 8 "0"%char) = (d2 ≫= put_hex 8 "0"%char) -> d1 = d2.
Proof.
  intros H1. revert d2. induction H1 as [|x d1 Hx _ IH]; intros d2 H2 H.
  - destruct d2 as [|y d2]; [reflexivity|].
    rewrite list_bind_nil, list_bind_cons in H.
    apply (f_equal length) in H. rewrite length_app, length_put_hex in H.
    discriminate.
  - destruct H2 as [|y d2 Hy H2].
    + rewrite list_bind_nil, list_bind_cons in H.
      apply (f_equal length) in H. rewrite length_app, length_put_hex in H.
      discriminate.
    + rewrite !list_bind_cons in H.
      apply app_inj_1 in H as [Hh Ht]; [|now rewrite !length_put_hex].
      f_equal; [now apply put_hex_inj|now apply IH].
Qed.

Lemma rendering_inj (d1 d2 : list Z) :
  Forall word d1 -> Forall word d2 -> rendering d1 = rendering d2 -> d1 = d2.
Proof.
  intros H1 H2 H. unfold rendering in H.
  apply app_inj_tail in H as [H _]. now apply bind_put_hex_inj.
Qed.

(** ** [printHash] on any chain and index *)

Lemma printHash_row (H : list (list Z)) (N : Z) (d : list Z) :
  0 <= N < 2 ^ 64 -> H !! Z.to_nat N = Some d ->
  printHash H N =
  if (8 <=? length d)%nat then Ok (rendering (take 8 d)) else UB out_of_bounds.
Proof.
  intros HN HH. unfold printHash, for_.
  change (seqZ 0 (8 - 0)) with [0; 1; 2; 3; 4; 5; 6; 7].
  cbn [for_each]. unfold printHash_body, at2.
  rewrite (at_lookup H N d HN HH). cbn [bind].
  destruct d as [|d0 [|d1 [|d2 [|d3 [|d4 [|d5 [|d6 [|d7 d]]]]]]]]; try reflexivity.
  cbn [length Nat.leb].
  change (take 8 (d0 :: d1 :: d2 :: d3 :: d4 :: d5 :: d6 :: d7 :: d))
    with [d0; d1; d2; d3; d4; d5; d6; d7].
  set (row := d0 :: d1 :: d2 :: d3 :: d4 :: d5 :: d6 :: d7 :: d).
  rewrite (at_lookup row 0 d0), (at_lookup row 1 d1), (at_lookup row 2 d2),
    (at_lookup row 3 d3), (at_lookup row 4 d4), (at_lookup row 5 d5),
    (at_lookup row 6 d6), (at_lookup row 7 d7) by (lia || reflexivity).
  cbn [bind]. unfold rendering.
  rewrite !list_bind_cons, list_bind_nil, app_nil_r, app_nil_l, <- !app_assoc.
  reflexivity.
Qed.

Lemma printHash_no_row (H : list (list Z)) (N : Z) :
  H !! Z.to_nat (to_size_t N) = None -> printHash H N = UB out_of_bounds.
Proof.
  intros HH. unfold printHash, for_.
  change (seqZ 0 (8 - 0)) with [0; 1; 2; 3; 4; 5; 6; 7].
  cbn [for_each]. unfold printHash_body, at2, at_. now rewrite HH.
Qed.

(** * Further properties: input handling and [main] *)

(** X1: on any two characters [std::stoi(.., nullptr, 16)] returns what
    [pair_value] says or throws [std::invalid_argument]: two digits give
    [16 * v1 + v2]; a digit followed by anything else gives the digit
    alone; white space or [+] before a digit gives the digit, [-] its
    negative; everything else throws.  It never throws
    [std::out_of_range]. *)
Theorem stoi_two_characters (c1 c2 : ascii) :
  stoi [c1; c2] =
    match pair_value c1 c2 with
    | Some v => inr v
    | None => inl invalid_argument
    end /\
  stoi [c1; c2] <> inl out_of_range.
Proof.
  rewrite stoi_pair. split; [reflexivity|].
  destruct (pair_value c1 c2); discriminate.
Qed.

(** X2: for a line of at most [INT_MAX] characters [readInput] decodes
    the characters two by two, from left to right, and throws
    [std::invalid_argument] at the first pair that stands for nothing. *)
Theorem readInput_decodes_pairs (input : list ascii) :
  size input <= INT_MAX -> readInput input = Ok (decode_pairs input).
Proof.
  intros Hs. rewrite readInput_value. now rewrite take_int_size.
Qed.

Lemma readInput_decodes_pairs_witness :
  readInput (list_ascii_of_string "6a0B-1") = Ok (decode_pairs (list_ascii_of_string "6a0B-1")).
Proof. apply readInput_decodes_pairs. unfold size, INT_MAX. simpl. lia. Defined.

(** X3: [readInput] reads back the bytes from the line that writes
    them as two hexadecimal digits each, in lower case as [printHash]
    writes digits, and in upper case. *)
Theorem readInput_inverts_hex (bs : list byte) :
  2 * size bs <= INT_MAX ->
  readInput (hex_line bs) = returns bs /\
  readInput (toupper <$> hex_line bs) = returns bs.
Proof.
  intros Hs.
  assert (Hu : size (toupper <$> hex_line bs) = size (hex_line bs)).
  { unfold size. now rewrite length_fmap. }
  rewrite !readInput_value.
  rewrite !take_int_size by (rewrite ?Hu, size_hex_line; exact Hs).
  destruct (decode_hex_line bs) as [-> ->]. split; reflexivity.
Qed.

Lemma readInput_inverts_hex_witness :
  readInput (hex_line [x00; x0a; xff]) = returns [x00; x0a; xff] /\
  readInput (toupper <$> hex_line [x00; x0a; xff]) = returns [x00; x0a; xff].
Proof. apply readInput_inverts_hex. unfold size, INT_MAX. simpl. lia. Defined.

(** X4: a line with an odd number of characters is read as the line
    without its last character, whatever that character is: no error is
    reported for it. *)
Theorem readInput_drops_odd_character (input : list ascii) (c : ascii) :
  size input < INT_MAX -> size input `mod` 2 = 0 ->
  readInput (input ++ [c]) = readInput input.
Proof.
  intros Hs Hm.
  rewrite !readInput_value, !take_int_size.
  - f_equal. apply decode_pairs_odd_tail.
    unfold size in Hm. apply Nat2Z.inj. rewrite Nat2Z.inj_mod. exact Hm.
  - lia.
  - rewrite size_app. unfold size at 2. cbn [length]. lia.
Qed.

Lemma readInput_drops_odd_character_witness :
  readInput (list_ascii_of_string "6162" ++ ["z"%char]) =
  readInput (list_ascii_of_string "6162").
Proof.
  apply readInput_drops_odd_character; unfold size, INT_MAX; simpl; [lia|reflexivity].
Defined.

(** X5: the length of the line is held in an [int]: a line of 2^31 up to
    2^32 - 1 characters has a negative length there, the loop does not
    run, and the line is read as the empty message, whatever it holds. *)
Theorem readInput_long_line (input : list ascii) :
  2 ^ 31 <= size input < 2 ^ 32 -> readInput input = returns [].
Proof.
  intros Hs. rewrite readInput_value.
  assert (Hn : to_int (size input) = size input - 2 ^ 32).
  { unfold to_int.
    replace (size input + 2 ^ 31) with (size input - 2 ^ 31 + 1 * 2 ^ 32) by lia.
    rewrite Z.mod_add, Z.mod_small by lia. lia. }
  rewrite Hn. replace (Z.to_nat (size input - 2 ^ 32)) with 0%nat by lia.
  reflexivity.
Qed.

Lemma readInput_long_line_witness :
  readInput (replicate (Z.to_nat (2 ^ 31)) "z"%char) = returns [].
Proof.
  apply readInput_long_line. unfold size. rewrite length_replicate. lia.
Defined.

(** X6: on a line of any length and content [readInput] has no
    undefined behaviour: it throws [std::invalid_argument] or returns
    one byte for every two characters of the length that it holds as an
    [int], which is fewer than 2^30 bytes. *)
Theorem readInput_outcome (input : list ascii) :
  readInput input = throw invalid_argument \/
  exists bs,
    readInput input = returns bs /\
    size bs = Z.max 0 (to_int (size input)) `div` 2 /\
    size bs < 2 ^ 30.
Proof.
  rewrite readInput_value.
  destruct (decode_pairs_outcome (take (Z.to_nat (to_int (size input))) input))
    as [H|(bs & H & _)].
  - left. now rewrite H.
  - right. exists bs. destruct (decoded_size input bs H) as [Hmax Hsize].
    rewrite H. split; [reflexivity|]. split; [exact Hsize|].
    unfold INT_MAX in Hmax. lia.
Qed.

(** X7: whatever standard input holds, [main] has no undefined
    behaviour and does not depend on what the globals hold at the start.
    It writes, line by line, the digest of the message that the line
    decodes to, and it ends with [std::invalid_argument] at the first
    line that cannot be decoded, after the digests of the lines before
    it. *)
Theorem main_outcome (gl : Globals.t) (cin : list ascii) :
  Globals.wf gl ->
  outcome_of written (main gl cin) = Ok (outputs (getlines [] cin)).
Proof.
  intros Hwf. unfold main.
  destruct (main_loop_value (getlines [] cin) gl [] Hwf) as (gl' & -> & _).
  cbn [outcome_of written app]. now destruct (outputs (getlines [] cin)).
Qed.

Lemma main_outcome_witness :
  outcome_of written (main Globals.initial (list_ascii_of_string "zz")) =
  Ok (outputs (getlines [] (list_ascii_of_string "zz"))).
Proof. apply main_outcome. reflexivity. Defined.

(** X8: end to end: when every line of standard input is a message
    written as hexadecimal digits and ended by a newline, [main] writes
    the SHA-256 digests of the messages, one line each, in the order of
    the input, and returns normally. *)
Theorem main_hashes_hex_lines (gl : Globals.t) (messages : list (list byte)) :
  Globals.wf gl ->
  Forall (fun message => 2 * size message <= INT_MAX) messages ->
  outcome_of written
    (main gl (messages ≫= (fun message => hex_line message ++ [newline]))) =
  Ok (messages ≫= (fun message => rendering (sha256 message)), None).
Proof.
  intros Hwf Hs. unfold main.
  assert (Hl : getlines [] (messages ≫= (fun message => hex_line message ++ [newline])) =
               hex_line <$> messages).
  { pose proof (getlines_join (hex_line <$> messages) []) as Hj.
    rewrite !app_nil_r in Hj.
    replace ((hex_line <$> messages) ≫= (fun l => l ++ [newline]))
      with (messages ≫= (fun message => hex_line message ++ [newline])) in Hj.
    - apply Hj. apply Forall_fmap, Forall_forall. intros m _. apply hex_line_no_newline.
    - clear. induction messages as [|m ms IH]; [reflexivity|].
      cbn [fmap list_fmap]. rewrite !list_bind_cons. now rewrite IH. }
  rewrite Hl. clear Hl.
  assert (Ho : outputs (hex_line <$> messages) =
               (messages ≫= (fun message => rendering (sha256 message)), None)).
  { induction Hs as [|m ms Hm _ IH]; [reflexivity|].
    cbn [fmap list_fmap outputs]. rewrite list_bind_cons.
    destruct (line_output_hex m Hm) as [-> _].
    change (list_fmap _ _ hex_line ms) with (hex_line <$> ms). now rewrite IH. }
  destruct (main_loop_value (hex_line <$> messages) gl [] Hwf) as (gl' & -> & _).
  rewrite Ho. reflexivity.
Qed.

Lemma main_hashes_hex_lines_witness :
  outcome_of written
    (main Globals.initial ([[x61; x62; x63]; []] ≫= (fun message => hex_line message ++ [newline]))) =
  Ok ([[x61; x62; x63]; []] ≫= (fun message => rendering (sha256 message)), None).
Proof.
  apply main_hashes_hex_lines; [reflexivity|].
  repeat (apply Forall_cons; split; [unfold size, INT_MAX; simpl; lia|]).
  apply Forall_nil. exact I.
Defined.

(** X9: runs compose: when the input [cin1] ends with a newline and
    [main] returns normally on it, [main] on [cin1] followed by [cin2]
    writes what it writes on [cin1], followed by what it writes on [cin2]
    when started with the globals that the first run has left, and ends
    as the second run ends. *)
Theorem main_composes (gl gl1 gl2 : Globals.t) (cin1 cin2 out1 out2 : list ascii)
    (e : option exception) :
  last cin1 = Some newline ->
  main gl cin1 = Ok (gl1, out1, None) ->
  main gl1 cin2 = Ok (gl2, out2, e) ->
  main gl (cin1 ++ cin2) = Ok (gl2, out1 ++ out2, e).
Proof.
  unfold main. intros Hl H1 H2.
  rewrite getlines_app by assumption. rewrite main_loop_app, H1. cbn [bind].
  rewrite main_loop_cout, H2. reflexivity.
Qed.

Lemma main_composes_witness :
  exists gl1 gl2 out1 out2,
    main Globals.initial [newline] = Ok (gl1, out1, None) /\
    main gl1 (list_ascii_of_string "61") = Ok (gl2, out2, None) /\
    main Globals.initial ([newline] ++ list_ascii_of_string "61") =
    Ok (gl2, out1 ++ out2, None).
Proof.
  eexists _, _, _, _.
  split; [vm_compute; reflexivity|]. split; [vm_compute; reflexivity|].
  eapply main_composes; [reflexivity|vm_compute; reflexivity..].
Defined.

(** * Further properties: the padder and the block parser *)

(** X10: the bound [L + 65 <= 2^63] on the bit length is sharp: for
    every greater length that a [long long] holds, the sum
    [length + 1 + k] in [getPadding] overflows before the loop ends. *)
Theorem getPadding_overflows (L : Z) :
  2 ^ 63 - 65 < L <= LLONG_MAX -> getPadding L = UB signed_overflow.
Proof.
  intros HL. unfold getPadding. unfold LLONG_MAX in *.
  assert (Hj : exists j : nat, Z.of_nat j = 2 ^ 63 - 1 - L).
  { exists (Z.to_nat (2 ^ 63 - 1 - L)). lia. }
  destruct Hj as [j Hj].
  apply (while_UB _ _ (Datatypes.S j)); [lia|].
  apply getPadding_high_iterations; unfold LLONG_MAX; lia.
Qed.

Lemma getPadding_overflows_witness :
  getPadding (2 ^ 63 - 64) = UB signed_overflow.
Proof. apply getPadding_overflows. unfold LLONG_MAX. lia. Defined.

(** X11: for a negative length the remainder of [%] is never positive
    before the sum reaches 448: [getPadding] counts up to [447 - L],
    which is 512 or more from [L = -65] on, and it overflows its [int]
    counter when [447 - L] is more than [INT_MAX]. *)
Theorem getPadding_negative_length (L : Z) :
  LLONG_MIN <= L < 0 ->
  getPadding L =
  if 447 - L <=? INT_MAX then Ok (447 - L) else UB signed_overflow.
Proof.
  intros HL. destruct (Z.leb_spec (447 - L) INT_MAX).
  - now apply getPadding_low.
  - now apply getPadding_counter_overflow.
Qed.

Lemma getPadding_negative_length_witness :
  getPadding (-600) =
  if 447 - (-600) <=? INT_MAX then Ok (447 - (-600)) else UB signed_overflow.
Proof. apply getPadding_negative_length. unfold LLONG_MIN. lia. Defined.

(** X12: the message can be read back from its padding: the last
    eight bytes say how many bits of the padded message are the
    message. *)
Theorem paddingMessage_unpad (M : list byte) :
  8 * size M + 65 <= 2 ^ 63 ->
  exists padded, paddingMessage M = Ok padded /\ unpad padded = M.
Proof.
  intros Hfit. exists (padding M).
  split; [now apply paddingMessage_padding|].
  apply unpad_padding. lia.
Qed.

Lemma paddingMessage_unpad_witness :
  exists padded,
    paddingMessage [x61; x62; x63] = Ok padded /\ unpad padded = [x61; x62; x63].
Proof. apply paddingMessage_unpad. unfold size. simpl. lia. Defined.

(** X13: different messages have different paddings. *)
Theorem paddingMessage_injective (M1 M2 : list byte) :
  8 * size M1 + 65 <= 2 ^ 63 -> 8 * size M2 + 65 <= 2 ^ 63 ->
  paddingMessage M1 = paddingMessage M2 -> M1 = M2.
Proof.
  intros H1 H2 H. rewrite !paddingMessage_padding in H by assumption.
  injection H as H.
  rewrite <- (unpad_padding M1), <- (unpad_padding M2) by lia. now rewrite H.
Qed.

Lemma paddingMessage_injective_witness : [x61; x62] = [x61; x62].
Proof.
  apply paddingMessage_injective; [unfold size; simpl; lia..|reflexivity].
Defined.

(** X14: a message of [n] bytes, up to 2^31 - 73 of them, is padded
    to [64 * ((n + 8) / 64 + 1)] bytes, that is by 9 to 72 bytes, and
    parsed into [(n + 8) / 64 + 1] blocks. *)
Theorem pipeline_block_count (M : list byte) :
  size M + 73 <= 2 ^ 31 ->
  exists padded blocks,
    paddingMessage M = Ok padded /\
    parsingMessage padded = Ok blocks /\
    size padded = 64 * ((size M + 8) `div` 64 + 1) /\
    9 <= size padded - size M <= 72 /\
    size blocks = (size M + 8) `div` 64 + 1.
Proof.
  intros Hfit.
  destruct (padded_blocks M Hfit) as (padded & Hp & Hs & Hq & Hb).
  exists padded, (blocks_of padded).
  split; [exact Hp|]. split; [exact Hq|]. split; [exact Hs|]. split; [|exact Hb].
  assert (Hn : 0 <= size M) by (unfold size; lia).
  rewrite Hs. Z.div_mod_to_equations. lia.
Qed.

Lemma pipeline_block_count_witness :
  exists padded blocks,
    paddingMessage (replicate 119 x00) = Ok padded /\
    parsingMessage padded = Ok blocks /\
    size padded = 64 * ((size (replicate 119 x00) + 8) `div` 64 + 1) /\
    9 <= size padded - size (replicate 119 x00) <= 72 /\
    size blocks = (size (replicate 119 x00) + 8) `div` 64 + 1.
Proof. apply pipeline_block_count. unfold size. simpl. lia. Defined.

(** X15: [parsingMessage] on any byte sequence: with [q] the number of
    whole 64-byte pieces, it returns the [q] blocks when [64 * q] is at
    most [INT_MAX], and its byte index [i] overflows otherwise. *)
Theorem parsingMessage_on_any_input (bytes : list byte) :
  parsingMessage bytes =
  if 64 * (size bytes `div` 64) <=? INT_MAX
  then Ok (blocks_of bytes) else UB signed_overflow.
Proof.
  destruct (Z.leb_spec (64 * (size bytes `div` 64)) INT_MAX).
  - now apply parsingMessage_value.
  - now apply parsingMessage_overflow.
Qed.

(** X16: the words of the blocks, written as four bytes each, most
    significant byte first, are the bytes that were parsed: all of them
    but those after the last whole 64-byte piece. *)
Theorem parsingMessage_round_trip (bytes : list byte) :
  64 * (size bytes `div` 64) <= INT_MAX ->
  exists M,
    parsingMessage bytes = Ok M /\
    (M ≫= (fun block => block ≫= be_bytes32)) =
    take (64 * (length bytes / 64)) bytes.
Proof.
  intros Hs. exists (blocks_of bytes).
  split; [now apply parsingMessage_value|apply blocks_of_bytes].
Qed.

Lemma parsingMessage_round_trip_witness :
  exists M,
    parsingMessage (replicate 70 x61) = Ok M /\
    (M ≫= (fun block => block ≫= be_bytes32)) =
    take (64 * (length (replicate 70 x61) / 64)) (replicate 70 x61).
Proof. apply parsingMessage_round_trip. apply Z.leb_le. vm_compute. reflexivity. Defined.

(** X17: bytes after the last whole 64-byte piece are not looked at:
    fewer than 64 bytes appended to a whole number of pieces change
    nothing, and no error is reported for them. *)
Theorem parsingMessage_ignores_tail (bytes tail : list byte) :
  size bytes `mod` 64 = 0 -> size tail < 64 ->
  parsingMessage (bytes ++ tail) = parsingMessage bytes.
Proof.
  intros Hm Ht.
  assert (Hm' : (length bytes mod 64 = 0)%nat).
  { unfold size in Hm. apply Nat2Z.inj. rewrite Nat2Z.inj_mod. exact Hm. }
  assert (Ht' : (length tail < 64)%nat) by (unfold size in Ht; lia).
  pose proof (blocks_of_app bytes tail Hm' Ht') as Hb.
  assert (Hq : size (bytes ++ tail) `div` 64 = size bytes `div` 64)
    by now rewrite <- !size_blocks_of, Hb.
  destruct (Z.leb_spec (64 * (size bytes `div` 64)) INT_MAX).
  - rewrite !parsingMessage_value by (rewrite ?Hq; assumption). now rewrite Hb.
  - now rewrite !parsingMessage_overflow by (rewrite ?Hq; assumption).
Qed.

Lemma parsingMessage_ignores_tail_witness :
  parsingMessage (replicate 64 x61 ++ [x62; x63]) = parsingMessage (replicate 64 x61).
Proof.
  apply parsingMessage_ignores_tail; unfold size; simpl; [reflexivity|lia].
Defined.

(** * Further properties: the word functions *)

(** X18: bit by bit, [Ch] chooses: where [x] has a 1 the result has
    the bit of [y], elsewhere the bit of [z]; and [Maj] is the majority:
    the result has a 1 where at least two of [x], [y], [z] have one. *)
Theorem Ch_Maj_bitwise (x y z i : Z) :
  word z ->
  Z.testbit (Ch x y z) i =
    (if Z.testbit x i then Z.testbit y i else Z.testbit z i) /\
  Z.testbit (Maj x y z) i =
    (Z.testbit x i && Z.testbit y i) || (Z.testbit x i && Z.testbit z i) ||
    (Z.testbit y i && Z.testbit z i).
Proof.
  intros Hz. split.
  - unfold Ch. rewrite Z.lxor_spec, !Z.land_spec.
    destruct (Z.lt_ge_cases i 0) as [Hneg|Hpos].
    { rewrite !Z.testbit_neg_r by lia. reflexivity. }
    destruct (Z.lt_ge_cases i 32) as [Hlt|Hge].
    + rewrite not_uint_bits by lia.
      destruct (Z.testbit x i), (Z.testbit y i), (Z.testbit z i); reflexivity.
    + rewrite (word_testbit_high z i Hz Hge), (word_testbit_high (not_uint x) i)
        by (apply word_to_uint || assumption).
      destruct (Z.testbit x i), (Z.testbit y i); reflexivity.
  - unfold Maj. rewrite !Z.lxor_spec, !Z.land_spec.
    destruct (Z.testbit x i), (Z.testbit y i), (Z.testbit z i); reflexivity.
Qed.

Lemma Ch_Maj_bitwise_witness :
  Z.testbit (Ch 0x510e527f 0x9b05688c 0x1f83d9ab) 5 =
    (if Z.testbit 0x510e527f 5 then Z.testbit 0x9b05688c 5
     else Z.testbit 0x1f83d9ab 5) /\
  Z.testbit (Maj 0x510e527f 0x9b05688c 0x1f83d9ab) 5 =
    (Z.testbit 0x510e527f 5 && Z.testbit 0x9b05688c 5) ||
    (Z.testbit 0x510e527f 5 && Z.testbit 0x1f83d9ab 5) ||
    (Z.testbit 0x9b05688c 5 && Z.testbit 0x1f83d9ab 5).
Proof. apply Ch_Maj_bitwise. unfold word. lia. Defined.

(** X19: for an amount [n] that the parameter type [unsigned int]
    holds, [ROTR(n, x)] is undefined exactly when [n] is 0 (the shift
    [x << 32]) or 32 or more, and [SHR(n, x)] exactly when [n] is 32 or
    more. *)
Theorem shifts_undefined_exactly (n x : Z) :
  0 <= n < 2 ^ 32 ->
  (ROTR n x = UB shift_out_of_range <-> n = 0 \/ 32 <= n) /\
  (SHR n x = UB shift_out_of_range <-> 32 <= n).
Proof.
  intros Hn. split; split.
  - intros H. destruct (Z.eq_dec n 0) as [|Hne]; [now left|].
    destruct (Z.lt_ge_cases n 32) as [Hlt|]; [|now right].
    rewrite ROTR_spec in H by lia. discriminate.
  - now apply ROTR_undefined.
  - intros H. destruct (Z.lt_ge_cases n 32) as [Hlt|]; [|assumption].
    rewrite SHR_spec in H by lia. discriminate.
  - apply SHR_undefined.
Qed.

Lemma shifts_undefined_exactly_witness :
  (ROTR 0 0x6a09e667 = UB shift_out_of_range <-> 0 = 0 \/ 32 <= 0) /\
  (SHR 0 0x6a09e667 = UB shift_out_of_range <-> 32 <= 0).
Proof. apply shifts_undefined_exactly. lia. Defined.

(** X20: rotations add up: rotating a word by [n] and then by [m]
    places is rotating it by [n + m] places modulo 32, and gives back the
    word when [n + m] is 32. *)
Theorem ROTR_composes (n m x : Z) :
  word x -> 0 < n < 32 -> 0 < m < 32 ->
  (let* r := ROTR n x in ROTR m r) =
  if n + m =? 32 then Ok x else ROTR ((n + m) `mod` 32) x.
Proof.
  intros Hx Hn Hm. rewrite (ROTR_spec n) by assumption. cbn [bind].
  rewrite (ROTR_spec m) by assumption. rewrite Spec_ROTR_ROTR by assumption.
  destruct (Z.eqb_spec (n + m) 32) as [|Hne]; [reflexivity|].
  rewrite ROTR_spec; [reflexivity|].
  pose proof (Z.mod_pos_bound (n + m) 32 ltac:(lia)).
  assert ((n + m) `mod` 32 <> 0); [|lia].
  intros H0. apply Z.mod_divide in H0 as [q Hq]; lia.
Qed.

Lemma ROTR_composes_witness :
  (let* r := ROTR 7 0x6a09e667 in ROTR 25 r) =
  if 7 + 25 =? 32 then Ok 0x6a09e667 else ROTR ((7 + 25) `mod` 32) 0x6a09e667.
Proof. apply ROTR_composes; unfold word; lia. Defined.

(** X21: the four sigma functions go through exclusive or: the value
    at [x xor y] is the exclusive or of the values at [x] and at [y]. *)
Theorem sigma_xor_linear (x y : Z) :
  word x -> word y ->
  capitalSigma_0 (Z.lxor x y) =
    (let* u := capitalSigma_0 x in let* v := capitalSigma_0 y in Ok (Z.lxor u v)) /\
  capitalSigma_1 (Z.lxor x y) =
    (let* u := capitalSigma_1 x in let* v := capitalSigma_1 y in Ok (Z.lxor u v)) /\
  lowercaseSigma0 (Z.lxor x y) =
    (let* u := lowercaseSigma0 x in let* v := lowercaseSigma0 y in Ok (Z.lxor u v)) /\
  lowercaseSigma1 (Z.lxor x y) =
    (let* u := lowercaseSigma1 x in let* v := lowercaseSigma1 y in Ok (Z.lxor u v)).
Proof.
  intros Hx Hy.
  rewrite !capitalSigma_0_Ok, !capitalSigma_1_Ok, !lowercaseSigma0_Ok,
    !lowercaseSigma1_Ok. cbn [bind].
  destruct (Spec_sigmas_lxor x y Hx Hy) as (-> & -> & -> & ->).
  repeat split.
Qed.

Lemma sigma_xor_linear_witness :
  capitalSigma_0 (Z.lxor 0x6a09e667 0xbb67ae85) =
    (let* u := capitalSigma_0 0x6a09e667 in
     let* v := capitalSigma_0 0xbb67ae85 in Ok (Z.lxor u v)) /\
  capitalSigma_1 (Z.lxor 0x6a09e667 0xbb67ae85) =
    (let* u := capitalSigma_1 0x6a09e667 in
     let* v := capitalSigma_1 0xbb67ae85 in Ok (Z.lxor u v)) /\
  lowercaseSigma0 (Z.lxor 0x6a09e667 0xbb67ae85) =
    (let* u := lowercaseSigma0 0x6a09e667 in
     let* v := lowercaseSigma0 0xbb67ae85 in Ok (Z.lxor u v)) /\
  lowercaseSigma1 (Z.lxor 0x6a09e667 0xbb67ae85) =
    (let* u := lowercaseSigma1 0x6a09e667 in
     let* v := lowercaseSigma1 0xbb67ae85 in Ok (Z.lxor u v)).
Proof. apply sigma_xor_linear; unfold word; lia. Defined.

(** X22: the word functions stay within 32 bits: on words, with shift
    amounts in range, every one of them returns a word, and [SHR(n, x)]
    one below [2 ^ (32 - n)]. *)
Theorem word_functions_return_words (n x y z : Z) :
  word x -> word y -> word z -> 0 < n < 32 ->
  (exists r, ROTR n x = Ok r /\ word r) /\
  (exists r, SHR n x = Ok r /\ 0 <= r < 2 ^ (32 - n)) /\
  word (Ch x y z) /\ word (Maj x y z) /\
  (exists r, capitalSigma_0 x = Ok r /\ word r) /\
  (exists r, capitalSigma_1 x = Ok r /\ word r) /\
  (exists r, lowercaseSigma0 x = Ok r /\ word r) /\
  (exists r, lowercaseSigma1 x = Ok r /\ word r).
Proof.
  intros Hx Hy Hz Hn. destruct (word_Spec_sigmas x Hx) as (H0 & H1 & H2 & H3).
  split; [exists (Spec.ROTR n x); split;
          [now apply ROTR_spec|apply word_Spec_ROTR; [assumption|lia]]|].
  split.
  { exists (Spec.SHR n x). split; [apply SHR_spec; lia|].
    unfold Spec.SHR, Spec.shr, word in *. split; [apply Z.div_pos; lia|].
    apply Z.div_lt_upper_bound; [lia|].
    rewrite <- Z.pow_add_r by lia. replace (n + (32 - n)) with 32 by lia. lia. }
  split; [now apply word_Ch|]. split; [now apply word_Maj|].
  split; [eexists; split; [apply capitalSigma_0_Ok|assumption]|].
  split; [eexists; split; [apply capitalSigma_1_Ok|assumption]|].
  split; [eexists; split; [apply lowercaseSigma0_Ok|assumption]|].
  eexists; split; [apply lowercaseSigma1_Ok|assumption].
Qed.

Lemma word_functions_return_words_witness :
  (exists r, ROTR 13 0x6a09e667 = Ok r /\ word r) /\
  (exists r, SHR 13 0x6a09e667 = Ok r /\ 0 <= r < 2 ^ (32 - 13)) /\
  word (Ch 0x6a09e667 0xbb67ae85 0x3c6ef372) /\
  word (Maj 0x6a09e667 0xbb67ae85 0x3c6ef372) /\
  (exists r, capitalSigma_0 0x6a09e667 = Ok r /\ word r) /\
  (exists r, capitalSigma_1 0x6a09e667 = Ok r /\ word r) /\
  (exists r, lowercaseSigma0 0x6a09e667 = Ok r /\ word r) /\
  (exists r, lowercaseSigma1 0x6a09e667 = Ok r /\ word r).
Proof. apply word_functions_return_words; unfold word; lia. Defined.

(** * Further properties: the compressor, the printer and the pipeline *)

(** X23: blocks are taken from left to right: the running states that
    [getHash] returns for the blocks [M1] are the first states that it
    returns for [M1] followed by [M2], and the states that follow are
    those of [M2] started from the last state of [M1]. *)
Theorem getHash_extends (gl : Globals.t) (M1 M2 : list (list Z)) :
  Forall (fun block => length block = 16%nat) (M1 ++ M2) ->
  size (M1 ++ M2) < INT_MAX -> Globals.wf gl ->
  exists gl1 gl2 states,
    getHash gl M1 = Ok (gl1, states) /\
    getHash gl (M1 ++ M2) =
    Ok (gl2, states ++ drop 1 (Spec.chain (default H0 (last states)) M2)).
Proof.
  intros HM Hs Hwf. apply Forall_app in HM as HM1. destruct HM1 as [HM1 _].
  assert (Hs1 : size M1 < INT_MAX).
  { rewrite size_app in Hs. unfold size in *. lia. }
  destruct (getHash_value M1 HM1 Hs1 gl Hwf) as (gl1 & H1 & _).
  destruct (getHash_value (M1 ++ M2) HM Hs gl Hwf) as (gl2 & H2 & _).
  exists gl1, gl2, (Spec.chain H0 M1).
  split; [exact H1|]. rewrite H2, chain_app. reflexivity.
Qed.

Lemma getHash_extends_witness :
  exists gl1 gl2 states,
    getHash Globals.initial [replicate 16 0] = Ok (gl1, states) /\
    getHash Globals.initial ([replicate 16 0] ++ [replicate 16 1]) =
    Ok (gl2, states ++ drop 1 (Spec.chain (default H0 (last states)) [replicate 16 1])).
Proof.
  apply getHash_extends; [|unfold size, INT_MAX; simpl; lia|reflexivity].
  repeat (apply Forall_cons; split; [reflexivity|]). apply Forall_nil. exact I.
Defined.

(** X24: [getHash] reads the first sixteen words of a block and no
    other: words after them change nothing. *)
Theorem getHash_reads_sixteen_words (gl : Globals.t) (M : list (list Z)) :
  getHash gl M = getHash gl (take 16 <$> M).
Proof.
  unfold getHash. unfold size at 2. rewrite length_fmap. fold (size M).
  rewrite (while_ext (getHash_cond (to_int (size M))) (getHash_cond (to_int (size M)))
             (getHash_body M) (getHash_body (take 16 <$> M)));
    [reflexivity|reflexivity|apply getHash_body_take].
Qed.

(** X25: [getHash] does not check the size of a block: at the first
    block of fewer than sixteen words, the copy into [W] reads past the
    end of the block. *)
Theorem getHash_short_block (gl : Globals.t) (good rest : list (list Z))
    (bad : list Z) :
  Forall (fun block => length block = 16%nat) good ->
  (length bad < 16)%nat -> size (good ++ bad :: rest) < INT_MAX ->
  Globals.wf gl ->
  getHash gl (good ++ bad :: rest) = UB out_of_bounds.
Proof.
  intros Hg Hb Hs Hwf.
  now apply (getHash_short (good ++ bad :: rest) good rest bad).
Qed.

Lemma getHash_short_block_witness :
  getHash Globals.initial ([replicate 16 0] ++ [1; 2; 3] :: []) = UB out_of_bounds.
Proof.
  apply getHash_short_block;
    [|simpl; lia|unfold size, INT_MAX; simpl; lia|reflexivity].
  apply Forall_cons. split; [reflexivity|]. apply Forall_nil. exact I.
Defined.

(** X26: a run leaves its last message schedule in the global array
    [W]: after [getHash] the first sixteen words of [W] are the words of
    the last block, and all 64 are its schedule. *)
Theorem getHash_leaves_schedule (gl : Globals.t) (M : list (list Z)) (block : list Z) :
  Forall (fun block => length block = 16%nat) M -> size M < INT_MAX ->
  Globals.wf gl -> last M = Some block ->
  exists gl' states,
    getHash gl M = Ok (gl', states) /\
    Globals.W gl' = Spec.schedule block /\
    take 16 (Globals.W gl') = block.
Proof.
  intros HM Hs Hwf Hl.
  destruct (getHash_W M HM Hs gl Hwf) as (gl' & Hg & Hinv).
  exists gl', (Spec.chain H0 M). split; [exact Hg|].
  rewrite last_lookup in Hl.
  destruct (length M) as [|k] eqn:E.
  { destruct M; discriminate. }
  cbn [Nat.pred] in Hl. destruct Hinv as (block' & Hb & HW).
  assert (block' = block) by congruence. subst block'.
  split; [exact HW|]. rewrite HW.
  assert (H16 : length block = 16%nat).
  { rewrite Forall_lookup in HM. exact (HM k block Hb). }
  pose proof (W_extend_take 0 48 block) as Ht.
  rewrite H16 in Ht. exact Ht.
Qed.

Lemma getHash_leaves_schedule_witness :
  exists gl' states,
    getHash Globals.initial [replicate 16 0; replicate 16 1] = Ok (gl', states) /\
    Globals.W gl' = Spec.schedule (replicate 16 1) /\
    take 16 (Globals.W gl') = replicate 16 1.
Proof.
  apply getHash_leaves_schedule;
    [|unfold size, INT_MAX; simpl; lia|reflexivity|reflexivity].
  repeat (apply Forall_cons; split; [reflexivity|]). apply Forall_nil. exact I.
Defined.

(** X27: without a block, and with a number of blocks that is not
    positive as an [int] (2^31 of them and more), the loop of [getHash]
    does not run: the result is the initial state alone, and no global
    is written. *)
Theorem getHash_no_block (gl : Globals.t) (M : list (list Z)) :
  to_int (size M) <= 0 -> getHash gl M = Ok (gl, [H0]).
Proof.
  intros HN. unfold getHash.
  rewrite (while_Break _ _ 1 _ (1, gl, push_back [] H0, replicate 8 0)).
  - reflexivity.
  - lia.
  - apply iter_n_S_Break. unfold getHash_cond.
    destruct (Z.leb_spec 1 (to_int (size M))); [lia|reflexivity].
Qed.

Lemma getHash_no_block_witness :
  getHash Globals.initial [] = Ok (Globals.initial, [H0]).
Proof. apply getHash_no_block. apply Z.leb_le. reflexivity. Defined.

(** X28: [printHash] on any chain [H] and index [N]: it is defined
    exactly when [H] has an element [N] of at least eight words, and it
    writes the first eight of them, eight digits each, and a newline;
    otherwise it indexes out of bounds. *)
Theorem printHash_on_any_input (H : list (list Z)) (N : Z) :
  INT_MIN <= N <= INT_MAX -> size H < 2 ^ 63 ->
  printHash H N =
  match (if 0 <=? N then H !! Z.to_nat N else None) with
  | Some d =>
      if (8 <=? length d)%nat then Ok (rendering (take 8 d))
      else UB out_of_bounds
  | None => UB out_of_bounds
  end.
Proof.
  unfold INT_MIN, INT_MAX. intros HN HH.
  destruct (Z.leb_spec 0 N) as [Hpos|Hneg].
  - destruct (H !! Z.to_nat N) as [d|] eqn:E.
    + apply printHash_row; [lia|exact E].
    + apply printHash_no_row. unfold to_size_t. rewrite Z.mod_small by lia. exact E.
  - apply printHash_no_row. apply lookup_ge_None_2.
    unfold to_size_t, size in *.
    replace N with (N + 2 ^ 64 + (-1) * 2 ^ 64) by lia.
    rewrite Z.mod_add, Z.mod_small by lia. lia.
Qed.

Lemma printHash_on_any_input_witness :
  printHash [H0] 1 =
  match (if 0 <=? 1 then [H0] !! Z.to_nat 1 else None) with
  | Some d =>
      if (8 <=? length d)%nat then Ok (rendering (take 8 d))
      else UB out_of_bounds
  | None => UB out_of_bounds
  end.
Proof.
  apply printHash_on_any_input; unfold INT_MIN, INT_MAX, size; simpl; lia.
Defined.

(** X29: the line that [printHash] writes determines the digest: two
    running states that are printed as the same line are equal. *)
Theorem printed_line_determines_digest (H1 H2 : list (list Z)) (N1 N2 : Z)
    (d1 d2 : list Z) :
  0 <= N1 < 2 ^ 64 -> 0 <= N2 < 2 ^ 64 ->
  H1 !! Z.to_nat N1 = Some d1 -> H2 !! Z.to_nat N2 = Some d2 ->
  hash_value d1 -> hash_value d2 ->
  printHash H1 N1 = printHash H2 N2 -> d1 = d2.
Proof.
  intros HN1 HN2 HH1 HH2 [Hl1 Hw1] [Hl2 Hw2] H.
  rewrite (printHash_value H1 N1 d1), (printHash_value H2 N2 d2) in H by assumption.
  injection H as H. now apply rendering_inj.
Qed.

Lemma printed_line_determines_digest_witness : H0 = H0.
Proof.
  apply (printed_line_determines_digest [H0] [[]; H0] 0 1);
    try lia; try reflexivity; apply hash_value_H0.
Defined.

(** X30: the pipeline of one iteration of [main] on any message whose
    bit length fits the padder: it writes the digest of the message when
    the message has at most 2^31 - 73 bytes, and the byte index of the
    parser overflows for every longer one. *)
Theorem main_step_on_any_message (gl : Globals.t) (message : list byte) :
  Globals.wf gl -> 8 * size message + 65 <= 2 ^ 63 ->
  outcome_of snd (main_step gl message) =
  if size message + 73 <=? 2 ^ 31
  then Ok (rendering (sha256 message)) else UB signed_overflow.
Proof.
  intros Hwf Hfit. destruct (Z.leb_spec (size message + 73) (2 ^ 31)) as [Hs|Hs].
  - destruct (main_step_value gl message Hwf Hs) as (gl' & -> & _). reflexivity.
  - destruct (run_overflow gl message ltac:(lia) Hfit) as [_ ->]. reflexivity.
Qed.

Lemma main_step_on_any_message_witness :
  outcome_of snd (main_step Globals.initial [x61; x62; x63]) =
  if size [x61; x62; x63] + 73 <=? 2 ^ 31
  then Ok (rendering (sha256 [x61; x62; x63])) else UB signed_overflow.
Proof.
  apply main_step_on_any_message; [reflexivity|unfold size; simpl; lia].
Defined.
